(** * Videotto backend: crop-window synthesis, lenient JSON parsing and the
      job pipeline (Backend/app.py, Backend/video_analyzer.py)

    Conventions of the embedding.

    - A Python float (keyframe times, normalised positions, clip start and
      end) is a binary64 number and is modelled by the rational it is
      exactly ([Q]).  An operation that yields a float returns the exact
      result rounded to the nearest binary64 number, ties to even
      ([round64]); a decimal literal of the source denotes the double
      nearest to it ([f64_0_1] for [0.1]).  Comparisons, [max] and [min]
      are exact.  Infinities, NaN and results beyond the largest double
      are outside the model.
    - Pixel quantities are Python [int]s and are modelled by [Z].  Where
      a numeric field holds an [int], it is the same rational; ints up to
      [2^53] in magnitude are doubles too.
    - [int(x)] on a float truncates toward zero: [int_of].
    - [a // b] on ints is floor division: [Z.div].
    - A dict read with [d.get(key, default)] is a record field of type
      [option _] read through [default]. *)

From Stdlib Require Import ZArith QArith Qround Qabs Qpower Lia Lqa Ascii String.
From Stdlib Require Import Sorting.Sorted.
From stdpp Require Import pretty gmap strings list option.

Local Open Scope Z_scope.

(** ** Numbers *)

(** [int(q)]: truncation toward zero. *)
Definition int_of (q : Q) : Z := Z.quot (Qnum q) (Zpos (Qden q)).

(** [a < b] as ffmpeg's [lt] and Python's [<] decide it. *)
Definition Qltb (a b : Q) : bool := negb (Qle_bool b a).

(** *** Float arithmetic

    [round64 q] is the binary64 number nearest to [q], ties to even: 53
    significant bits, least exponent -1074 (so that the subnormal numbers
    are covered).  [ilog2 q] is the binary exponent of a positive [q],
    [rne] rounds to the nearest integer, ties to even. *)
Definition pow2 (e : Z) : Q := (2 ^ e)%Q.

Definition rne (q : Q) : Z :=
  let f := Qfloor q in
  match Qcompare (q - inject_Z f) (1 # 2) with
  | Lt => f
  | Gt => f + 1
  | Eq => if Z.even f then f else f + 1
  end.

Definition ilog2 (q : Q) : Z :=
  let k := Z.log2 (Qnum q) - Z.log2 (Zpos (Qden q)) in
  if Qle_bool (pow2 k) q then k else k - 1.

(** The exponent of the last place of the double nearest to [q > 0]. *)
Definition ulp_exp (q : Q) : Z := Z.max (-1074) (ilog2 q - 52).

Definition round64_pos (q : Q) : Q :=
  (inject_Z (rne (q / pow2 (ulp_exp q))) * pow2 (ulp_exp q))%Q.

Definition round64 (q : Q) : Q :=
  Qred (match Qcompare q 0 with
        | Eq => 0
        | Gt => round64_pos q
        | Lt => - round64_pos (- q)
        end)%Q.
Arguments round64 : simpl never.

(** The largest double.  An operation whose exact result rounds to
    something larger yields an infinity in Python, on which [int] raises
    OverflowError: such results are outside the model, and [finite64]
    says that a result is not one of them. *)
Definition max_double : Q := inject_Z ((2 ^ 53 - 1) * 2 ^ 971).

Definition finite64 (q : Q) : Prop := (Qabs (round64 q) <= max_double)%Q.

(** An [int] where a float is needed: [float(n)]. *)
Definition float_of_int (n : Z) : Q := round64 (inject_Z n).

(** [a * b] and [a - b] on floats; [a / b] on ints, which Python rounds
    from the exact quotient. *)
Definition fmul (a b : Q) : Q := round64 (a * b).
Definition fsub (a b : Q) : Q := round64 (a - b).
Definition int_truediv (a b : Z) : Q := round64 (inject_Z a / inject_Z b).

(** The doubles that the decimal literals of the source denote
    ([0.5] is [1 # 2] exactly). *)
Definition f64_0_1 : Q := Eval vm_compute in round64 (1 # 10).
Definition f64_0_9 : Q := Eval vm_compute in round64 (9 # 10).
Definition f64_0_2 : Q := Eval vm_compute in round64 (1 # 5).
Definition f64_0_8 : Q := Eval vm_compute in round64 (4 # 5).
Definition f64_1_01 : Q := Eval vm_compute in round64 (101 # 100).
Definition f64_1_05 : Q := Eval vm_compute in round64 (105 # 100).
Definition f64_1_3 : Q := Eval vm_compute in round64 (13 # 10).

(** ** Keyframes *)

(** A keyframe dict [{"time": .., "cropX": ..}]; either key may be absent. *)
Record keyframe := Keyframe { kf_time : option Q; kf_cropX : option Q }.

(** [k.get("time", 0)] *)
Definition get_time (k : keyframe) : Q := default 0%Q (kf_time k).

(** [k.get("cropX", 0.5)] *)
Definition get_cropX (k : keyframe) : Q := default (1 # 2)%Q (kf_cropX k).

(** ** Crop geometry (extract_clips, reexport_clip) *)

(** [target_width = int(orig_height * 9 / 16)] *)
Definition target_width (orig_height : Z) : Z :=
  int_of (int_truediv (orig_height * 9) 16).

(** [max_x = orig_width - target_width] *)
Definition max_x (orig_width orig_height : Z) : Z :=
  orig_width - target_width orig_height.

(** The closure [cropx_to_pixels] of both call sites:
<<
    crop_center = int(cropx * orig_width)
    return max(0, min(crop_center - target_width // 2, max_x))
>> *)
Definition cropx_to_pixels (orig_width orig_height : Z) (cropx : Q) : Z :=
  let crop_center := int_of (fmul cropx (float_of_int orig_width)) in
  Z.max 0 (Z.min (crop_center - target_width orig_height / 2)
                 (max_x orig_width orig_height)).

(** ** The expression handed to the transform engine

    The code builds the text [if(lt(t,T),P,E)]; [expr] is its syntax tree
    and [eval] the meaning the engine gives to [t], [lt] and [if]:
    [lt(x,y)] is 1 when [x < y] and 0 otherwise, [if(c,a,b)] is [a] when
    [c] is non-zero and [b] otherwise. *)
Inductive expr : Type :=
| ENum (q : Q)
| ET
| ELt (a b : expr)
| EIf (c a b : expr).

Fixpoint eval (t : Q) (e : expr) : Q :=
  match e with
  | ENum q => q
  | ET => t
  | ELt a b => if Qltb (eval t a) (eval t b) then 1%Q else 0%Q
  | EIf c a b => if Qeq_bool (eval t c) 0 then eval t b else eval t a
  end.

(** [sorted(keyframes, key=lambda k: k.get("time", 0))]: a stable sort. *)
Fixpoint insert_by_time (k : keyframe) (l : list keyframe) : list keyframe :=
  match l with
  | [] => [k]
  | y :: l' =>
      if Qle_bool (get_time k) (get_time y) then k :: l
      else y :: insert_by_time k l'
  end.

Definition sorted_by_time (l : list keyframe) : list keyframe :=
  foldr insert_by_time [] l.

Section Synthesis.
Variables orig_width orig_height : Z.

Definition pixel (k : keyframe) : Z :=
  cropx_to_pixels orig_width orig_height (get_cropX k).

(** One pass of
<<
  for i in range(len(sorted_kf) - 2, -1, -1):
      t_next = sorted_kf[i + 1].get("time", 0)
      pos_curr = cropx_to_pixels(sorted_kf[i].get("cropX", 0.5))
      crop_expr = f"if(lt(t,{t_next}),{pos_curr},{crop_expr})"
>>
    [wrap_loop l n e] runs the iterations [i = n-1, ..., 0]; an index out
    of range is Python's IndexError, here [None]. *)
Fixpoint wrap_loop (sorted_kf : list keyframe) (n : nat) (crop_expr : expr)
  : option expr :=
  match n with
  | O => Some crop_expr
  | S i =>
      match sorted_kf !! S i, sorted_kf !! i with
      | Some k_next, Some k_curr =>
          wrap_loop sorted_kf i
            (EIf (ELt ET (ENum (get_time k_next)))
                 (ENum (inject_Z (pixel k_curr))) crop_expr)
      | _, _ => None
      end
  end.

(** The [if len(sorted_kf) == 1: ... else: ...] block. *)
Definition build_crop_expr (sorted_kf : list keyframe) : option expr :=
  if decide (length sorted_kf = 1%nat) then
    match sorted_kf !! 0%nat with
    | Some k => Some (ENum (inject_Z (pixel k)))
    | None => None
    end
  else
    match list.last sorted_kf with
    | Some k_last =>
        wrap_loop sorted_kf (length sorted_kf - 1)%nat
          (ENum (inject_Z (pixel k_last)))
    | None => None
    end.

(** Sorting followed by the construction, as both call sites do. *)
Definition crop_expr_of (keyframes : list keyframe) : option expr :=
  build_crop_expr (sorted_by_time keyframes).

(** The same expression by recursion on the list, used in the proofs. *)
Fixpoint nest (l : list keyframe) : expr :=
  match l with
  | [] => ENum 0
  | k :: tl =>
      match tl with
      | [] => ENum (inject_Z (pixel k))
      | k' :: _ =>
          EIf (ELt ET (ENum (get_time k'))) (ENum (inject_Z (pixel k))) (nest tl)
      end
  end.
End Synthesis.

(** Strictly ascending times. *)
Definition time_lt (a b : keyframe) : Prop := (get_time a < get_time b)%Q.
Definition ascending (l : list keyframe) : Prop := StronglySorted time_lt l.

(** ** The synthesizer as the specification words it

    [clamp(v, lo, hi)], the crop width [Wc = floor(H * 9 / 16)], the
    maximum left offset [maxX = W - Wc], and "rounded to the nearest
    integer" as a relation, so that no tie-breaking rule is presumed. *)
Definition clamp (v lo hi : Z) : Z := Z.max lo (Z.min v hi).

Definition Wc_spec (H : Z) : Z := Qfloor (inject_Z H * 9 / 16)%Q.

Definition maxX_spec (W H : Z) : Z := W - Wc_spec H.

Definition nearest (r : Z) (q : Q) : Prop := (Qabs (inject_Z r - q) <= 1 # 2)%Q.

(** [pixel(x) = clamp(round(x * W) - floor(Wc/2), 0, maxX)], given the
    rounded product [r]. *)
Definition pixel_spec (W H : Z) (r : Z) : Z :=
  clamp (r - Wc_spec H / 2) 0 (maxX_spec W H).

(** The two keyframes of the 1920x1080 scenario, [(0, 0.2)] and
    [(5, 0.8)]. *)
Definition scenario_kfs : list keyframe :=
  [ Keyframe (Some 0%Q) (Some f64_0_2); Keyframe (Some 5%Q) (Some f64_0_8) ].

(** ** Outcomes of Python calls *)

(** Local files.  [tempfile.mktemp] and [tempfile.mkdtemp] give every
    call a name of its own; the per-clip output is named after the clip's
    rank. *)
Inductive path : Type :=
| SourceVideo
| AudioTrack
| ClipOutput (rank : Z)
| ReexportSource
| ReexportOutput.

Definition path_eqb (a b : path) : bool :=
  match a, b with
  | SourceVideo, SourceVideo => true
  | AudioTrack, AudioTrack => true
  | ClipOutput r, ClipOutput r' => (r =? r')%Z
  | ReexportSource, ReexportSource => true
  | ReexportOutput, ReexportOutput => true
  | _, _ => false
  end.

(** The exceptions the modelled code can raise.  A [FileNotFoundError]
    carries the file it is about. *)
Inductive exn : Type :=
| JSONDecodeError (msg : string)
| ValueError (msg : string)
| RecursionError (msg : string)
| IndexError
| KeyError (key : string)
| FileNotFoundError (file : path)
| OtherError (msg : string).

(** A call either returns a value or raises. *)
Inductive outcome (A : Type) : Type :=
| Returns (a : A)
| Raises (e : exn).
Arguments Returns {A} a.
Arguments Raises {A} e.

(** ** Text (parse_json_safely)

    Python [str] values are lists of characters. *)
Definition str : Type := list ascii.

(** The double-quote character. *)
Definition dq : ascii := "034"%char.

(** A text literal; an apostrophe in the literal stands for [dq]. *)
Definition py (x : string) : str :=
  map (fun c => if Ascii.eqb c "'" then dq else c) (list_ascii_of_string x).

(** [s.startswith(p)] *)
Fixpoint starts_with (p s : str) : bool :=
  match p, s with
  | [], _ => true
  | _ :: _, [] => false
  | a :: p', b :: s' => Ascii.eqb a b && starts_with p' s'
  end.

(** The leftmost occurrence of [sep] in [s]: the text before it and the
    text after it. *)
Fixpoint find_sub (sep s : str) : option (str * str) :=
  if starts_with sep s then Some ([], drop (length sep) s)
  else match s with
       | [] => None
       | c :: s' =>
           match find_sub sep s' with
           | Some (before, after) => Some (c :: before, after)
           | None => None
           end
       end.

(** [sep in s] *)
Definition contains (sep s : str) : bool :=
  match find_sub sep s with Some _ => true | None => false end.

(** [s.split(sep)] for a non-empty [sep]: cut at the leftmost occurrences,
    which do not overlap.  Every cut shortens the text, so [length s + 1]
    rounds are enough. *)
Fixpoint split_rounds (n : nat) (sep s : str) : list str :=
  match n with
  | O => [s]
  | S n' =>
      match find_sub sep s with
      | Some (before, after) => before :: split_rounds n' sep after
      | None => [s]
      end
  end.

Definition split (sep s : str) : list str := split_rounds (S (length s)) sep s.

(** Characters on which [str.isspace()] holds and which the pattern [\s]
    matches, among the first 256 code points. *)
Definition is_space (c : ascii) : bool :=
  let n := nat_of_ascii c in
  ((9 <=? n) && (n <=? 13) || (28 <=? n) && (n <=? 32)
   || (n =? 133) || (n =? 160))%nat.

Fixpoint lstrip (s : str) : str :=
  match s with
  | c :: s' => if is_space c then lstrip s' else s
  | [] => []
  end.

Definition rstrip (s : str) : str := rev (lstrip (rev s)).

(** [s.strip()] *)
Definition strip (s : str) : str := rstrip (lstrip s).

(** The text up to and including the last ["}"] of [s]. *)
Fixpoint upto_last_close (s : str) : option str :=
  match s with
  | [] => None
  | c :: s' =>
      match upto_last_close s' with
      | Some r => Some (c :: r)
      | None => if Ascii.eqb c "}" then Some [c] else None
      end
  end.

(** [re.search(r'\{[\s\S]*\}', s)]: the leftmost ["{"] from which a match
    exists, then as much text as possible up to a ["}"].  If any ["{"] is
    followed by a ["}"] the first one is, so the match, when there is one,
    runs from the first ["{"] to the last ["}"]. *)
Fixpoint search_braces (s : str) : option str :=
  match s with
  | [] => None
  | c :: s' =>
      if Ascii.eqb c "{" then
        match upto_last_close s' with
        | Some r => Some (c :: r)
        | None => None
        end
      else search_braces s'
  end.

(** Does [\s*[}\]]] match at the start of [s]?  The closing characters are
    not white space, so the greedy [\s*] never has to give anything back. *)
Definition closes_after_spaces (s : str) : bool :=
  match lstrip s with
  | c :: _ => Ascii.eqb c "}" || Ascii.eqb c "]"
  | [] => false
  end.

(** [re.sub(r',(\s*[}\]])', r'\1', s)]: every comma that is followed by
    optional white space and a closing brace or bracket is dropped.  The
    text kept from a match holds no comma, so scanning on from just after
    the dropped comma gives the same result as scanning on from the end of
    the match. *)
Fixpoint remove_trailing_commas (s : str) : str :=
  match s with
  | [] => []
  | c :: s' =>
      if Ascii.eqb c "," && closes_after_spaces s'
      then remove_trailing_commas s'
      else c :: remove_trailing_commas s'
  end.

(** [seq[i]] *)
Definition index {A} (l : list A) (i : nat) : outcome A :=
  match l !! i with
  | Some x => Returns x
  | None => Raises IndexError
  end.

Definition fence_json : str := py "```json".
Definition fence : str := py "```".

(** What a call of [json.loads] does: it returns a value; it raises
    [json.JSONDecodeError], whose text the code at most prints; or it
    raises an exception of another class ([ValueError] for an integer
    literal of more than 4300 digits, [RecursionError] for nesting beyond
    what the interpreter allows), which [except json.JSONDecodeError]
    does not catch. *)
Inductive loaded (A : Type) : Type :=
| Loaded (v : A)
| DecodeError
| Refused (e : exn).
Arguments Loaded {A} v.
Arguments DecodeError {A}.
Arguments Refused {A} e.

Section LenientParser.
(** [json.loads] belongs to Python's library: it is a parameter. *)
Variable J : Type.
Variable loads : str -> loaded J.

(** The first statement of [parse_json_safely]:
<<
    if "```json" in content:
        content = content.split("```json")[1].split("```")[0]
    elif "```" in content:
        content = content.split("```")[1].split("```")[0]
>> *)
Definition strip_fence (content : str) : outcome str :=
  if contains fence_json content then
    match index (split fence_json content) 1 with
    | Returns part => index (split fence part) 0
    | Raises e => Raises e
    end
  else if contains fence content then
    match index (split fence content) 1 with
    | Returns part => index (split fence part) 0
    | Raises e => Raises e
    end
  else Returns content.

(** [try: return json.loads(text)] followed by
    [except json.JSONDecodeError:] and what comes after it. *)
Definition try_loads (text : str) (otherwise : outcome J) : outcome J :=
  match loads text with
  | Loaded v => Returns v
  | DecodeError => otherwise
  | Refused e => Raises e
  end.

(** The rest of [parse_json_safely], from [content = content.strip()]. *)
Definition parse_stripped (content : str) : outcome J :=
  try_loads content
    (match search_braces content with
     | Some json_str =>
         try_loads json_str
           (let fixed_json := remove_trailing_commas json_str in
            try_loads fixed_json
              (Raises (JSONDecodeError "Could not parse JSON")))
     | None => Raises (JSONDecodeError "Could not parse JSON")
     end).

Definition parse_json_safely (content : str) : outcome J :=
  match strip_fence content with
  | Returns content1 => parse_stripped (strip content1)
  | Raises e => Raises e
  end.
End LenientParser.

(** ** The lenient parser in words

    The text that is parsed, the candidate: what lies between the first
    json fence and the next one (or the end of the text), cut at its first
    bare fence; without a json fence, what lies between the first bare
    fence and the next one (or the end); without any fence, the text. *)
Definition after_first (sep s : str) : str :=
  match find_sub sep s with Some (_, after) => after | None => [] end.

Definition before_first (sep s : str) : str :=
  match find_sub sep s with Some (before, _) => before | None => s end.

Definition candidate (content : str) : str :=
  if contains fence_json content then
    before_first fence (before_first fence_json (after_first fence_json content))
  else if contains fence content then
    before_first fence (after_first fence content)
  else content.

(** The texts that are handed to [json.loads], in this order: the trimmed
    candidate; its span from the first opening brace to the last closing
    brace, if there is one; that span without its trailing commas. *)
Definition attempts (t : str) : list str :=
  t :: match search_braces t with
       | Some span => [span; remove_trailing_commas span]
       | None => []
       end.

Section LenientSpec.
Variable J : Type.
Variable loads : str -> loaded J.

(** The first text that parses gives the result; a text that is not JSON
    leads to the next one; any other exception ends the attempts; when no
    text is left, the parse error is raised. *)
Fixpoint first_parse (texts : list str) : outcome J :=
  match texts with
  | [] => Raises (JSONDecodeError "Could not parse JSON")
  | t :: rest =>
      match loads t with
      | Loaded v => Returns v
      | DecodeError => first_parse rest
      | Refused e => Raises e
      end
  end.

Definition lenient_spec (content : str) : outcome J :=
  first_parse (attempts (strip (candidate content))).
End LenientSpec.

(** ** A JSON reader standing for [json.loads]

    Used to run [parse_json_safely] on concrete texts.  It accepts the
    grammar [json.loads] accepts (RFC 8259 plus the literals [NaN],
    [Infinity] and [-Infinity]) and returns the syntax tree of the text:
    number literals and string bodies are kept as written.  Like the
    library it reads from left to right and stops at the first thing it
    cannot accept: a syntax error ([DecodeError]), an integer literal of
    more than 4300 digits ([ValueError], the default of
    [sys.set_int_max_str_digits]), or an array or object opened when no
    further nesting is allowed ([RecursionError]).  How much nesting is
    allowed depends on the recursion limit and on the call stack at the
    time of the call: it is the parameter [depth]. *)
#[local] Set Warnings "-register-all".
Inductive json : Type :=
| JNull
| JBool (b : bool)
| JNum (literal : str)
| JStr (body : str)
| JArr (items : list json)
| JObj (members : list (str * json)).

(** White space between JSON tokens: space, tab, line feed, carriage return. *)
Definition is_json_ws (c : ascii) : bool :=
  Ascii.eqb c " " || Ascii.eqb c "009" || Ascii.eqb c "010" || Ascii.eqb c "013".

Fixpoint skip_ws (s : str) : str :=
  match s with
  | c :: s' => if is_json_ws c then skip_ws s' else s
  | [] => []
  end.

Definition is_digit (c : ascii) : bool :=
  let n := nat_of_ascii c in ((48 <=? n) && (n <=? 57))%nat.

Definition is_hex (c : ascii) : bool :=
  let n := nat_of_ascii c in
  (is_digit c || (65 <=? n) && (n <=? 70) || (97 <=? n) && (n <=? 102))%nat.

(** The body of a string, after the opening quote: up to the closing quote.
    Control characters are refused; a backslash must start an escape. *)
Fixpoint string_body (s : str) : option (str * str) :=
  match s with
  | [] => None
  | c :: s' =>
      if Ascii.eqb c dq then Some ([], s')
      else if (nat_of_ascii c <? 32)%nat then None
      else if Ascii.eqb c "\" then
        match s' with
        | e :: s'' =>
            if Ascii.eqb e "u" then
              match s'' with
              | h1 :: h2 :: h3 :: h4 :: s3 =>
                  if is_hex h1 && is_hex h2 && is_hex h3 && is_hex h4 then
                    match string_body s3 with
                    | Some (b, r) => Some (c :: e :: h1 :: h2 :: h3 :: h4 :: b, r)
                    | None => None
                    end
                  else None
              | _ => None
              end
            else if Ascii.eqb e dq || Ascii.eqb e "\" || Ascii.eqb e "/"
                    || Ascii.eqb e "b" || Ascii.eqb e "f" || Ascii.eqb e "n"
                    || Ascii.eqb e "r" || Ascii.eqb e "t" then
              match string_body s'' with
              | Some (b, r) => Some (c :: e :: b, r)
              | None => None
              end
            else None
        | [] => None
        end
      else
        match string_body s' with
        | Some (b, r) => Some (c :: b, r)
        | None => None
        end
  end.

(** The longest run of digits at the start of [s]. *)
Fixpoint digits (s : str) : str * str :=
  match s with
  | c :: s' =>
      if is_digit c then let '(d, r) := digits s' in (c :: d, r) else ([], s)
  | [] => ([], [])
  end.

(** A number literal: an optional minus sign, then a single zero or a run
    of digits that does not start with zero, then an optional fraction (a
    dot and digits) and an optional exponent (e or E, an optional sign and
    digits); a fraction or exponent that is not complete is left unread. *)
Definition number (s : str) : option (str * str) :=
  let '(sign, s1) :=
    match s with
    | c :: r => if Ascii.eqb c "-" then ([c], r) else ([], s)
    | [] => ([], s)
    end in
  let '(int_part, s2) := digits s1 in
  match int_part with
  | [] => None
  | d :: ds =>
      let '(int_part, s2) :=
        if Ascii.eqb d "0" then ([d], ds ++ s2) else (int_part, s2) in
      let '(frac, s3) :=
        match s2 with
        | c :: r =>
            if Ascii.eqb c "." then
              match digits r with
              | ([], _) => ([], s2)
              | (f, r') => (c :: f, r')
              end
            else ([], s2)
        | [] => ([], s2)
        end in
      let '(expo, s4) :=
        match s3 with
        | c :: r =>
            if Ascii.eqb c "e" || Ascii.eqb c "E" then
              let '(sg, r1) :=
                match r with
                | g :: r' =>
                    if Ascii.eqb g "-" || Ascii.eqb g "+" then ([g], r') else ([], r)
                | [] => ([], r)
                end in
              match digits r1 with
              | ([], _) => ([], s3)
              | (x, r') => (c :: sg ++ x, r')
              end
            else ([], s3)
        | [] => ([], s3)
        end in
      Some (sign ++ int_part ++ frac ++ expo, s4)
  end.

(** A fixed word at the start of [s]. *)
Definition word (w : string) (v : json) (s : str) : option (json * str) :=
  let w := list_ascii_of_string w in
  if starts_with w s then Some (v, drop (length w) s) else None.

(** A literal without fraction and exponent is converted by [int], which
    refuses more than [max_str_digits] digits. *)
Definition max_str_digits : nat := 4300.

Definition is_int_literal (lit : str) : bool :=
  forallb (fun c => is_digit c || Ascii.eqb c "-") lit.

Definition digit_count (lit : str) : nat := length (List.filter is_digit lit).

Definition too_many_digits (n : nat) : exn :=
  ValueError
    ("Exceeds the limit (4300 digits) for integer string conversion: value has "
     ++ pretty n
     ++ " digits; use sys.set_int_max_str_digits() to increase the limit").

(** A value that is neither an object, an array nor a string. *)
Definition scalar (s : str) : loaded (json * str) :=
  match word "null" JNull s with
  | Some r => Loaded r
  | None =>
  match word "true" (JBool true) s with
  | Some r => Loaded r
  | None =>
  match word "false" (JBool false) s with
  | Some r => Loaded r
  | None =>
  match word "NaN" (JNum (py "NaN")) s with
  | Some r => Loaded r
  | None =>
  match word "Infinity" (JNum (py "Infinity")) s with
  | Some r => Loaded r
  | None =>
  match word "-Infinity" (JNum (py "-Infinity")) s with
  | Some r => Loaded r
  | None =>
  match number s with
  | Some (lit, r) =>
      if is_int_literal lit && (max_str_digits <? digit_count lit)%nat
      then Refused (too_many_digits (digit_count lit))
      else Loaded (JNum lit, r)
  | None => DecodeError
  end end end end end end end.

(** The exceptions of a nesting that goes too deep. *)
Definition too_deep (what : string) : exn :=
  RecursionError
    ("maximum recursion depth exceeded while decoding a JSON " ++ what
     ++ " from a unicode string").

(** Sequencing of reads. *)
Definition and_then {A B} (r : loaded A) (k : A -> loaded B) : loaded B :=
  match r with
  | Loaded a => k a
  | DecodeError => DecodeError
  | Refused e => Refused e
  end.

(** Values, the items of an array after its opening bracket, and the
    members of an object after its opening brace.  [depth] is the number
    of arrays and objects that may still be opened inside one another;
    [n] is the fuel of the recursion. *)
Fixpoint value (depth n : nat) (s : str) : loaded (json * str) :=
  match n with
  | O => DecodeError
  | S n' =>
      match s with
      | [] => DecodeError
      | c :: r =>
          if Ascii.eqb c "{" then
            match depth with
            | O => Refused (too_deep "object")
            | S depth' =>
                match skip_ws r with
                | c' :: r' =>
                    if Ascii.eqb c' "}" then Loaded (JObj [], r')
                    else and_then (members depth' n' (c' :: r'))
                           (fun '(kvs, r'') => Loaded (JObj kvs, r''))
                | [] => DecodeError
                end
            end
          else if Ascii.eqb c "[" then
            match depth with
            | O => Refused (too_deep "array")
            | S depth' =>
                match skip_ws r with
                | c' :: r' =>
                    if Ascii.eqb c' "]" then Loaded (JArr [], r')
                    else and_then (items depth' n' (c' :: r'))
                           (fun '(vs, r'') => Loaded (JArr vs, r''))
                | [] => DecodeError
                end
            end
          else if Ascii.eqb c dq then
            match string_body r with
            | Some (b, r') => Loaded (JStr b, r')
            | None => DecodeError
            end
          else scalar s
      end
  end
with items (depth n : nat) (s : str) : loaded (list json * str) :=
  match n with
  | O => DecodeError
  | S n' =>
      and_then (value depth n' s)
        (fun '(v, r) =>
           match skip_ws r with
           | c :: r' =>
               if Ascii.eqb c "]" then Loaded ([v], r')
               else if Ascii.eqb c "," then
                 and_then (items depth n' (skip_ws r'))
                   (fun '(vs, r'') => Loaded (v :: vs, r''))
               else DecodeError
           | [] => DecodeError
           end)
  end
with members (depth n : nat) (s : str) : loaded (list (str * json) * str) :=
  match n with
  | O => DecodeError
  | S n' =>
      match s with
      | q :: r =>
          if Ascii.eqb q dq then
            match string_body r with
            | Some (k, r1) =>
                match skip_ws r1 with
                | c :: r2 =>
                    if Ascii.eqb c ":" then
                      and_then (value depth n' (skip_ws r2))
                        (fun '(v, r3) =>
                           match skip_ws r3 with
                           | c' :: r4 =>
                               if Ascii.eqb c' "}" then Loaded ([(k, v)], r4)
                               else if Ascii.eqb c' "," then
                                 and_then (members depth n' (skip_ws r4))
                                   (fun '(kvs, r5) => Loaded ((k, v) :: kvs, r5))
                               else DecodeError
                           | [] => DecodeError
                           end)
                    else DecodeError
                | [] => DecodeError
                end
            | None => DecodeError
            end
          else DecodeError
      | [] => DecodeError
      end
  end.

(** [json.loads(s)]: one value between optional white space, nothing else.
    Two steps of the recursion in a row read a character, so twice
    [length s] steps and one more are enough. *)
Definition json_loads (depth : nat) (s : str) : loaded json :=
  match value depth (S (2 * length s)) (skip_ws s) with
  | Loaded (v, r) => match skip_ws r with [] => Loaded v | _ :: _ => DecodeError end
  | DecodeError => DecodeError
  | Refused e => Refused e
  end.

(** The nesting left to [json.loads] when it is called from a script at
    the default recursion limit of 1000; a deeper call stack leaves less. *)
Definition default_depth : nat := 995.

(** The backtick, and "the character [c] does not occur in [s]". *)
Definition backtick : ascii := "`"%char.
Definition lacks (c : ascii) (s : str) : Prop := ~ In c s.

(** A closing brace or bracket. *)
Definition is_closer (c : ascii) : bool := Ascii.eqb c "}" || Ascii.eqb c "]".

(** ** Jobs, local files and the outside world

    The module-level dict [jobs], the local files the code creates, and
    two logs kept for the statements below: every value written to a
    job's ["status"], and every invocation of the transform engine. *)

Inductive status : Type :=
| Queued | Downloading | Transcribing | Analyzing | Extracting
| Completed | Failed.

(** A transcript segment [{"start", "end", "text", "speaker"}]. *)
Record segment := Segment {
  seg_start : Q; seg_end : Q; seg_text : str; seg_speaker : Z }.

(** An entry of the job's flattened ["transcript"]. *)
Record transcript_line := TranscriptLine {
  line_start : Q; line_end : Q; line_text : str }.

(** A clip dict.  The keys the selection reply must carry are fields; the
    keys the code adds later are optional.  The key of a stored clip,
    [f"clips/{job_id}/clip_{rank}.mp4"], is kept as its two parameters.
    The display texts are carried along unchanged and left out. *)
Record clip := Clip {
  rank : Z;
  start_time : Q;
  end_time : Q;
  clip_keyframes : option (list keyframe);
  video_url : option string;
  clip_s3_key : option (string * Z) }.

(** A job dict. *)
Record job := Job {
  job_status : status;
  progress : string;
  result : option (list clip);
  error : option string;
  s3_key : string;
  transcript : option (list transcript_line);
  source_s3_key : option string }.

(** One run of the transform engine:
    [ffmpeg -ss start -i input -t duration
            -vf crop=W:H:'expr':0,scale=1080:1920 ... output]. *)
Record transform_call := Transform {
  t_input : path;
  t_start : Q;
  t_duration : Q;
  t_crop_w : Z;
  t_crop_h : Z;
  t_crop_x : expr;
  t_output : path }.

Record world := World {
  jobs : gmap string job;
  files : list path;
  history : list (string * status);
  transforms : list transform_call }.

(** ** Computations: a world in, a result or an exception and a world out *)

Definition M (A : Type) : Type := world -> outcome A * world.

Definition ret {A} (a : A) : M A := fun w => (Returns a, w).

Definition raise {A} (e : exn) : M A := fun w => (Raises e, w).

Definition bind {A B} (m : M A) (f : A -> M B) : M B :=
  fun w =>
    match m w with
    | (Returns a, w') => f a w'
    | (Raises e, w') => (Raises e, w')
    end.

Notation "x <- m ;; k" := (bind m (fun x => k))
  (at level 20, m at level 99, k at level 200, only parsing).
Notation "m ;;; k" := (bind m (fun _ => k))
  (at level 100, k at level 200, only parsing, right associativity).

(** A value computed without the world. *)
Definition lift {A} (r : outcome A) : M A := fun w => (r, w).

(** [try: body / except Exception as e: handler(e)] *)
Definition try_except {A} (body : M A) (handler : exn -> M A) : M A :=
  fun w =>
    match body w with
    | (Raises e, w') => handler e w'
    | (Returns a, w') => (Returns a, w')
    end.

(** [try: body / finally: cleanup]: the cleanup runs on every exit of the
    body; an exception of its own replaces the body's result. *)
Definition try_finally {A} (body : M A) (cleanup : M unit) : M A :=
  fun w =>
    let '(r, w') := body w in
    match cleanup w' with
    | (Returns _, w'') => (r, w'')
    | (Raises e, w'') => (Raises e, w'')
    end.

(** [str(e)].  The text of a [FileNotFoundError] ends with the name of
    the file; the names are chosen by [tempfile] at run time, so they are
    a parameter: [name_of]. *)
Definition exn_message (name_of : path -> string) (e : exn) : string :=
  match e with
  | JSONDecodeError msg => msg ++ ": line 1 column 1 (char 0)"
  | ValueError msg => msg
  | RecursionError msg => msg
  | IndexError => "list index out of range"
  | KeyError key => "'" ++ key ++ "'"
  | FileNotFoundError file =>
      "[Errno 2] No such file or directory: '" ++ name_of file ++ "'"
  | OtherError msg => msg
  end.

(** *** Files *)

Definition has_file (p : path) (fs : list path) : bool := existsb (path_eqb p) fs.

Definition add_file (p : path) (fs : list path) : list path :=
  if has_file p fs then fs else p :: fs.

Definition del_file (p : path) (fs : list path) : list path :=
  List.filter (fun q => negb (path_eqb p q)) fs.

(** [os.path.exists(p)] *)
Definition path_exists (p : path) : M bool :=
  fun w => (Returns (has_file p (files w)), w).

(** A file written by a collaborator. *)
Definition write_file (p : path) : M unit :=
  fun w => (Returns tt,
            World (jobs w) (add_file p (files w)) (history w) (transforms w)).

(** [os.remove(p)] *)
Definition os_remove (p : path) : M unit :=
  fun w =>
    if has_file p (files w) then
      (Returns tt,
       World (jobs w) (del_file p (files w)) (history w) (transforms w))
    else (Raises (FileNotFoundError p), w).

(** [if os.path.exists(p): os.remove(p)] *)
Definition remove_if_exists (p : path) : M unit :=
  b <- path_exists p ;; if (b : bool) then os_remove p else ret tt.

(** *** The job registry *)

(** [jobs[job_id][key] = value] for the keys other than ["status"]. *)
Definition update_job (job_id : string) (f : job -> job) : M unit :=
  fun w =>
    match jobs w !! job_id with
    | Some j =>
        (Returns tt,
         World (<[job_id := f j]> (jobs w)) (files w) (history w) (transforms w))
    | None => (Raises (KeyError job_id), w)
    end.

Definition with_status (st : status) (j : job) : job :=
  Job st (progress j) (result j) (error j) (s3_key j) (transcript j)
      (source_s3_key j).
Definition with_progress (p : string) (j : job) : job :=
  Job (job_status j) p (result j) (error j) (s3_key j) (transcript j)
      (source_s3_key j).
Definition with_result (r : list clip) (j : job) : job :=
  Job (job_status j) (progress j) (Some r) (error j) (s3_key j) (transcript j)
      (source_s3_key j).
Definition with_error (e : string) (j : job) : job :=
  Job (job_status j) (progress j) (result j) (Some e) (s3_key j) (transcript j)
      (source_s3_key j).
Definition with_transcript (t : list transcript_line) (j : job) : job :=
  Job (job_status j) (progress j) (result j) (error j) (s3_key j) (Some t)
      (source_s3_key j).
Definition with_source_s3_key (k : string) (j : job) : job :=
  Job (job_status j) (progress j) (result j) (error j) (s3_key j) (transcript j)
      (Some k).

(** [jobs[job_id]["status"] = st], logged. *)
Definition set_status (job_id : string) (st : status) : M unit :=
  fun w =>
    match jobs w !! job_id with
    | Some j =>
        (Returns tt,
         World (<[job_id := with_status st j]> (jobs w)) (files w)
               (history w ++ [(job_id, st)]) (transforms w))
    | None => (Raises (KeyError job_id), w)
    end.

Definition set_progress (job_id : string) (p : string) : M unit :=
  update_job job_id (with_progress p).

(** *** Storage *)

(** What a download does: it completes, or it raises, possibly leaving a
    file behind. *)
Inductive download_outcome : Type :=
| Downloaded
| DownloadFails (msg : string) (leaves_file : bool).

(** [download_from_s3(s3_key, local_path)] *)
Definition download_from_s3 (d : download_outcome) (local_path : path) : M unit :=
  match d with
  | Downloaded => write_file local_path
  | DownloadFails msg leaves_file =>
      (if leaves_file then write_file local_path else ret tt) ;;;
      raise (OtherError msg)
  end.

(** [upload_to_s3(local_path, s3_key)]: the URL of the stored object, or an
    exception; without the local file there is nothing to send. *)
Definition upload_to_s3 (u : outcome string) (local_path : path) : M string :=
  b <- path_exists local_path ;;
  if (b : bool) then lift u else raise (FileNotFoundError local_path).

(** *** The transform engine *)

(** What a run of the engine does: whether the output file exists
    afterwards, and the exit code. *)
Record transform_result := TransformResult {
  makes_file : bool;
  returncode : Z }.

(** [subprocess.run(cmd, capture_output=True)]: never raises on a non-zero
    exit. *)
Definition run_ffmpeg (r : transform_result) (call : transform_call) : M Z :=
  fun w =>
    (Returns (returncode r),
     World (jobs w)
           (if makes_file r then add_file (t_output call) (files w) else files w)
           (history w) (transforms w ++ [call])).

(** ** Transcription (extract_audio, transcribe_video) *)

(** An utterance of the transcription reply; [utt.get("speaker", 0)] has a
    default, the other keys are read with [utt[...]]. *)
Record utterance := Utterance {
  utt_start : option Q;
  utt_end : option Q;
  utt_transcript : option str;
  utt_speaker : option Z }.

(** What the transcription collaborator does: the request or the decoding
    of its reply raises; the reply carries an ["error"] key; or the reply
    is read for [result.get("results", {}).get("utterances", [])]. *)
Inductive deepgram_reply : Type :=
| DgRaises (msg : string)
| DgError
| DgResult (utterances : list utterance).

(** The collaborator failed: an exception or an error reply. *)
Definition deepgram_failed (r : deepgram_reply) : Prop :=
  match r with
  | DgRaises _ | DgError => True
  | DgResult _ => False
  end.

(** The loop [for utt in utterances: segments.append({...})]. *)
Fixpoint segments_of (utterances : list utterance) : outcome (list segment) :=
  match utterances with
  | [] => Returns []
  | utt :: rest =>
      match utt_start utt, utt_end utt, utt_transcript utt with
      | Some s, Some e, Some t =>
          match segments_of rest with
          | Returns segments =>
              Returns (Segment s e t (default 0 (utt_speaker utt)) :: segments)
          | Raises x => Raises x
          end
      | None, _, _ => Raises (KeyError "start")
      | _, None, _ => Raises (KeyError "end")
      | _, _, None => Raises (KeyError "transcript")
      end
  end.

(** [extract_audio]: the audio file is there afterwards when the engine
    could write it. *)
Definition extract_audio (audio_created : bool) : M path :=
  (if audio_created then write_file AudioTrack else ret tt) ;;;
  ret AudioTrack.

(** [transcribe_video]: [os.path.getsize] runs before the [try]; the
    request, the error test and the loop run inside it, under
    [except Exception] and [finally]. *)
Definition transcribe_video (audio_created : bool) (reply : deepgram_reply)
  : M (list segment) :=
  audio_path <- extract_audio audio_created ;;
  present <- path_exists audio_path ;;
  (if (present : bool) then ret tt else raise (FileNotFoundError audio_path)) ;;;
  try_finally
    (try_except
       (match reply with
        | DgRaises msg => raise (OtherError msg)
        | DgError => ret []
        | DgResult utterances => lift (segments_of utterances)
        end)
       (fun _ => ret []))
    (remove_if_exists audio_path).

(** ** Keyframe estimation (video_analyzer.analyze_clip_keyframes) *)

(** What the estimation yields before validation: no frame could be
    sampled; the request, the reply's decoding or a [float(...)] raised;
    the reply holds no brace span; or the reply was read for
    [data.get("keyframes", [])]. *)
Inductive estimation : Type :=
| NoFrames
| EstimateRaises
| EstimateNoMatch
| EstimateKeyframes (raw : list keyframe).

(** [max(a, b)] and [min(a, b)]: the first argument unless the second is
    strictly beyond it. *)
Definition py_max (a b : Q) : Q := if Qltb a b then b else a.
Definition py_min (a b : Q) : Q := if Qltb b a then b else a.

(** The body of the validation loop:
<<
    time = max(0, min(duration, time))
    cropX = max(0.1, min(0.9, cropX))
    valid_keyframes.append({"time": time, "cropX": cropX})
>> *)
Definition clamp_keyframe (duration : Q) (kf : keyframe) : keyframe :=
  let time := py_max 0 (py_min duration (get_time kf)) in
  let cropX := py_max f64_0_1 (py_min f64_0_9 (get_cropX kf)) in
  Keyframe (Some time) (Some cropX).

(** [[{"time": 0, "cropX": 0.5}]] *)
Definition default_keyframes : list keyframe :=
  [Keyframe (Some 0%Q) (Some (1 # 2)%Q)].

Definition analyze_clip_keyframes (duration : Q) (est : estimation)
  : list keyframe :=
  match est with
  | EstimateKeyframes raw =>
      match map (clamp_keyframe duration) raw with
      | [] => default_keyframes
      | valid_keyframes => sorted_by_time valid_keyframes
      end
  | NoFrames | EstimateRaises | EstimateNoMatch => default_keyframes
  end.

(** A keyframe within the ranges of the data model: a time within
    [0, duration] and a position between the doubles [0.1] and [0.9]. *)
Definition in_range (duration : Q) (kf : keyframe) : Prop :=
  (0 <= get_time kf /\ get_time kf <= duration /\
   f64_0_1 <= get_cropX kf /\ get_cropX kf <= f64_0_9)%Q.

(** ** Clip extraction (extract_clips) *)

(** What the collaborators do for one clip. *)
Record clip_env := ClipEnv {
  clip_estimate : estimation;
  clip_transform : transform_result;
  clip_upload : outcome string }.

(** An entry of the list [extracted]. *)
Record extracted_clip := Extracted {
  ex_rank : Z;
  ex_s3_key : string * Z;
  ex_video_url : string;
  ex_keyframes : list keyframe }.

Definition with_keyframes (kfs : list keyframe) (c : clip) : clip :=
  Clip (rank c) (start_time c) (end_time c) (Some kfs) (video_url c)
       (clip_s3_key c).

Definition with_artifact (url : string) (key : string * Z) (c : clip) : clip :=
  Clip (rank c) (start_time c) (end_time c) (clip_keyframes c) (Some url)
       (Some key).

(** An absent value where the code indexes. *)
Definition or_raise {A} (e : exn) (o : option A) : M A :=
  match o with
  | Some a => ret a
  | None => raise e
  end.

(** The loop [for clip in clips_data["clips"]]; the clip at position [i] is
    served by [cenv i].  The clip dicts are the caller's: the assignment
    [clip["keyframes"] = keyframes] is seen through the returned list. *)
Fixpoint extract_loop (cenv : nat -> clip_env) (video_path : path)
    (job_id : string) (orig_width orig_height : Z) (i : nat)
    (clips : list clip) : M (list clip * list extracted_clip) :=
  match clips with
  | [] => ret ([], [])
  | clip :: rest =>
      let start := start_time clip in
      let duration := fsub (end_time clip) start in
      let output_file := ClipOutput (rank clip) in
      let keyframes := analyze_clip_keyframes duration (clip_estimate (cenv i)) in
      crop_expr <- or_raise IndexError
                     (crop_expr_of orig_width orig_height keyframes) ;;
      _ <- run_ffmpeg (clip_transform (cenv i))
             (Transform video_path start duration (target_width orig_height)
                        orig_height crop_expr output_file) ;;
      clip_url <- upload_to_s3 (clip_upload (cenv i)) output_file ;;
      os_remove output_file ;;;
      r <- extract_loop cenv video_path job_id orig_width orig_height (S i) rest ;;
      ret (with_keyframes keyframes clip :: fst r,
           Extracted (rank clip) (job_id, rank clip) clip_url keyframes :: snd r)
  end.

(** [extract_clips]; [clips_data] is [None] when the selection reply has no
    ["clips"] key.  The directory made by [tempfile.mkdtemp] is not a
    file and is not tracked. *)
Definition extract_clips (cenv : nat -> clip_env) (frame_size : Z * Z)
    (video_path : path) (clips_data : option (list clip)) (job_id : string)
  : M (list clip * list extracted_clip) :=
  clips <- or_raise (KeyError "clips") clips_data ;;
  extract_loop cenv video_path job_id (fst frame_size) (snd frame_size) 0 clips.

(** ** The pipeline (process_video) *)

(** What the collaborators do during one run, and the names [tempfile]
    gives to the local files. *)
Record env := Env {
  download : download_outcome;
  audio_created : bool;
  deepgram : deepgram_reply;
  selection : outcome (option (list clip));
  frame_size : Z * Z;
  clip_envs : nat -> clip_env;
  temp_name : path -> string }.

(** The loop that copies the artifacts back by rank. *)
Definition update_clip_urls (clips : list clip) (extracted : list extracted_clip)
  : list clip :=
  map (fun clip =>
         fold_left
           (fun c ext =>
              if (rank c =? ex_rank ext)%Z
              then with_artifact (ex_video_url ext) (ex_s3_key ext) c
              else c)
           extracted clip)
      clips.

Definition flatten_transcript (segments : list segment) : list transcript_line :=
  map (fun seg => TranscriptLine (seg_start seg) (seg_end seg) (strip (seg_text seg)))
      segments.

(** The [try] block from the download on; [temp_video] is set. *)
Definition process_stages (e : env) (job_id s3_key : string) (temp_video : path)
  : M unit :=
  download_from_s3 (download e) temp_video ;;;
  set_status job_id Transcribing ;;;
  set_progress job_id "Transcribing with speaker diarization..." ;;;
  segments <- transcribe_video (audio_created e) (deepgram e) ;;
  set_status job_id Analyzing ;;;
  set_progress job_id "Analyzing transcript for viral clips..." ;;;
  clips <- lift (selection e) ;;
  let full_transcript := flatten_transcript segments in
  set_status job_id Extracting ;;;
  set_progress job_id "Extracting and uploading clips..." ;;;
  r <- extract_clips (clip_envs e) (frame_size e) temp_video clips job_id ;;
  let clips := update_clip_urls (fst r) (snd r) in
  set_status job_id Completed ;;;
  set_progress job_id "Done!" ;;;
  update_job job_id (with_result clips) ;;;
  update_job job_id (with_transcript full_transcript) ;;;
  update_job job_id (with_source_s3_key s3_key).

(** The whole [try] block: its result, the value of the local variable
    [temp_video] when it is left, and the world. *)
Definition process_try (e : env) (job_id s3_key : string)
  : world -> outcome unit * option path * world :=
  fun w =>
    match (set_status job_id Downloading ;;;
           set_progress job_id "Downloading video from S3...") w with
    | (Raises x, w') => (Raises x, None, w')
    | (Returns _, w') =>
        let temp_video := SourceVideo in
        let '(r, w'') := process_stages e job_id s3_key temp_video w' in
        (r, Some temp_video, w'')
    end.

(** [except Exception as e] *)
Definition process_except (name_of : path -> string) (job_id : string) (x : exn)
  : M unit :=
  set_status job_id Failed ;;;
  set_progress job_id ("Error: " ++ exn_message name_of x) ;;;
  update_job job_id (with_error (exn_message name_of x)).

(** [finally: if temp_video and os.path.exists(temp_video): ...] *)
Definition process_finally (temp_video : option path) : M unit :=
  match temp_video with
  | Some p => remove_if_exists p
  | None => ret tt
  end.

Definition process_video (e : env) (job_id s3_key : string) : M unit :=
  fun w =>
    let '(r, temp_video, w1) := process_try e job_id s3_key w in
    let '(r2, w2) :=
      match r with
      | Raises x => process_except (temp_name e) job_id x w1
      | Returns u => (Returns u, w1)
      end in
    match process_finally temp_video w2 with
    | (Returns _, w3) => (r2, w3)
    | (Raises x, w3) => (Raises x, w3)
    end.

(** ** HTTP routes *)

Inductive body : Type :=
| ErrorBody (msg : string)
| JobIdBody (job_id : string)
| VideoUrlBody (url : string).

Record response := Response { code : Z; payload : body }.

(** [POST /analyze]: the job is created as ["queued"] and the run is
    started; [job_id] is the fresh identifier.  The run is a thread of its
    own: whatever it raises does not reach the response. *)
Definition analyze (e : env) (job_id : string) (s3_key : option string)
  : M response :=
  match s3_key with
  | None | Some EmptyString => ret (Response 400 (ErrorBody "No s3_key provided"))
  | Some key =>
      (fun w =>
         (Returns tt,
          World (<[job_id := Job Queued "Queued for processing..." None None key
                               None None]> (jobs w))
                (files w) (history w ++ [(job_id, Queued)]) (transforms w))) ;;;
      try_except (process_video e job_id key) (fun _ => ret tt) ;;;
      ret (Response 200 (JobIdBody job_id))
  end.

(** The body of a [POST /reexport] request. *)
Record reexport_request := ReexportRequest {
  req_job_id : option string;
  req_clip_rank : option Z;
  req_keyframes : option (list keyframe) }.

(** What the collaborators do during one re-export. *)
Record reexport_env := ReexportEnv {
  rx_download : download_outcome;
  rx_frame_size : Z * Z;
  rx_transform : transform_result;
  rx_upload : outcome string }.

(** [data.get("keyframes", [{"time": 0, "cropX": 0.5}])] *)
Definition reexport_keyframes (req : reexport_request) : list keyframe :=
  default default_keyframes (req_keyframes req).

(** The first clip whose rank is the requested one. *)
Definition find_clip (clip_rank : option Z) (clips : list clip) : option clip :=
  match clip_rank with
  | Some r => find (fun c => (rank c =? r)%Z) clips
  | None => None
  end.

(** The assignments to the found clip, which is the job's own dict:
    the first clip of that rank in the job's result changes. *)
Fixpoint update_first (r : Z) (f : clip -> clip) (clips : list clip) : list clip :=
  match clips with
  | [] => []
  | c :: rest =>
      if (rank c =? r)%Z then f c :: rest else c :: update_first r f rest
  end.

(** The [try] block of [reexport_clip]. *)
Definition reexport_try (e : reexport_env) (job_id : string) (clip_rank : Z)
    (clip : clip) (keyframes : list keyframe) (temp_video : path) : M response :=
  let orig_width := fst (rx_frame_size e) in
  let orig_height := snd (rx_frame_size e) in
  let temp_output := ReexportOutput in
  let start := start_time clip in
  let duration := fsub (end_time clip) start in
  crop_expr <- or_raise IndexError (crop_expr_of orig_width orig_height keyframes) ;;
  rc <- run_ffmpeg (rx_transform e)
          (Transform temp_video start duration (target_width orig_height)
                     orig_height crop_expr temp_output) ;;
  if negb (rc =? 0)%Z then ret (Response 500 (ErrorBody "Export failed"))
  else
    clip_url <- upload_to_s3 (rx_upload e) temp_output ;;
    update_job job_id
      (fun j =>
         match result j with
         | Some clips =>
             with_result
               (update_first clip_rank
                  (fun c => with_keyframes keyframes
                              (Clip (rank c) (start_time c) (end_time c)
                                    (clip_keyframes c) (Some clip_url)
                                    (clip_s3_key c)))
                  clips) j
         | None => j
         end) ;;;
    os_remove temp_output ;;;
    ret (Response 200 (VideoUrlBody clip_url)).

(** [POST /reexport] *)
Definition reexport_clip (e : reexport_env) (req : reexport_request) : M response :=
  fun w =>
    let keyframes := reexport_keyframes req in
    match req_job_id req with
    | None => (Returns (Response 404 (ErrorBody "Job not found")), w)
    | Some job_id =>
        match jobs w !! job_id with
        | None => (Returns (Response 404 (ErrorBody "Job not found")), w)
        | Some job =>
            match source_s3_key job, result job with
            | Some EmptyString, _ | None, _ | _, None =>
                (Returns (Response 404 (ErrorBody "Job data not found")), w)
            | Some _, Some clips =>
                match req_clip_rank req, find_clip (req_clip_rank req) clips with
                | Some clip_rank, Some clip =>
                    let temp_video := ReexportSource in
                    (download_from_s3 (rx_download e) temp_video ;;;
                     try_finally
                       (reexport_try e job_id clip_rank clip keyframes temp_video)
                       (remove_if_exists temp_video)) w
                | _, _ =>
                    (Returns (Response 404 (ErrorBody "Clip not found")), w)
                end
            end
        end
    end.

(** ** Observed status sequences *)

(** The values written to the ["status"] of [job_id], oldest first. *)
Definition status_trace (job_id : string) (h : list (string * status))
  : list status :=
  map snd (List.filter (fun p => String.eqb (fst p) job_id) h).

(** The place of a status in
    [queued, downloading, transcribing, analyzing, extracting, completed];
    [failed] comes after all of them. *)
Definition stage_index (st : status) : nat :=
  match st with
  | Queued => 0 | Downloading => 1 | Transcribing => 2 | Analyzing => 3
  | Extracting => 4 | Completed => 5 | Failed => 6
  end.

Definition is_terminal (st : status) : bool :=
  match st with
  | Completed | Failed => true
  | _ => false
  end.

(** Every change of status leaves a non-terminal state for a later one. *)
Fixpoint forward_from (prev : status) (tr : list status) : bool :=
  match tr with
  | [] => true
  | st :: rest =>
      negb (is_terminal prev) && (stage_index prev <? stage_index st)%nat
      && forward_from st rest
  end.

Definition forward (tr : list status) : bool :=
  match tr with
  | [] => true
  | st :: rest => forward_from st rest
  end.

(** The status sequences of a run that was started. *)
Definition pipeline_traces : list (list status) :=
  [ [Queued; Downloading; Failed];
    [Queued; Downloading; Transcribing; Failed];
    [Queued; Downloading; Transcribing; Analyzing; Failed];
    [Queued; Downloading; Transcribing; Analyzing; Extracting; Failed];
    [Queued; Downloading; Transcribing; Analyzing; Extracting; Completed] ].

(** What [process_video] writes: one of the sequences above without its
    first entry, and, when the download succeeds and the audio track is
    there, a sequence that goes through [Analyzing]. *)
Definition run_trace (e : env) (tr : list status) : Prop :=
  In (Queued :: tr) pipeline_traces /\
  (download e = Downloaded -> audio_created e = true ->
   exists rest, tr = Downloading :: Transcribing :: Analyzing :: rest).

(** A computation that leaves the registry and the status log alone. *)
Definition quiet {A} (m : M A) : Prop :=
  forall w r w', m w = (r, w') -> jobs w' = jobs w /\ history w' = history w.

(** What the stages after the first write, by how they end. *)
Definition stages_post (e : env) (r : outcome unit) (tr : list status) : Prop :=
  ((r = Returns tt /\ tr = [Transcribing; Analyzing; Extracting; Completed]) \/
   (exists x, r = Raises x /\
              In tr [ []; [Transcribing]; [Transcribing; Analyzing];
                      [Transcribing; Analyzing; Extracting] ])) /\
  (download e = Downloaded -> audio_created e = true ->
   exists rest, tr = Transcribing :: Analyzing :: rest).

(** A computation that starts no transform. *)
Definition calm {A} (m : M A) : Prop :=
  forall w r w', m w = (r, w') -> transforms w' = transforms w.

(** ** Concrete runs *)

(** A job of one clip, rank 1, from second 10 to second 40, completed by
    an earlier run. *)
Definition done_clip : clip :=
  Clip 1 10 40 (Some default_keyframes) (Some "https://clips/job1/1"%string)
       (Some ("job1"%string, 1)).

Definition done_job : job :=
  Job Completed "Done!" (Some [done_clip]) None "uploads/u/video.mp4"
      (Some []) (Some "uploads/u/video.mp4"%string).

Definition done_world : world := World {[ "job1"%string := done_job ]} [] [] [].

(** A world with no job and no file. *)
Definition empty_world : world := World ∅ [] [] [].

(** A 1920x1080 source; [transform] and [upload] say what the engine and
    the storage do. *)
Definition reexport_env_of (transform : transform_result) (upload : outcome string)
  : reexport_env :=
  ReexportEnv Downloaded (1920, 1080) transform upload.

(** Names as [tempfile] could give them. *)
Definition sample_names (p : path) : string :=
  match p with
  | SourceVideo => "/tmp/tmpk3v9x2ab.mp4"
  | AudioTrack => "/tmp/tmpq7m1c4de.mp3"
  | ClipOutput rank => "/tmp/tmpw5z8r6fg/clip_" ++ pretty rank ++ ".mp4"
  | ReexportSource => "/tmp/tmpb2n6y1hj.mp4"
  | ReexportOutput => "/tmp/tmpd9t4s3kl.mp4"
  end.

(** A run over one selected clip; [reply] is what the transcription
    collaborator does and [upload] what the storage does with the clip. *)
Definition env_of (reply : deepgram_reply) (upload : outcome string) : env :=
  Env Downloaded true reply
      (Returns (Some [Clip 1 10 40 None None None]))
      (1920, 1080)
      (fun _ => ClipEnv (EstimateKeyframes scenario_kfs)
                        (TransformResult true 0) upload)
      sample_names.

(** ** Further notions for the properties beyond the specification *)

(** Times in ascending order, ties allowed: what a sort by time yields. *)
Definition time_le (a b : keyframe) : Prop := (get_time a <= get_time b)%Q.
Definition ordered (l : list keyframe) : Prop := StronglySorted time_le l.

(** ** The rest of video_analyzer.py *)

(** [analyze_clip_for_speaker]: the position of the first keyframe of a
    one-keyframe analysis, with 0.5 for an empty answer. *)
Definition analyze_clip_for_speaker (duration : Q) (est : estimation) : Q :=
  match analyze_clip_keyframes duration est with
  | k :: _ => get_cropX k
  | [] => (1 # 2)%Q
  end.

(** The face-tracking parameters as the reply gives them (any key may be
    absent; the numbers are what [float(...)] and [int(...)] are applied
    to) and as the code returns them. *)
Record raw_params := RawParams {
  raw_scale_factor : option Q;
  raw_min_neighbors : option Q;
  raw_min_size : option Q;
  raw_notes : option string }.

Record cv_params := CvParams {
  scale_factor : Q;
  min_neighbors : Z;
  min_size : Z;
  notes : string }.

(** [get_default_params] *)
Definition get_default_params : cv_params :=
  CvParams f64_1_05 2 30 "Using defaults".

(** [validate_params] *)
Definition validate_params (params : raw_params) : cv_params :=
  let defaults := get_default_params in
  CvParams
    (py_max f64_1_01
       (py_min f64_1_3
          (default (scale_factor defaults) (raw_scale_factor params))))
    (Z.max 1
       (Z.min 6
          (int_of (default (inject_Z (min_neighbors defaults))
                           (raw_min_neighbors params)))))
    (Z.max 20
       (Z.min 80
          (int_of (default (inject_Z (min_size defaults))
                           (raw_min_size params)))))
    (default ""%string (raw_notes params)).

(** What the tuning request yields: no frame could be read; the request or
    the decoding raised; the reply holds no brace span; or the reply was
    decoded into parameters. *)
Inductive tuning : Type :=
| TuneNoFrames
| TuneRaises
| TuneNoMatch
| TuneParams (params : raw_params).

(** [analyze_video_with_llm] *)
Definition analyze_video_with_llm (t : tuning) : cv_params :=
  match t with
  | TuneParams params => validate_params params
  | TuneNoFrames | TuneRaises | TuneNoMatch => get_default_params
  end.

(** Parameters within the ranges the detector accepts. *)
Definition params_in_range (p : cv_params) : Prop :=
  (f64_1_01 <= scale_factor p /\ scale_factor p <= f64_1_3)%Q /\
  1 <= min_neighbors p <= 6 /\
  20 <= min_size p <= 80.

(** [x] is a contiguous part of [s]. *)
Definition part_of (x s : str) : Prop := exists a b, s = a ++ x ++ b.

(** What a run leaves in its job: the record of a completed run, or the
    record of a failed one, given the record [j] it started from. *)
Definition completed_job (j : job) (key : string) (jf : job) : Prop :=
  job_status jf = Completed /\
  progress jf = "Done!"%string /\
  (exists clips,
      result jf = Some clips /\
      Forall (fun c => is_Some (clip_keyframes c) /\ is_Some (video_url c) /\
                       clip_s3_key c <> None) clips) /\
  error jf = error j /\
  transcript jf <> None /\
  source_s3_key jf = Some key /\
  s3_key jf = s3_key j.

Definition failed_job (j : job) (jf : job) : Prop :=
  job_status jf = Failed /\
  (exists name_of x,
      error jf = Some (exn_message name_of x) /\
      progress jf = ("Error: " ++ exn_message name_of x)%string) /\
  result jf = result j /\
  transcript jf = transcript j /\
  source_s3_key jf = source_s3_key j /\
  s3_key jf = s3_key j.

(** Two records that differ in status and progress text only. *)
Definition same_data (j j' : job) : Prop :=
  result j' = result j /\ error j' = error j /\ s3_key j' = s3_key j /\
  transcript j' = transcript j /\ source_s3_key j' = source_s3_key j.

(** The inner loop of the copy-back, for one clip. *)
Definition copy_artifacts (extracted : list extracted_clip) (c0 : clip) : clip :=
  fold_left
    (fun c ext =>
       if (rank c =? ex_rank ext)%Z
       then with_artifact (ex_video_url ext) (ex_s3_key ext) c
       else c)
    extracted c0.

(** ** The read-only routes *)





(** The two assignments of a served re-export, on the clip. *)
Definition reexported (clip_url : string) (keyframes : list keyframe) (c : clip)
  : clip :=
  Clip (rank c) (start_time c) (end_time c) (Some keyframes) (Some clip_url)
       (clip_s3_key c).

(* ================================================================== *)
(** * Properties *)
(* ================================================================== *)

(** ** Comparisons *)

Lemma Qltb_true a b : Qltb a b = true <-> (a < b)%Q.
Proof.
  unfold Qltb. rewrite negb_true_iff, <- not_true_iff_false, Qle_bool_iff.
  split; [apply Qnot_le_lt | apply Qlt_not_le].
Qed.

Lemma Qltb_false a b : Qltb a b = false <-> (b <= a)%Q.
Proof.
  unfold Qltb. rewrite negb_false_iff. apply Qle_bool_iff.
Qed.

(** ** Float arithmetic

    Powers of two. *)

Lemma pow2_pos e : (0 < pow2 e)%Q.
Proof. apply Qpower_0_lt. reflexivity. Qed.

Lemma pow2_add a b : pow2 (a + b) == (pow2 a * pow2 b)%Q.
Proof. apply Qpower_plus. discriminate. Qed.

Lemma pow2_le a b : a <= b -> (pow2 a <= pow2 b)%Q.
Proof. intros Hab. apply Qpower_le_compat_l; [exact Hab | discriminate]. Qed.

Lemma pow2_lt_inv a b : (pow2 a < pow2 b)%Q -> a < b.
Proof. intros Hab. apply (Qpower_lt_compat_l_inv 2); [exact Hab | reflexivity]. Qed.

Lemma pow2_Z n : 0 <= n -> pow2 n == inject_Z (2 ^ n).
Proof. intros Hn. unfold pow2. now rewrite (Zpower_Qpower 2 n Hn). Qed.

Lemma pow2_sub a b : pow2 (a - b) == (pow2 a / pow2 b)%Q.
Proof.
  unfold Z.sub. rewrite pow2_add. unfold pow2. rewrite Qpower_opp. reflexivity.
Qed.

(** Rounding to an integer, ties to even. *)

Lemma rne_floor q : Qfloor q <= rne q <= Qfloor q + 1.
Proof.
  unfold rne. destruct (Qcompare _ _); [destruct (Z.even _)| |]; lia.
Qed.

Lemma rne_comp x y : x == y -> rne x = rne y.
Proof.
  intros Hxy. unfold rne. rewrite (Qfloor_comp x y Hxy).
  assert (Hc : (x - inject_Z (Qfloor y) ?= 1 # 2)%Q = (y - inject_Z (Qfloor y) ?= 1 # 2)%Q).
  { apply Qcompare_comp; [now rewrite Hxy | reflexivity]. }
  now rewrite Hc.
Qed.

Lemma rne_ge (a : Z) q : (inject_Z a <= q)%Q -> a <= rne q.
Proof.
  intros Ha. apply Qfloor_resp_le in Ha. rewrite Qfloor_Z in Ha.
  pose proof (rne_floor q). lia.
Qed.

Lemma rne_le (b : Z) q : (q <= inject_Z b)%Q -> rne q <= b.
Proof.
  intros Hb. pose proof (Qfloor_resp_le _ _ Hb) as Hf. rewrite Qfloor_Z in Hf.
  destruct (Z.eq_dec (Qfloor q) b) as [Heq|Hne].
  - unfold rne. rewrite Heq.
    destruct (Qcompare_spec (q - inject_Z b) (1 # 2)) as [He|Hl|Hg];
      [exfalso; lra | lia | exfalso; lra].
  - pose proof (rne_floor q). lia.
Qed.

Lemma rne_inject n : rne (inject_Z n) = n.
Proof.
  apply Z.le_antisymm; [apply rne_le | apply rne_ge]; apply Qle_refl.
Qed.

Lemma rne_monotone x y : (x <= y)%Q -> rne x <= rne y.
Proof.
  intros Hxy. pose proof (Qfloor_resp_le _ _ Hxy) as Hf.
  destruct (Z.eq_dec (Qfloor x) (Qfloor y)) as [Heq|Hne].
  - unfold rne. rewrite Heq.
    destruct (Qcompare_spec (x - inject_Z (Qfloor y)) (1 # 2)) as [Hx|Hx|Hx];
    destruct (Qcompare_spec (y - inject_Z (Qfloor y)) (1 # 2)) as [Hy|Hy|Hy];
      try (destruct (Z.even (Qfloor y)); lia); try lia; exfalso; lra.
  - pose proof (rne_floor x). pose proof (rne_floor y). lia.
Qed.

(** The binary exponent. *)

Lemma Qmake_pos n d : (0 < n # d)%Q -> 0 < n.
Proof. unfold Qlt. simpl. lia. Qed.

Lemma pow2_sub_make a b :
  0 <= a -> 0 <= b -> pow2 (a - b) == 2 ^ a # Z.to_pos (2 ^ b).
Proof.
  intros Ha Hb. rewrite pow2_sub, (pow2_Z a Ha), (pow2_Z b Hb), Qmake_Qdiv.
  rewrite Z2Pos.id by (apply Z.pow_pos_nonneg; lia). reflexivity.
Qed.

Lemma ilog2_spec q :
  (0 < q)%Q -> (pow2 (ilog2 q) <= q)%Q /\ (q < pow2 (ilog2 q + 1))%Q.
Proof.
  intros Hq. destruct q as [n d]. pose proof (Qmake_pos n d Hq) as Hn.
  unfold ilog2. cbn [Qnum Qden].
  set (a := Z.log2 n). set (b := Z.log2 (Z.pos d)).
  pose proof (Z.log2_spec n Hn) as Ha. fold a in Ha.
  pose proof (Z.log2_spec (Z.pos d) eq_refl) as Hb. fold b in Hb.
  pose proof (Z.log2_nonneg n) as Ha0. fold a in Ha0.
  pose proof (Z.log2_nonneg (Z.pos d)) as Hb0. fold b in Hb0.
  replace (Z.succ a) with (a + 1) in Ha by lia.
  replace (Z.succ b) with (b + 1) in Hb by lia.
  assert (Hpa : 0 < 2 ^ a) by (apply Z.pow_pos_nonneg; lia).
  assert (Hpb : 0 < 2 ^ b) by (apply Z.pow_pos_nonneg; lia).
  assert (Hpa1 : 2 ^ (a + 1) = 2 * 2 ^ a) by (rewrite Z.pow_add_r by lia; lia).
  assert (Hpb1 : 2 ^ (b + 1) = 2 * 2 ^ b) by (rewrite Z.pow_add_r by lia; lia).
  assert (Hlow : (pow2 (a - b - 1) <= n # d)%Q).
  { replace (a - b - 1) with (a - (b + 1)) by lia.
    rewrite pow2_sub_make by lia. unfold Qle. cbn [Qnum Qden].
    rewrite Z2Pos.id by lia. nia. }
  assert (Hup : (n # d < pow2 (a - b + 1))%Q).
  { replace (a - b + 1) with (a + 1 - b) by lia.
    rewrite pow2_sub_make by lia. unfold Qlt. cbn [Qnum Qden].
    rewrite Z2Pos.id by lia. nia. }
  destruct (Qle_bool (pow2 (a - b)) (n # d)) eqn:Htest.
  - apply Qle_bool_iff in Htest. split; [exact Htest | exact Hup].
  - split; [exact Hlow|]. replace (a - b - 1 + 1) with (a - b) by lia.
    apply Qnot_le_lt. intros Hle. apply Qle_bool_iff in Hle. congruence.
Qed.

Lemma ilog2_unique q k :
  (pow2 k <= q)%Q -> (q < pow2 (k + 1))%Q -> ilog2 q = k.
Proof.
  intros Hlo Hhi.
  assert (Hq : (0 < q)%Q) by (eapply Qlt_le_trans; [apply (pow2_pos k) | exact Hlo]).
  destruct (ilog2_spec q Hq) as [Hlo' Hhi'].
  assert (ilog2 q < k + 1).
  { apply pow2_lt_inv. eapply Qle_lt_trans; eassumption. }
  assert (k < ilog2 q + 1).
  { apply pow2_lt_inv. eapply Qle_lt_trans; eassumption. }
  lia.
Qed.

Lemma ilog2_comp x y : (0 < x)%Q -> x == y -> ilog2 x = ilog2 y.
Proof.
  intros Hx Hxy. destruct (ilog2_spec x Hx) as [Hlo Hhi].
  symmetry. apply ilog2_unique; now rewrite <- Hxy.
Qed.

Lemma ilog2_monotone x y : (0 < x)%Q -> (x <= y)%Q -> ilog2 x <= ilog2 y.
Proof.
  intros Hx Hxy.
  assert (Hy : (0 < y)%Q) by (eapply Qlt_le_trans; eassumption).
  destruct (ilog2_spec x Hx) as [Hlo _]. destruct (ilog2_spec y Hy) as [_ Hhi].
  assert (ilog2 x < ilog2 y + 1); [|lia].
  apply pow2_lt_inv. eapply Qle_lt_trans; [exact Hlo|]. eapply Qle_lt_trans; eassumption.
Qed.

(** Rounding to binary64. *)

Lemma round64_pos_unfold q :
  round64_pos q = (inject_Z (rne (q / pow2 (ulp_exp q))) * pow2 (ulp_exp q))%Q.
Proof. reflexivity. Qed.

Lemma round64_pos_nonneg q : (0 < q)%Q -> (0 <= round64_pos q)%Q.
Proof.
  intros Hq. rewrite round64_pos_unfold.
  apply Qmult_le_0_compat; [|apply Qlt_le_weak, pow2_pos].
  change 0%Q with (inject_Z 0). rewrite <- Zle_Qle. apply rne_ge.
  apply Qle_shift_div_l; [apply pow2_pos|]. rewrite Qmult_0_l.
  now apply Qlt_le_weak.
Qed.

Lemma round64_pos_comp x y : (0 < x)%Q -> x == y -> round64_pos x == round64_pos y.
Proof.
  intros Hx Hxy. rewrite !round64_pos_unfold. unfold ulp_exp.
  rewrite (ilog2_comp x y Hx Hxy).
  rewrite (rne_comp (x / _) (y / pow2 (Z.max (-1074) (ilog2 y - 52)))); [reflexivity|].
  now rewrite Hxy.
Qed.

Lemma round64_pos_monotone x y :
  (0 < x)%Q -> (x <= y)%Q -> (round64_pos x <= round64_pos y)%Q.
Proof.
  intros Hx Hxy.
  assert (Hy : (0 < y)%Q) by (eapply Qlt_le_trans; eassumption).
  pose proof (ilog2_monotone x y Hx Hxy) as Hlog.
  rewrite !round64_pos_unfold.
  destruct (Z.eq_dec (ulp_exp x) (ulp_exp y)) as [Heq|Hne].
  - rewrite Heq. apply Qmult_le_compat_r; [|apply Qlt_le_weak, pow2_pos].
    rewrite <- Zle_Qle. apply rne_monotone.
    apply Qmult_le_compat_r; [exact Hxy|].
    apply Qlt_le_weak, Qinv_lt_0_compat, pow2_pos.
  - assert (Hlt : ulp_exp x < ulp_exp y) by (unfold ulp_exp in *; lia).
    assert (Hey : ulp_exp y = ilog2 y - 52) by (unfold ulp_exp in *; lia).
    assert (Hex : ilog2 x - 52 <= ulp_exp x) by (unfold ulp_exp; lia).
    destruct (ilog2_spec x Hx) as [_ Hxhi]. destruct (ilog2_spec y Hy) as [Hylo _].
    apply Qle_trans with (pow2 (ulp_exp y + 52)).
    + apply Qle_trans with (inject_Z (2 ^ 53) * pow2 (ulp_exp x))%Q.
      * apply Qmult_le_compat_r; [|apply Qlt_le_weak, pow2_pos].
        rewrite <- Zle_Qle. apply rne_le.
        apply Qle_shift_div_r; [apply pow2_pos|].
        rewrite <- (pow2_Z 53) by lia. rewrite <- pow2_add.
        apply Qlt_le_weak. eapply Qlt_le_trans; [exact Hxhi|]. apply pow2_le. lia.
      * rewrite <- (pow2_Z 53) by lia. rewrite <- pow2_add. apply pow2_le. lia.
    + apply Qle_trans with (inject_Z (2 ^ 52) * pow2 (ulp_exp y))%Q.
      * rewrite <- (pow2_Z 52) by lia. rewrite <- pow2_add.
        apply pow2_le. lia.
      * apply Qmult_le_compat_r; [|apply Qlt_le_weak, pow2_pos].
        rewrite <- Zle_Qle. apply rne_ge.
        apply Qle_shift_div_l; [apply pow2_pos|].
        rewrite <- (pow2_Z 52) by lia. rewrite <- pow2_add.
        eapply Qle_trans; [|exact Hylo]. apply pow2_le. lia.
Qed.

Lemma round64_eq q :
  round64 q == match Qcompare q 0 with
               | Eq => 0
               | Gt => round64_pos q
               | Lt => - round64_pos (- q)
               end.
Proof. unfold round64. apply Qred_correct. Qed.

Lemma round64_of_pos q : (0 < q)%Q -> round64 q == round64_pos q.
Proof.
  intros Hq. rewrite round64_eq.
  destruct (Qcompare_spec q 0) as [H|H|H]; [exfalso; lra | exfalso; lra | reflexivity].
Qed.

Lemma round64_of_neg q : (q < 0)%Q -> round64 q == - round64_pos (- q).
Proof.
  intros Hq. rewrite round64_eq.
  destruct (Qcompare_spec q 0) as [H|H|H]; [exfalso; lra | reflexivity | exfalso; lra].
Qed.

Lemma round64_of_zero q : q == 0 -> round64 q == 0.
Proof.
  intros Hq. rewrite round64_eq.
  destruct (Qcompare_spec q 0) as [H|H|H]; [reflexivity | exfalso; lra | exfalso; lra].
Qed.

(** Equal rationals have the same rounding, whatever their fractions. *)
Lemma round64_comp x y : x == y -> round64 x = round64 y.
Proof.
  intros Hxy. unfold round64. apply Qred_complete.
  assert (Hc : (x ?= 0)%Q = (y ?= 0)%Q) by (apply Qcompare_comp; [exact Hxy | reflexivity]).
  rewrite <- Hc.
  destruct (Qcompare_spec x 0) as [H|H|H].
  - reflexivity.
  - apply Qopp_comp. apply round64_pos_comp; [lra | now rewrite Hxy].
  - now apply round64_pos_comp.
Qed.

(** Rounding is monotone. *)
Lemma round64_monotone x y : (x <= y)%Q -> (round64 x <= round64 y)%Q.
Proof.
  intros Hxy.
  destruct (Qcompare_spec x 0) as [Hx|Hx|Hx];
  destruct (Qcompare_spec y 0) as [Hy|Hy|Hy]; try (exfalso; lra).
  - rewrite (round64_of_zero x Hx), (round64_of_zero y Hy). apply Qle_refl.
  - rewrite (round64_of_zero x Hx), (round64_of_pos y Hy).
    now apply round64_pos_nonneg.
  - rewrite (round64_of_neg x Hx), (round64_of_zero y Hy).
    assert (0 <= round64_pos (- x))%Q by (apply round64_pos_nonneg; lra). lra.
  - rewrite (round64_of_neg x Hx), (round64_of_neg y Hy).
    assert (round64_pos (- y) <= round64_pos (- x))%Q
      by (apply round64_pos_monotone; lra).
    lra.
  - rewrite (round64_of_neg x Hx), (round64_of_pos y Hy).
    assert (0 <= round64_pos (- x))%Q by (apply round64_pos_nonneg; lra).
    assert (0 <= round64_pos y)%Q by (apply round64_pos_nonneg; lra).
    lra.
  - rewrite (round64_of_pos x Hx), (round64_of_pos y Hy).
    now apply round64_pos_monotone.
Qed.

(** A number with at most 53 significant bits and an exponent that is not
    below the least one is a double: rounding leaves it as it is. *)
Lemma round64_pos_exact n k :
  0 < n < 2 ^ 53 -> -1074 <= k ->
  round64_pos (inject_Z n * pow2 k) == inject_Z n * pow2 k.
Proof.
  intros Hn Hk. set (q := (inject_Z n * pow2 k)%Q).
  assert (Hq : (0 < q)%Q).
  { unfold q. apply Qmult_lt_0_compat; [|apply pow2_pos].
    change 0%Q with (inject_Z 0). rewrite <- Zlt_Qlt. lia. }
  assert (Hhi : (q < pow2 (k + 53))%Q).
  { unfold q. rewrite (Z.add_comm k 53), pow2_add, (pow2_Z 53) by lia.
    apply Qmult_lt_compat_r; [apply pow2_pos|]. rewrite <- Zlt_Qlt. lia. }
  assert (Hlog : ilog2 q < k + 53).
  { apply pow2_lt_inv. destruct (ilog2_spec q Hq) as [Hlo _].
    eapply Qle_lt_trans; eassumption. }
  rewrite round64_pos_unfold. set (e := ulp_exp q).
  assert (He : e <= k) by (unfold e, ulp_exp; lia).
  assert (Hscaled : q / pow2 e == inject_Z (n * 2 ^ (k - e))).
  { unfold q. rewrite inject_Z_mult, <- (pow2_Z (k - e)) by lia.
    rewrite pow2_sub. field. apply Qnot_eq_sym, Qlt_not_eq, pow2_pos. }
  rewrite (rne_comp _ _ Hscaled), rne_inject.
  rewrite inject_Z_mult, <- (pow2_Z (k - e)) by lia.
  rewrite pow2_sub. unfold q. field. apply Qnot_eq_sym, Qlt_not_eq, pow2_pos.
Qed.

Lemma round64_exact n k :
  Z.abs n < 2 ^ 53 -> -1074 <= k ->
  round64 (inject_Z n * pow2 k) == inject_Z n * pow2 k.
Proof.
  intros Hn Hk. destruct (Z.lt_trichotomy n 0) as [Hneg|[->|Hpos]].
  - assert (Hq : (inject_Z n * pow2 k < 0)%Q).
    { rewrite <- (Qmult_0_l (pow2 k)). apply Qmult_lt_compat_r; [apply pow2_pos|].
      change 0%Q with (inject_Z 0). rewrite <- Zlt_Qlt. exact Hneg. }
    rewrite (round64_of_neg _ Hq).
    assert (Heq : - (inject_Z n * pow2 k) == inject_Z (- n) * pow2 k)
      by (rewrite inject_Z_opp; ring).
    assert (Hpos' : (0 < - (inject_Z n * pow2 k))%Q).
    { revert Hq. generalize (inject_Z n * pow2 k)%Q. intros p Hp. lra. }
    rewrite (round64_pos_comp _ _ Hpos' Heq).
    rewrite round64_pos_exact by lia. rewrite inject_Z_opp. ring.
  - assert (Hz : inject_Z 0 * pow2 k == 0) by ring.
    rewrite (round64_of_zero _ Hz). symmetry. exact Hz.
  - assert (Hq : (0 < inject_Z n * pow2 k)%Q).
    { apply Qmult_lt_0_compat; [|apply pow2_pos].
      change 0%Q with (inject_Z 0). rewrite <- Zlt_Qlt. exact Hpos. }
    rewrite (round64_of_pos _ Hq). apply round64_pos_exact; lia.
Qed.

(** Integers up to [2^53] in magnitude are doubles. *)
Lemma round64_int n : Z.abs n <= 2 ^ 53 -> round64 (inject_Z n) == inject_Z n.
Proof.
  intros Hn.
  destruct (Z.eq_dec (Z.abs n) (2 ^ 53)) as [Heq|Hne].
  - assert (Hcases : n = 2 ^ 53 \/ n = - 2 ^ 53) by lia.
    destruct Hcases as [-> | ->]; vm_compute; reflexivity.
  - assert (Hr : inject_Z n == inject_Z n * pow2 0) by (unfold pow2; simpl; ring).
    rewrite (round64_comp _ _ Hr). rewrite round64_exact by lia.
    symmetry. exact Hr.
Qed.

(** ** Sorting *)

Lemma insert_by_time_below k l :
  Forall (time_lt k) l -> insert_by_time k l = k :: l.
Proof.
  destruct l as [|y l']; [reflexivity|].
  intros Hall. apply Forall_cons_1 in Hall as [Hky _]. simpl.
  assert (Qle_bool (get_time k) (get_time y) = true) as ->; [|reflexivity].
  apply Qle_bool_iff, Qlt_le_weak, Hky.
Qed.

(** A list already in strictly ascending order is left as it is. *)
Lemma sorted_by_time_ascending l : ascending l -> sorted_by_time l = l.
Proof.
  induction 1 as [|k l Hl IH Hk]; [reflexivity|].
  simpl. fold (sorted_by_time l). rewrite IH.
  now apply insert_by_time_below.
Qed.

(** ** The loop builds the nested conditional *)

Section SynthesisFacts.
Variables W H : Z.

Lemma nest_drop (l : list keyframe) i k k' :
  l !! i = Some k -> l !! S i = Some k' ->
  nest W H (drop i l) =
  EIf (ELt ET (ENum (get_time k'))) (ENum (inject_Z (pixel W H k)))
      (nest W H (drop (S i) l)).
Proof.
  revert i. induction l as [|a l IH]; intros i Hi HSi; [discriminate|].
  destruct i as [|i].
  - simpl in Hi, HSi. injection Hi as ->.
    destruct l as [|b l]; [discriminate|]. simpl in HSi. injection HSi as ->.
    reflexivity.
  - simpl in Hi. change ((a :: l) !! S (S i)) with (l !! S i) in HSi.
    exact (IH i Hi HSi).
Qed.

Lemma wrap_loop_nest (l : list keyframe) n :
  (n < length l)%nat ->
  wrap_loop W H l n (nest W H (drop n l)) = Some (nest W H l).
Proof.
  induction n as [|i IH]; intros Hn.
  - reflexivity.
  - simpl.
    destruct (lookup_lt_is_Some_2 l (S i) Hn) as [k' Hk'].
    destruct (lookup_lt_is_Some_2 l i ltac:(lia)) as [k Hk].
    rewrite Hk', Hk, <- (nest_drop l i k k' Hk Hk').
    apply IH. lia.
Qed.

Lemma nest_last (l : list keyframe) k :
  list.last l = Some k ->
  nest W H (drop (length l - 1) l) = ENum (inject_Z (pixel W H k)).
Proof.
  induction l as [|a l IH]; [discriminate|].
  destruct l as [|b l].
  - simpl. intros [= ->]. reflexivity.
  - intros Hlast. change (list.last (a :: b :: l)) with (list.last (b :: l)) in Hlast.
    specialize (IH Hlast).
    replace (length (a :: b :: l) - 1)%nat with (S (length (b :: l) - 1)) by (simpl; lia).
    exact IH.
Qed.

(** On a non-empty list both branches of the source produce [nest]. *)
Lemma build_crop_expr_nest (l : list keyframe) :
  l <> [] -> build_crop_expr W H l = Some (nest W H l).
Proof.
  intros Hne. unfold build_crop_expr.
  destruct (decide (length l = 1%nat)) as [Hlen|Hlen].
  - destruct l as [|k [|? ?]]; try discriminate. reflexivity.
  - destruct (list.last l) as [k|] eqn:Hlast.
    + rewrite <- (nest_last l k Hlast). apply wrap_loop_nest.
      destruct l; [congruence | simpl; lia].
    + apply last_None in Hlast. contradiction.
Qed.

(** On the empty list the source fails at [sorted_kf[-1]]. *)
Lemma build_crop_expr_nil : build_crop_expr W H [] = None.
Proof. reflexivity. Qed.

(** ** Evaluation of the nested conditional *)

Lemma eval_if_lt t T p e :
  eval t (EIf (ELt ET (ENum T)) (ENum p) e) =
  if Qltb t T then p else eval t e.
Proof. simpl. destruct (Qltb t T); reflexivity. Qed.

Lemma ascending_head_le k (l : list keyframe) i ki :
  ascending (k :: l) -> (k :: l) !! i = Some ki ->
  (get_time k <= get_time ki)%Q.
Proof.
  intros Hs Hi. destruct i as [|i].
  - injection Hi as ->. apply Qle_refl.
  - apply StronglySorted_inv in Hs as [_ Hall].
    rewrite Forall_forall in Hall. apply Qlt_le_weak, Hall.
    apply list_elem_of_In. eapply list_elem_of_lookup_2. exact Hi.
Qed.

(** Segment [i]: from its own time up to the next keyframe's time. *)
Lemma eval_nest_segment (l : list keyframe) :
  ascending l ->
  forall i k t,
    l !! i = Some k ->
    (get_time k <= t)%Q ->
    (forall k', l !! S i = Some k' -> (t < get_time k')%Q) ->
    eval t (nest W H l) = inject_Z (pixel W H k).
Proof.
  induction l as [|a l IH]; intros Hs i k t Hi Hlo Hhi; [discriminate|].
  destruct l as [|b l].
  - destruct i; [|discriminate]. injection Hi as ->. reflexivity.
  - change (nest W H (a :: b :: l)) with
      (EIf (ELt ET (ENum (get_time b))) (ENum (inject_Z (pixel W H a)))
           (nest W H (b :: l))).
    rewrite eval_if_lt. destruct i as [|i].
    + injection Hi as ->.
      assert (Qltb t (get_time b) = true) as ->; [|reflexivity].
      apply Qltb_true, Hhi. reflexivity.
    + assert (Hs' : ascending (b :: l)) by (apply StronglySorted_inv in Hs; tauto).
      assert (Qltb t (get_time b) = false) as ->.
      { apply Qltb_false. eapply Qle_trans; [|exact Hlo].
        exact (ascending_head_le b l i k Hs' Hi). }
      exact (IH Hs' i k t Hi Hlo Hhi).
Qed.
End SynthesisFacts.

(** C1. For a non-empty keyframe list in strictly ascending time order, the
    crop expression built by the source (sort, then the backward loop over
    the last keyframe's pixel value) exists and evaluates, at every time [t]
    of segment [i] (from [t_i] up to, but not including, [t_(i+1)]; for the
    last keyframe, every [t >= t_(n-1)]), to [pixel(x_i)]; for a single
    keyframe it is [pixel(x_0)] at every [t]. *)
Theorem crop_expr_step_function (W H : Z) (kfs : list keyframe) :
  kfs <> [] -> ascending kfs ->
  exists e,
    crop_expr_of W H kfs = Some e /\
    (forall i k t,
        kfs !! i = Some k ->
        (get_time k <= t)%Q ->
        (forall k', kfs !! S i = Some k' -> (t < get_time k')%Q) ->
        eval t e = inject_Z (pixel W H k)) /\
    (forall k, kfs = [k] -> forall t, eval t e = inject_Z (pixel W H k)).
Proof.
  intros Hne Hasc. exists (nest W H kfs). split; [|split].
  - unfold crop_expr_of. rewrite (sorted_by_time_ascending kfs Hasc).
    now apply build_crop_expr_nest.
  - intros i k t. now apply eval_nest_segment.
  - intros k -> t. reflexivity.
Qed.

Lemma scenario_ascending : ascending scenario_kfs.
Proof.
  unfold ascending, scenario_kfs.
  repeat constructor.
Defined.

Lemma crop_expr_step_function_witness :
  exists e,
    crop_expr_of 1920 1080 scenario_kfs = Some e /\
    eval 3 e = 81%Q /\ eval 7 e = 1233%Q.
Proof.
  destruct (crop_expr_step_function 1920 1080 scenario_kfs)
    as (e & He & Hseg & _).
  - discriminate.
  - exact scenario_ascending.
  - exists e. split; [exact He|]. split.
    + apply (Hseg 0%nat (Keyframe (Some 0%Q) (Some f64_0_2)) 3%Q).
      * reflexivity.
      * discriminate.
      * intros k' [= <-]. reflexivity.
    + apply (Hseg 1%nat (Keyframe (Some 5%Q) (Some f64_0_8)) 7%Q).
      * reflexivity.
      * discriminate.
      * intros k' [=].
Defined.

(** ** Pixel offsets *)

Lemma int_of_nonneg q : (0 <= q)%Q -> int_of q = Qfloor q.
Proof.
  destruct q as [n d]. unfold Qle, int_of, Qfloor. simpl. intros Hn.
  apply Z.quot_div_nonneg; lia.
Qed.

Lemma int_of_neg q : (q <= 0)%Q -> int_of q = Qceiling q.
Proof.
  destruct q as [n d]. unfold Qle, int_of, Qceiling, Qfloor. simpl. intros Hn.
  rewrite Z.mul_1_r in Hn.
  rewrite <- (Z.opp_involutive n) at 1.
  rewrite Z.quot_opp_l by lia.
  rewrite Z.quot_div_nonneg by lia. reflexivity.
Qed.

(** [int] never reverses the order of two numbers. *)
Lemma int_of_monotone a b : (a <= b)%Q -> int_of a <= int_of b.
Proof.
  intros Hab.
  destruct (Qlt_le_dec a 0) as [Ha|Ha]; destruct (Qlt_le_dec b 0) as [Hb|Hb].
  - rewrite !int_of_neg by now apply Qlt_le_weak.
    now apply Qceiling_resp_le.
  - rewrite (int_of_neg a) by now apply Qlt_le_weak.
    rewrite (int_of_nonneg b Hb).
    assert (Qceiling a <= 0).
    { change 0 with (Qceiling 0). apply Qceiling_resp_le. now apply Qlt_le_weak. }
    assert (0 <= Qfloor b).
    { change 0 with (Qfloor 0). now apply Qfloor_resp_le. }
    lia.
  - exfalso. apply (Qlt_irrefl 0).
    eapply Qle_lt_trans; [exact (Qle_trans _ _ _ Ha Hab) | exact Hb].
  - rewrite !int_of_nonneg by assumption. now apply Qfloor_resp_le.
Qed.

Lemma int_of_comp a b : a == b -> int_of a = int_of b.
Proof.
  intros Hab. apply Z.le_antisymm; apply int_of_monotone; rewrite Hab; apply Qle_refl.
Qed.

(** A frame width below [2^53] is a double: the conversion is exact, and
    the product is the exact product rounded once. *)
Lemma fmul_float_of_int x W :
  Z.abs W <= 2 ^ 53 -> fmul x (float_of_int W) = round64 (x * inject_Z W).
Proof.
  intros HW. unfold fmul, float_of_int. apply round64_comp.
  now rewrite (round64_int W HW).
Qed.

(** A division by 16 of an [int] below [2^53] is exact. *)
Lemma int_truediv_16 n :
  Z.abs n < 2 ^ 53 -> int_truediv n 16 == inject_Z n / 16.
Proof.
  intros Hn. unfold int_truediv.
  assert (Hq : inject_Z n / inject_Z 16 == inject_Z n * pow2 (-4)) by reflexivity.
  rewrite (round64_comp _ _ Hq). rewrite round64_exact by lia. reflexivity.
Qed.

Lemma target_width_floor H :
  0 <= H -> 9 * H < 2 ^ 53 -> target_width H = Wc_spec H.
Proof.
  intros HH Hb. unfold target_width, Wc_spec.
  rewrite (int_of_comp _ _ (int_truediv_16 (H * 9) ltac:(lia))).
  rewrite int_of_nonneg.
  - apply Qfloor_comp. rewrite inject_Z_mult. reflexivity.
  - unfold Qle, Qdiv. simpl. lia.
Qed.

(** Truncating the rounded value of a product below [2^53] gives the
    floor of the exact product or the integer above it. *)
Lemma int_of_round64_bounds p :
  (0 <= p)%Q -> (p < inject_Z (2 ^ 53))%Q ->
  Qfloor p <= int_of (round64 p) <= Qfloor p + 1.
Proof.
  intros H0 Hhi.
  assert (Hf0 : 0 <= Qfloor p).
  { change 0 with (Qfloor 0). now apply Qfloor_resp_le. }
  assert (Hf53 : Qfloor p < 2 ^ 53).
  { apply Z.lt_le_trans with (Qfloor p + 1 - 1 + 1); [lia|].
    assert (inject_Z (Qfloor p) < inject_Z (2 ^ 53))%Q
      by (eapply Qle_lt_trans; [apply Qfloor_le | exact Hhi]).
    rewrite <- Zlt_Qlt in H. lia. }
  assert (Hlo : (inject_Z (Qfloor p) <= round64 p)%Q).
  { rewrite <- (round64_int (Qfloor p)) by lia.
    apply round64_monotone, Qfloor_le. }
  assert (Hup : (round64 p <= inject_Z (Qfloor p + 1))%Q).
  { rewrite <- (round64_int (Qfloor p + 1)) by lia.
    apply round64_monotone, Qlt_le_weak, Qlt_floor. }
  assert (Hr0 : (0 <= round64 p)%Q).
  { eapply Qle_trans; [|exact Hlo]. change 0%Q with (inject_Z 0).
    now rewrite <- Zle_Qle. }
  rewrite (int_of_nonneg _ Hr0). split.
  - rewrite <- (Qfloor_Z (Qfloor p)) at 1. now apply Qfloor_resp_le.
  - rewrite <- (Qfloor_Z (Qfloor p + 1)). now apply Qfloor_resp_le.
Qed.

(** The rounding of the product shows on ordinary inputs.  At the double
    [0.3] and width 1920 the exact product lies just below 576 and rounds
    to 576: the offset is 273, one more than with the exact product.  At
    the double [0.7] and width 1440 the product rounds to the double below
    1008: the offset is 704, where the decimal 7/10 would give 705. *)
Lemma cropx_to_pixels_rounded_products :
  cropx_to_pixels 1920 1080 (round64 (3 # 10)) = 273 /\
  Qfloor (round64 (3 # 10) * 1920) = 575 /\
  cropx_to_pixels 1440 1080 (round64 (7 # 10)) = 704 /\
  cropx_to_pixels 1440 1080 (7 # 10) = 705.
Proof. repeat split; vm_compute; reflexivity. Qed.

(** The constants are the roundings of the decimals they are named after. *)
Lemma literal_doubles :
  f64_0_1 = round64 (1 # 10) /\ f64_0_9 = round64 (9 # 10) /\
  f64_0_2 = round64 (1 # 5) /\ f64_0_8 = round64 (4 # 5) /\
  f64_1_01 = round64 (101 # 100) /\ f64_1_05 = round64 (105 # 100) /\
  f64_1_3 = round64 (13 # 10).
Proof. repeat split; vm_compute; reflexivity. Qed.

(** C2 (as stated, refuted). At [x = 3/4], [W = 1921], [H = 1080] the
    product [x * W] is 1440.75; the source yields 1137, while the formula
    with the product rounded to the nearest integer yields 1138 whatever
    the tie-breaking rule. *)
Lemma cropx_to_pixels_not_rounded :
  cropx_to_pixels 1921 1080 (3 # 4) = 1137 /\
  (forall r, nearest r ((3 # 4) * inject_Z 1921) -> pixel_spec 1921 1080 r = 1138).
Proof.
  split; [vm_compute; reflexivity|].
  intros r Hr. unfold nearest in Hr. apply Qabs_Qle_condition in Hr.
  destruct Hr as [Hlo Hhi]. unfold Qle in Hlo, Hhi. simpl in Hlo, Hhi.
  assert (r = 1441) as -> by lia. reflexivity.
Qed.

(** C2 (amended). With [Wc = floor(H * 9 / 16)] and [maxX = W - Wc], the
    offset is [clamp(int(fl(x * W)) - floor(Wc/2), 0, maxX)], where
    [fl(x * W)] is the product as float arithmetic gives it: the exact
    product rounded to the nearest binary64 number.  [int] truncates
    toward zero; the product is never rounded to the nearest integer.  For
    a product in [[0, 2^53)] the truncation is the floor of the exact
    product or the integer above it, and it is the floor whenever the
    exact product is a binary64 number itself.  The frame dimensions are
    [int]s that are doubles, [9 * H < 2^53] and [|W| <= 2^53], and the
    product is finite. *)
Theorem cropx_to_pixels_truncates (W H : Z) (x : Q) :
  0 <= H -> 9 * H < 2 ^ 53 -> Z.abs W <= 2 ^ 53 ->
  finite64 (x * inject_Z W) ->
  target_width H = Wc_spec H /\
  max_x W H = maxX_spec W H /\
  cropx_to_pixels W H x =
    clamp (int_of (round64 (x * inject_Z W)) - Wc_spec H / 2) 0 (maxX_spec W H) /\
  ((0 <= x * inject_Z W)%Q -> (x * inject_Z W < inject_Z (2 ^ 53))%Q ->
   Qfloor (x * inject_Z W) <= int_of (round64 (x * inject_Z W))
   <= Qfloor (x * inject_Z W) + 1) /\
  ((0 <= x * inject_Z W)%Q -> round64 (x * inject_Z W) == x * inject_Z W ->
   cropx_to_pixels W H x =
     clamp (Qfloor (x * inject_Z W) - Wc_spec H / 2) 0 (maxX_spec W H)).
Proof.
  intros HH Hb HW _. pose proof (target_width_floor H HH Hb) as Hw.
  assert (Hm : max_x W H = maxX_spec W H).
  { unfold max_x, maxX_spec. now rewrite Hw. }
  assert (Hc : cropx_to_pixels W H x =
               clamp (int_of (round64 (x * inject_Z W)) - Wc_spec H / 2) 0
                     (maxX_spec W H)).
  { unfold cropx_to_pixels, clamp.
    now rewrite (fmul_float_of_int x W HW), Hm, Hw. }
  split; [exact Hw|]. split; [exact Hm|]. split; [exact Hc|]. split.
  - apply int_of_round64_bounds.
  - intros Hx Hexact. rewrite Hc.
    now rewrite (int_of_comp _ _ Hexact), (int_of_nonneg _ Hx).
Qed.

Lemma cropx_to_pixels_truncates_witness :
  cropx_to_pixels 1921 1080 (3 # 4) = clamp (1440 - 607 / 2) 0 (1921 - 607).
Proof.
  destruct (cropx_to_pixels_truncates 1921 1080 (3 # 4))
    as (_ & _ & _ & _ & Hp).
  - lia.
  - lia.
  - lia.
  - vm_compute. discriminate.
  - rewrite Hp; [reflexivity | discriminate | vm_compute; reflexivity].
Defined.

(** C4. For [W = 1920], [H = 1080]: [Wc = 607], [maxX = 1313],
    [pixel(0.2) = 81], [pixel(0.8) = 1233] (for the decimals and for the
    doubles the literals denote), and the expression synthesized for the
    keyframes [(0, 0.2)], [(5, 0.8)] is 81 at every [t < 5] and 1233 at
    every [t >= 5]. *)
Theorem scenario_1920x1080 :
  target_width 1080 = 607 /\
  max_x 1920 1080 = 1313 /\
  cropx_to_pixels 1920 1080 (1 # 5) = 81 /\
  cropx_to_pixels 1920 1080 (4 # 5) = 1233 /\
  cropx_to_pixels 1920 1080 f64_0_2 = 81 /\
  cropx_to_pixels 1920 1080 f64_0_8 = 1233 /\
  exists e,
    crop_expr_of 1920 1080 scenario_kfs = Some e /\
    (forall t, (t < 5)%Q -> eval t e = 81%Q) /\
    (forall t, (5 <= t)%Q -> eval t e = 1233%Q).
Proof.
  repeat (split; [vm_compute; reflexivity|]).
  eexists. split; [vm_compute; reflexivity|].
  split; intros t Ht; rewrite eval_if_lt.
  - apply Qltb_true in Ht. cbn [eval]. now rewrite Ht.
  - apply Qltb_false in Ht. cbn [eval]. now rewrite Ht.
Qed.

Lemma scenario_1920x1080_witness :
  exists e,
    crop_expr_of 1920 1080 scenario_kfs = Some e /\
    eval (9 # 2) e = 81%Q /\ eval 5 e = 1233%Q.
Proof.
  destruct scenario_1920x1080 as (_ & _ & _ & _ & _ & _ & e & He & Hlt & Hge).
  exists e. split; [exact He|]. split.
  - apply Hlt. reflexivity.
  - apply Hge. discriminate.
Defined.


(** ** Text *)

Lemma lacks_cons c x s : lacks c (x :: s) <-> x <> c /\ lacks c s.
Proof. unfold lacks. simpl. tauto. Qed.

Lemma lacks_app c s1 s2 : lacks c (s1 ++ s2) <-> lacks c s1 /\ lacks c s2.
Proof. unfold lacks. rewrite in_app_iff. tauto. Qed.

Lemma starts_with_cons a p b s :
  starts_with (a :: p) (b :: s) = Ascii.eqb a b && starts_with p s.
Proof. reflexivity. Qed.

Lemma starts_with_app p r : starts_with p (p ++ r) = true.
Proof.
  induction p as [|a p IH]; [reflexivity|].
  simpl. now rewrite Ascii.eqb_refl.
Qed.

Lemma find_sub_unfold sep s :
  find_sub sep s =
  if starts_with sep s then Some ([], drop (length sep) s)
  else match s with
       | [] => None
       | c :: s' =>
           match find_sub sep s' with
           | Some (before, after) => Some (c :: before, after)
           | None => None
           end
       end.
Proof. destruct s; reflexivity. Qed.

Lemma find_sub_here sep r : find_sub sep (sep ++ r) = Some ([], r).
Proof.
  rewrite find_sub_unfold, starts_with_app.
  now rewrite drop_app_length.
Qed.

(** Text without the first character of [sep] is skipped as a whole. *)
Lemma find_sub_skip h sep a r :
  head sep = Some h -> lacks h a ->
  find_sub sep (a ++ r) =
  match find_sub sep r with
  | Some (b, x) => Some (a ++ b, x)
  | None => None
  end.
Proof.
  destruct sep as [|h' sep]; [discriminate|]. intros [= ->].
  induction a as [|c a IH]; intros Ha.
  - simpl app. destruct (find_sub (h :: sep) r) as [[b x]|]; reflexivity.
  - apply lacks_cons in Ha as [Hc Ha].
    change ((c :: a) ++ r) with (c :: (a ++ r)). cbn [find_sub starts_with].
    assert (Ascii.eqb h c = false) as -> by (apply Ascii.eqb_neq; congruence).
    cbn [andb]. rewrite (IH Ha).
    destruct (find_sub (h :: sep) r) as [[b x]|]; reflexivity.
Qed.

Lemma find_sub_lacks h sep a :
  head sep = Some h -> lacks h a -> find_sub sep a = None.
Proof.
  intros Hh Ha. rewrite <- (app_nil_r a), (find_sub_skip h sep a [] Hh Ha).
  destruct sep; [discriminate | reflexivity].
Qed.

Lemma find_sub_found h sep a r :
  head sep = Some h -> lacks h a -> find_sub sep (a ++ sep ++ r) = Some (a, r).
Proof.
  intros Hh Ha. rewrite (find_sub_skip h sep a _ Hh Ha), find_sub_here.
  now rewrite app_nil_r.
Qed.

Lemma split_index_0 sep s :
  index (split sep s) 0 =
  Returns (match find_sub sep s with Some (b, _) => b | None => s end).
Proof.
  unfold split. cbn [split_rounds].
  destruct (find_sub sep s) as [[b a]|]; reflexivity.
Qed.

Lemma split_index_1 sep s b a :
  sep <> [] ->
  find_sub sep s = Some (b, a) ->
  index (split sep s) 1 =
  Returns (match find_sub sep a with Some (b', _) => b' | None => a end).
Proof.
  intros Hsep Hf. unfold split. cbn [split_rounds]. rewrite Hf.
  destruct s as [|c s]; [destruct sep; [congruence | discriminate]|].
  cbn [length split_rounds].
  destruct (find_sub sep a) as [[b' a']|]; reflexivity.
Qed.

Lemma starts_with_fence_json s :
  starts_with fence_json s = true -> starts_with fence s = true.
Proof.
  destruct s as [|c1 [|c2 [|c3 s]]]; cbn; try discriminate;
    rewrite ?andb_false_r; try discriminate.
  intros Hs. repeat (apply andb_prop in Hs as [? Hs]).
  repeat (apply andb_true_intro; split); auto.
Qed.

Lemma contains_fence_json s :
  contains fence s = false -> contains fence_json s = false.
Proof.
  unfold contains. induction s as [|c s IH].
  - reflexivity.
  - cbn [find_sub].
    destruct (starts_with fence (c :: s)) eqn:Hf; [discriminate|].
    destruct (starts_with fence_json (c :: s)) eqn:Hj.
    { apply starts_with_fence_json in Hj. congruence. }
    destruct (find_sub fence s) as [[? ?]|]; [discriminate|].
    intros _. specialize (IH eq_refl).
    destruct (find_sub fence_json s) as [[? ?]|]; [discriminate|reflexivity].
Qed.

Lemma starts_with_true p s :
  starts_with p s = true -> s = p ++ drop (length p) s.
Proof.
  revert s. induction p as [|a p IH]; intros s; [reflexivity|].
  destruct s as [|b s]; [discriminate|]. rewrite starts_with_cons.
  intros Hs. apply andb_prop in Hs as [Hab Hs].
  apply Ascii.eqb_eq in Hab as ->. simpl. f_equal. now apply IH.
Qed.

(** What [find_sub] finds is an occurrence. *)
Lemma find_sub_sound sep s b a :
  find_sub sep s = Some (b, a) -> s = b ++ sep ++ a.
Proof.
  revert b. induction s as [|c s IH]; intros b; rewrite find_sub_unfold.
  - destruct (starts_with sep []) eqn:Hs; [|discriminate].
    intros [= <- <-]. exact (starts_with_true sep [] Hs).
  - destruct (starts_with sep (c :: s)) eqn:Hs.
    + intros [= <- <-]. exact (starts_with_true sep (c :: s) Hs).
    + destruct (find_sub sep s) as [[b' a']|]; [|discriminate].
      intros [= <- <-]. simpl. f_equal. now apply IH.
Qed.

Lemma starts_with_app_l p u t :
  starts_with p u = true -> starts_with p (u ++ t) = true.
Proof.
  revert u. induction p as [|a p IH]; intros u; [reflexivity|].
  destruct u as [|b u]; [discriminate|]. simpl app. rewrite !starts_with_cons.
  intros Hs. apply andb_prop in Hs as [Hab Hs]. rewrite Hab. cbn [andb].
  now apply IH.
Qed.

(** Whether [p] starts a text depends on the first [length p] characters
    only. *)
Lemma starts_with_app_inv p u t :
  (length p <= length u)%nat -> starts_with p (u ++ t) = starts_with p u.
Proof.
  revert u. induction p as [|a p IH]; intros u Hlen; [reflexivity|].
  destruct u as [|b u]; [simpl in Hlen; lia|]. simpl app. rewrite !starts_with_cons.
  f_equal. apply IH. simpl in Hlen. lia.
Qed.

(** A text that starts with [q] starts with every prefix of [q]. *)
Lemma starts_with_weaken p q u :
  starts_with p q = true -> starts_with q u = true -> starts_with p u = true.
Proof.
  revert q u. induction p as [|a p IH]; intros q u Hpq Hqu; [reflexivity|].
  destruct q as [|b q]; [discriminate|]. destruct u as [|c u]; [discriminate|].
  rewrite starts_with_cons in *.
  apply andb_prop in Hpq as [Hab Hpq]. apply andb_prop in Hqu as [Hbc Hqu].
  apply Ascii.eqb_eq in Hab as ->. rewrite Hbc. cbn [andb]. now apply (IH q).
Qed.

Lemma starts_with_nil sep : sep <> [] -> starts_with sep [] = false.
Proof. destruct sep; [congruence | reflexivity]. Qed.

(** The text before the leftmost occurrence holds no occurrence. *)
Lemma find_sub_before sep u b a :
  sep <> [] -> find_sub sep u = Some (b, a) -> find_sub sep b = None.
Proof.
  intros Hsep. revert b. induction u as [|c u IH]; intros b; rewrite find_sub_unfold.
  - rewrite (starts_with_nil sep Hsep). discriminate.
  - destruct (starts_with sep (c :: u)) eqn:Hs.
    + intros [= <- <-]. rewrite find_sub_unfold. now rewrite (starts_with_nil sep Hsep).
    + destruct (find_sub sep u) as [[b' a']|] eqn:Hf; [|discriminate].
      intros [= <- <-]. rewrite find_sub_unfold.
      destruct (starts_with sep (c :: b')) eqn:Hb.
      * apply (starts_with_app_l _ _ (sep ++ a')) in Hb. simpl app in Hb.
        rewrite <- (find_sub_sound sep u b' a' Hf) in Hb. congruence.
      * now rewrite (IH b' eq_refl).
Qed.

(** The leftmost occurrence does not depend on what follows it. *)
Lemma find_sub_tail sep b a a' :
  find_sub sep (b ++ sep ++ a) = Some (b, a) ->
  find_sub sep (b ++ sep ++ a') = Some (b, a').
Proof.
  induction b as [|c b IH]; [intros _; exact (find_sub_here sep a')|].
  simpl app. rewrite !(find_sub_unfold sep (c :: _)).
  assert (Hsame : forall t, starts_with sep (c :: b ++ sep ++ t)
                            = starts_with sep (c :: b ++ sep)).
  { intros t. change (c :: b ++ sep ++ t) with ((c :: b) ++ sep ++ t).
    rewrite app_assoc. apply starts_with_app_inv.
    simpl. rewrite length_app. lia. }
  rewrite !Hsame. destruct (starts_with sep (c :: b ++ sep)); [discriminate|].
  destruct (find_sub sep (b ++ sep ++ a)) as [[b1 a1]|] eqn:Hf; [|discriminate].
  intros [= -> ->]. now rewrite (IH eq_refl).
Qed.

(** The leftmost occurrence of a longer marker, found from the leftmost
    occurrence of a marker it starts with. *)
Lemma find_sub_refine sep sep2 u b a :
  starts_with sep sep2 = true ->
  find_sub sep u = Some (b, a) ->
  find_sub sep2 u =
  match find_sub sep2 (sep ++ a) with
  | Some (b2, x) => Some (b ++ b2, x)
  | None => None
  end.
Proof.
  intros Hpre. revert b. induction u as [|c u IH]; intros b;
    rewrite (find_sub_unfold sep).
  - destruct (starts_with sep []) eqn:Hs; [|discriminate].
    intros [= <- <-]. rewrite <- (starts_with_true sep [] Hs).
    destruct (find_sub sep2 []) as [[b2 x]|]; reflexivity.
  - destruct (starts_with sep (c :: u)) eqn:Hs.
    + intros [= <- <-]. rewrite <- (starts_with_true sep (c :: u) Hs).
      destruct (find_sub sep2 (c :: u)) as [[b2 x]|]; reflexivity.
    + destruct (find_sub sep u) as [[b' a']|] eqn:Hf; [|discriminate].
      intros [= <- <-]. rewrite (find_sub_unfold sep2).
      destruct (starts_with sep2 (c :: u)) eqn:Hs2.
      { rewrite (starts_with_weaken sep sep2 (c :: u) Hpre Hs2) in Hs. discriminate. }
      rewrite (IH b' eq_refl).
      destruct (find_sub sep2 (sep ++ a')) as [[b2 x]|]; reflexivity.
Qed.

Lemma before_first_none sep u : find_sub sep u = None -> before_first sep u = u.
Proof. unfold before_first. now intros ->. Qed.

Lemma before_first_idem sep u :
  sep <> [] -> before_first sep (before_first sep u) = before_first sep u.
Proof.
  intros Hsep. unfold before_first at 2 3.
  destruct (find_sub sep u) as [[b a]|] eqn:Hf.
  - apply before_first_none. exact (find_sub_before sep u b a Hsep Hf).
  - now apply before_first_none.
Qed.

(** ** Fence removal *)

(** What [split(...)[1].split(...)[0]] yields is the candidate. *)
Lemma strip_fence_candidate content :
  strip_fence content = Returns (candidate content).
Proof.
  unfold strip_fence, candidate, contains, after_first.
  destruct (find_sub fence_json content) as [[b a]|] eqn:Hj.
  - rewrite (split_index_1 fence_json content b a ltac:(discriminate) Hj).
    now rewrite split_index_0.
  - destruct (find_sub fence content) as [[b a]|] eqn:Hf; [|reflexivity].
    rewrite (split_index_1 fence content b a ltac:(discriminate) Hf).
    rewrite split_index_0. f_equal.
    exact (before_first_idem fence a ltac:(discriminate)).
Qed.

Lemma candidate_unfenced content :
  contains fence content = false -> candidate content = content.
Proof.
  intros Hf. unfold candidate.
  now rewrite (contains_fence_json content Hf), Hf.
Qed.

(** After a closing fence the next json fence is right at the closing
    fence or beyond it, unless it starts on the second or third backtick
    of the closing fence. *)
Lemma find_fence_json_after_fence post b x :
  starts_with (backtick :: py "json") post = false ->
  starts_with (backtick :: backtick :: py "json") post = false ->
  find_sub fence_json (fence ++ post) = Some (b, x) ->
  b = [] \/ exists b', b = fence ++ b'.
Proof.
  intros Hp1 Hp2. rewrite find_sub_unfold.
  destruct (starts_with fence_json (fence ++ post)); [intros [= <- _]; now left|].
  change (fence ++ post) with (backtick :: backtick :: backtick :: post).
  cbv iota. rewrite (find_sub_unfold _ (backtick :: backtick :: post)).
  assert (starts_with fence_json (backtick :: backtick :: post) = false) as ->.
  { change fence_json with (backtick :: backtick :: backtick :: py "json").
    rewrite !starts_with_cons, Ascii.eqb_refl. cbn [andb]. exact Hp1. }
  cbv iota. rewrite (find_sub_unfold _ (backtick :: post)).
  assert (starts_with fence_json (backtick :: post) = false) as ->.
  { change fence_json with (backtick :: backtick :: backtick :: py "json").
    rewrite starts_with_cons, Ascii.eqb_refl. cbn [andb]. exact Hp2. }
  cbv iota. destruct (find_sub fence_json post) as [[b3 x3]|]; [|discriminate].
  intros [= <- _]. right. now exists b3.
Qed.

(** The first block opened by the json fence, when it is closed. *)
Lemma candidate_json_block content pre rest body post :
  find_sub fence_json content = Some (pre, rest) ->
  find_sub fence rest = Some (body, post) ->
  starts_with (backtick :: py "json") post = false ->
  starts_with (backtick :: backtick :: py "json") post = false ->
  candidate content = body.
Proof.
  intros Hj Hf Hp1 Hp2. unfold candidate, contains, after_first. rewrite Hj.
  pose proof (find_sub_before fence rest body post ltac:(discriminate) Hf) as Hbody.
  pose proof (find_sub_sound fence rest body post Hf) as Hrest.
  unfold before_first at 2.
  rewrite (find_sub_refine fence fence_json rest body post eq_refl Hf).
  destruct (find_sub fence_json (fence ++ post)) as [[b2 x]|] eqn:Hnext.
  - destruct (find_fence_json_after_fence post b2 x Hp1 Hp2 Hnext) as [->|[b' ->]].
    + rewrite app_nil_r. now apply before_first_none.
    + unfold before_first.
      assert (Hcut : find_sub fence (body ++ fence ++ b') = Some (body, b')).
      { apply (find_sub_tail fence body post b'). now rewrite <- Hrest. }
      now rewrite Hcut.
  - unfold before_first. now rewrite Hf.
Qed.

(** The first block opened by a bare fence, in a text without json fence. *)
Lemma candidate_plain_block content pre rest body post :
  contains fence_json content = false ->
  find_sub fence content = Some (pre, rest) ->
  find_sub fence rest = Some (body, post) ->
  candidate content = body.
Proof.
  intros Hj Hf Hb. unfold candidate, contains, after_first, before_first in *.
  rewrite Hj, Hf. now rewrite Hb.
Qed.

(** ** The brace span *)

Lemma upto_last_close_lacks s : lacks "}" s -> upto_last_close s = None.
Proof.
  induction s as [|c s IH]; [reflexivity|].
  intros Hs. apply lacks_cons in Hs as [Hc Hs]. simpl. rewrite (IH Hs).
  now apply Ascii.eqb_neq in Hc as ->.
Qed.

Lemma upto_last_close_app mid p2 :
  lacks "}" p2 -> upto_last_close (mid ++ "}"%char :: p2) = Some (mid ++ ["}"%char]).
Proof.
  intros Hp. induction mid as [|c mid IH]; simpl.
  - now rewrite (upto_last_close_lacks p2 Hp).
  - now rewrite IH.
Qed.

(** The span runs from the first opening brace to the last closing one. *)
Lemma search_braces_span p1 mid p2 :
  lacks "{" p1 -> lacks "}" p2 ->
  search_braces (p1 ++ ("{"%char :: mid ++ ["}"%char]) ++ p2) =
  Some ("{"%char :: mid ++ ["}"%char]).
Proof.
  intros H1 H2. induction p1 as [|c p1 IH].
  - simpl. rewrite <- app_assoc. simpl app.
    now rewrite (upto_last_close_app mid p2 H2).
  - apply lacks_cons in H1 as [Hc H1]. simpl.
    apply Ascii.eqb_neq in Hc as ->. exact (IH H1).
Qed.

(** ** Trailing commas *)

Lemma remove_trailing_commas_length s :
  (length (remove_trailing_commas s) <= length s)%nat.
Proof.
  induction s as [|c s IH]; simpl; [lia|].
  destruct (Ascii.eqb c "," && closes_after_spaces s); simpl; lia.
Qed.

Lemma is_closer_not_space c : is_closer c = true -> is_space c = false.
Proof.
  unfold is_closer. intros Hc. apply orb_prop in Hc as [Hc|Hc];
    apply Ascii.eqb_eq in Hc as ->; reflexivity.
Qed.

Lemma closes_after_spaces_spaces ws c b :
  Forall (fun x => is_space x = true) ws -> is_closer c = true ->
  closes_after_spaces (ws ++ c :: b) = true.
Proof.
  intros Hws Hc. unfold closes_after_spaces.
  induction Hws as [|x ws Hx _ IH]; simpl.
  - rewrite (is_closer_not_space c Hc). exact Hc.
  - now rewrite Hx.
Qed.

Lemma closes_after_spaces_comma a r :
  closes_after_spaces (a ++ ","%char :: r) = true ->
  closes_after_spaces (a ++ r) = true.
Proof.
  unfold closes_after_spaces. induction a as [|y a IH]; simpl.
  - discriminate.
  - destruct (is_space y); [exact IH | tauto].
Qed.

(** Dropping the one trailing comma of a text that has no other. *)
Lemma remove_trailing_commas_one a r :
  closes_after_spaces r = true ->
  remove_trailing_commas (a ++ r) = a ++ r ->
  remove_trailing_commas (a ++ ","%char :: r) = a ++ r.
Proof.
  intros Hr. induction a as [|x a IH]; intros Hfix.
  - simpl. rewrite Hr. exact Hfix.
  - simpl in Hfix |- *.
    destruct (Ascii.eqb x "," && closes_after_spaces (a ++ r)) eqn:Hx.
    + pose proof (remove_trailing_commas_length (a ++ r)) as Hlen.
      rewrite Hfix in Hlen. simpl in Hlen. lia.
    + injection Hfix as Hfix.
      destruct (Ascii.eqb x "," && closes_after_spaces (a ++ ","%char :: r)) eqn:Hx'.
      * apply andb_prop in Hx' as [Hc Hcl].
        apply closes_after_spaces_comma in Hcl. rewrite Hc, Hcl in Hx.
        discriminate.
      * now rewrite (IH Hfix).
Qed.

(** ** The lenient parser *)

Section LenientParserFacts.
Variable J : Type.
Variable loads : str -> loaded J.

Lemma parse_json_safely_candidate content :
  parse_json_safely J loads content
  = parse_stripped J loads (strip (candidate content)).
Proof. unfold parse_json_safely. now rewrite strip_fence_candidate. Qed.

(** The [try] blocks make the attempts in order. *)
Lemma parse_stripped_attempts t :
  parse_stripped J loads t = first_parse J loads (attempts t).
Proof.
  unfold parse_stripped, try_loads, attempts. cbn [first_parse].
  destruct (loads t); try reflexivity.
  destruct (search_braces t) as [span|]; [|reflexivity]. cbn [first_parse].
  destruct (loads span); reflexivity.
Qed.

(** C6 (amended).  [parse_json_safely] works on the candidate text and
    makes up to three attempts on it, in order: the trimmed candidate;
    its span from the first opening brace to the last closing brace; that
    span without its trailing commas.  The first attempt that parses gives
    the result, a JSONDecodeError leads to the next attempt, any other
    exception of [json.loads] leaves the function, and when nothing is
    left the parse error is raised.  The candidate is the whole text when
    there is no fence; the content of the first json block when that
    block is closed and the next json fence does not start on the second
    or third backtick of the closing fence; the content of the first bare
    block in a text with no json fence.  Hence
    (a), (b) the value of the trimmed candidate is returned when it is
        JSON: clean JSON without fence, JSON in the first fenced block;
    (c) the value of a JSON object with prose around it is returned when
        the candidate has no opening brace before it and no closing brace
        after it, and is not JSON as a whole;
    (d) when that span is not JSON, the value of the span without its
        trailing commas is returned; a span with one trailing comma and
        no other loses exactly that comma;
    (e) JSONDecodeError is raised when the trimmed candidate is not JSON
        and has no span, or the span fails both times;
    (f) an exception that is not a JSONDecodeError is passed on from the
        attempt that raised it. *)
Theorem parse_json_safely_shapes :
  (forall content,
      parse_json_safely J loads content = lenient_spec J loads content) /\
  (forall content,
      contains fence content = false -> candidate content = content) /\
  (forall content pre rest body post,
      find_sub fence_json content = Some (pre, rest) ->
      find_sub fence rest = Some (body, post) ->
      starts_with (backtick :: py "json") post = false ->
      starts_with (backtick :: backtick :: py "json") post = false ->
      candidate content = body) /\
  (forall content pre rest body post,
      contains fence_json content = false ->
      find_sub fence content = Some (pre, rest) ->
      find_sub fence rest = Some (body, post) ->
      candidate content = body) /\
  (forall content v,
      loads (strip (candidate content)) = Loaded v ->
      parse_json_safely J loads content = Returns v) /\
  (forall content p1 mid p2 v,
      let span := "{"%char :: mid ++ ["}"%char] in
      strip (candidate content) = p1 ++ span ++ p2 ->
      lacks "{" p1 -> lacks "}" p2 ->
      loads (p1 ++ span ++ p2) = DecodeError ->
      loads span = Loaded v ->
      parse_json_safely J loads content = Returns v) /\
  (forall content p1 mid p2 v,
      let span := "{"%char :: mid ++ ["}"%char] in
      strip (candidate content) = p1 ++ span ++ p2 ->
      lacks "{" p1 -> lacks "}" p2 ->
      loads (p1 ++ span ++ p2) = DecodeError ->
      loads span = DecodeError ->
      loads (remove_trailing_commas span) = Loaded v ->
      parse_json_safely J loads content = Returns v) /\
  (forall a ws c b,
      Forall (fun x => is_space x = true) ws -> is_closer c = true ->
      remove_trailing_commas (a ++ ws ++ c :: b) = a ++ ws ++ c :: b ->
      remove_trailing_commas (a ++ ","%char :: ws ++ c :: b) = a ++ ws ++ c :: b) /\
  (forall content,
      loads (strip (candidate content)) = DecodeError ->
      search_braces (strip (candidate content)) = None \/
      (exists span,
          search_braces (strip (candidate content)) = Some span /\
          loads span = DecodeError /\
          loads (remove_trailing_commas span) = DecodeError) ->
      parse_json_safely J loads content
      = Raises (JSONDecodeError "Could not parse JSON")) /\
  (forall content e,
      loads (strip (candidate content)) = Refused e ->
      parse_json_safely J loads content = Raises e) /\
  (forall content span e,
      loads (strip (candidate content)) = DecodeError ->
      search_braces (strip (candidate content)) = Some span ->
      loads span = Refused e \/
      (loads span = DecodeError /\
       loads (remove_trailing_commas span) = Refused e) ->
      parse_json_safely J loads content = Raises e).
Proof.
  assert (Hspan : forall content p1 mid p2,
             strip (candidate content)
             = p1 ++ ("{"%char :: mid ++ ["}"%char]) ++ p2 ->
             lacks "{" p1 -> lacks "}" p2 ->
             loads (p1 ++ ("{"%char :: mid ++ ["}"%char]) ++ p2) = DecodeError ->
             parse_json_safely J loads content =
             try_loads J loads ("{"%char :: mid ++ ["}"%char])
               (try_loads J loads
                  (remove_trailing_commas ("{"%char :: mid ++ ["}"%char]))
                  (Raises (JSONDecodeError "Could not parse JSON")))).
  { intros content p1 mid p2 Ht H1 H2 Hdirect.
    rewrite parse_json_safely_candidate, Ht. unfold parse_stripped.
    unfold try_loads at 1. rewrite Hdirect.
    now rewrite (search_braces_span p1 mid p2 H1 H2). }
  repeat apply conj.
  - intros content. rewrite parse_json_safely_candidate.
    apply parse_stripped_attempts.
  - exact candidate_unfenced.
  - exact candidate_json_block.
  - exact candidate_plain_block.
  - intros content v Hv. rewrite parse_json_safely_candidate.
    unfold parse_stripped, try_loads. now rewrite Hv.
  - intros content p1 mid p2 v span Ht H1 H2 Hdirect Hv.
    rewrite (Hspan content p1 mid p2 Ht H1 H2 Hdirect).
    unfold try_loads. fold span. now rewrite Hv.
  - intros content p1 mid p2 v span Ht H1 H2 Hdirect Hbad Hfixed.
    rewrite (Hspan content p1 mid p2 Ht H1 H2 Hdirect).
    unfold try_loads. fold span. now rewrite Hbad, Hfixed.
  - intros a ws c b Hws Hc Hfix.
    exact (remove_trailing_commas_one a (ws ++ c :: b)
             (closes_after_spaces_spaces ws c b Hws Hc) Hfix).
  - intros content Hdirect Hrest. rewrite parse_json_safely_candidate.
    unfold parse_stripped, try_loads. rewrite Hdirect.
    destruct Hrest as [-> | (span & -> & -> & ->)]; reflexivity.
  - intros content e He. rewrite parse_json_safely_candidate.
    unfold parse_stripped, try_loads. now rewrite He.
  - intros content span e Hdirect Hs Hrest. rewrite parse_json_safely_candidate.
    unfold parse_stripped, try_loads. rewrite Hdirect, Hs.
    destruct Hrest as [-> | [-> ->]]; reflexivity.
Qed.
End LenientParserFacts.

(** C6 (as stated, refuted), with [json_loads] for [json.loads].  A clean
    JSON object whose string value holds three backticks is cut at the
    backticks and rejected; a JSON object followed by prose that holds a
    closing brace is rejected too, the span running on to that brace.  A
    text that holds no JSON and is an integer of 4301 digits, or 1200
    opening brackets, does not get the parse error: the [ValueError] and
    the [RecursionError] of [json.loads] pass through. *)
Lemma parse_json_safely_rejects_json :
  json_loads default_depth (py "{'a': '```'}")
  = Loaded (JObj [(py "a", JStr (py "```"))]) /\
  parse_json_safely json (json_loads default_depth) (py "{'a': '```'}")
  = Raises (JSONDecodeError "Could not parse JSON") /\
  json_loads default_depth (py "{'a': 1}") = Loaded (JObj [(py "a", JNum (py "1"))]) /\
  parse_json_safely json (json_loads default_depth) (py "{'a': 1} (see {b})")
  = Raises (JSONDecodeError "Could not parse JSON") /\
  parse_json_safely json (json_loads default_depth) (repeat "1"%char 4301)
  = Raises (too_many_digits 4301) /\
  parse_json_safely json (json_loads default_depth) (repeat "["%char 1200)
  = Raises (too_deep "array").
Proof. repeat split; vm_compute; reflexivity. Qed.

Ltac solve_lacks := unfold lacks; cbv; intuition discriminate.

Lemma parse_json_safely_shapes_witness :
  parse_json_safely json (json_loads default_depth) (py " {'a': 1} ")
  = Returns (JObj [(py "a", JNum (py "1"))]) /\
  candidate (py "Sure: " ++ fence_json ++ py " {'a': 1} " ++ fence ++ py " done")
  = py " {'a': 1} " /\
  candidate (py "Sure: " ++ fence ++ py " [1] " ++ fence ++ py " done") = py " [1] " /\
  parse_json_safely json (json_loads default_depth)
    (py "Sure: " ++ fence_json ++ py " {'a': 1} " ++ fence ++ py " done")
  = Returns (JObj [(py "a", JNum (py "1"))]) /\
  parse_json_safely json (json_loads default_depth)
    (py "Here it is: " ++ ("{"%char :: py "'a': [1, 2]" ++ ["}"%char]) ++ py ". Enjoy!")
  = Returns (JObj [(py "a", JArr [JNum (py "1"); JNum (py "2")])]) /\
  parse_json_safely json (json_loads default_depth)
    ("{"%char :: py "'a': [1, 2], " ++ ["}"%char])
  = Returns (JObj [(py "a", JArr [JNum (py "1"); JNum (py "2")])]) /\
  remove_trailing_commas (py "{'a': [1, 2], }") = py "{'a': [1, 2] }" /\
  parse_json_safely json (json_loads default_depth) (py "no JSON here")
  = Raises (JSONDecodeError "Could not parse JSON") /\
  parse_json_safely json (json_loads default_depth) (repeat "1"%char 4301)
  = Raises (too_many_digits 4301) /\
  parse_json_safely json (json_loads default_depth)
    (py "x {'a': " ++ repeat "["%char 1200 ++ py "}")
  = Raises (too_deep "array").
Proof.
  destruct (parse_json_safely_shapes json (json_loads default_depth))
    as (_ & Hplain & Hjson & Hbare & Hab & Hc & Hd & Hcomma & He & Hf & Hg).
  repeat apply conj.
  - apply Hab. vm_compute. reflexivity.
  - apply (Hjson _ (py "Sure: ") (py " {'a': 1} " ++ fence ++ py " done")
                 (py " {'a': 1} ") (py " done")); vm_compute; reflexivity.
  - apply (Hbare _ (py "Sure: ") (py " [1] " ++ fence ++ py " done")
                 (py " [1] ") (py " done")); vm_compute; reflexivity.
  - apply Hab. vm_compute. reflexivity.
  - apply (Hc _ (py "Here it is: ") (py "'a': [1, 2]") (py ". Enjoy!")).
    + rewrite Hplain by (vm_compute; reflexivity). vm_compute. reflexivity.
    + solve_lacks.
    + solve_lacks.
    + vm_compute. reflexivity.
    + vm_compute. reflexivity.
  - apply (Hd _ [] (py "'a': [1, 2], ") []).
    + rewrite Hplain by (vm_compute; reflexivity). vm_compute. reflexivity.
    + solve_lacks.
    + solve_lacks.
    + vm_compute. reflexivity.
    + vm_compute. reflexivity.
    + vm_compute. reflexivity.
  - apply (Hcomma (py "{'a': [1, 2]") [" "%char] "}"%char []).
    + repeat constructor.
    + reflexivity.
    + vm_compute. reflexivity.
  - apply He; [vm_compute; reflexivity | left; vm_compute; reflexivity].
  - apply Hf. vm_compute. reflexivity.
  - apply (Hg _ ("{"%char :: py "'a': " ++ repeat "["%char 1200 ++ py "}")).
    + vm_compute. reflexivity.
    + vm_compute. reflexivity.
    + left. vm_compute. reflexivity.
Defined.

(** ** Running computations *)

Lemma bind_run {A B} (m : M A) (f : A -> M B) w r w' :
  bind m f w = (r, w') ->
  (exists x, m w = (Raises x, w') /\ r = Raises x) \/
  (exists a w1, m w = (Returns a, w1) /\ f a w1 = (r, w')).
Proof.
  unfold bind. destruct (m w) as [[a|x] w1].
  - intros Hf. right. now exists a, w1.
  - intros [= <- <-]. left. now exists x.
Qed.

Lemma quiet_ret {A} (a : A) : quiet (ret a).
Proof. intros w r w' [= <- <-]. auto. Qed.

Lemma quiet_raise {A} x : quiet (@raise A x).
Proof. intros w r w' [= <- <-]. auto. Qed.

Lemma quiet_lift {A} (o : outcome A) : quiet (lift o).
Proof. intros w r w' [= <- <-]. auto. Qed.

Lemma quiet_bind {A B} (m : M A) (f : A -> M B) :
  quiet m -> (forall a, quiet (f a)) -> quiet (bind m f).
Proof.
  intros Hm Hf w r w' Hrun.
  apply bind_run in Hrun as [(x & Hx & _) | (a & w1 & Ha & Hrun)].
  - exact (Hm _ _ _ Hx).
  - destruct (Hm _ _ _ Ha) as [Hj Hh]. destruct (Hf a _ _ _ Hrun) as [Hj' Hh'].
    split; congruence.
Qed.

Lemma quiet_try_except {A} (m : M A) (h : exn -> M A) :
  quiet m -> (forall x, quiet (h x)) -> quiet (try_except m h).
Proof.
  intros Hm Hh w r w' Hrun. unfold try_except in Hrun.
  destruct (m w) as [[a|x] w1] eqn:Hb.
  - injection Hrun as <- <-. exact (Hm _ _ _ Hb).
  - destruct (Hm _ _ _ Hb) as [Hj Hs]. destruct (Hh x _ _ _ Hrun) as [Hj' Hs'].
    split; congruence.
Qed.

Lemma quiet_try_finally {A} (m : M A) (c : M unit) :
  quiet m -> quiet c -> quiet (try_finally m c).
Proof.
  intros Hm Hc w r w' Hrun. unfold try_finally in Hrun.
  destruct (m w) as [r1 w1] eqn:Hb. destruct (c w1) as [[u|x] w2] eqn:Hcl;
    injection Hrun as <- <-;
    destruct (Hm _ _ _ Hb) as [Hj Hs]; destruct (Hc _ _ _ Hcl) as [Hj' Hs'];
    split; congruence.
Qed.

Lemma quiet_path_exists p : quiet (path_exists p).
Proof. intros w r w' [= <- <-]. auto. Qed.

Lemma quiet_write_file p : quiet (write_file p).
Proof. intros w r w' [= <- <-]. auto. Qed.

Lemma quiet_os_remove p : quiet (os_remove p).
Proof.
  intros w r w'. unfold os_remove.
  destruct (has_file p (files w)); intros [= <- <-]; auto.
Qed.

Lemma quiet_remove_if_exists p : quiet (remove_if_exists p).
Proof.
  apply quiet_bind; [apply quiet_path_exists|].
  intros [|]; [apply quiet_os_remove | apply quiet_ret].
Qed.

Lemma quiet_or_raise {A} x (o : option A) : quiet (or_raise x o).
Proof. destruct o; [apply quiet_ret | apply quiet_raise]. Qed.

Lemma quiet_download d p : quiet (download_from_s3 d p).
Proof.
  destruct d as [|msg [|]]; simpl.
  - apply quiet_write_file.
  - apply quiet_bind; [apply quiet_write_file | intros; apply quiet_raise].
  - apply quiet_bind; [apply quiet_ret | intros; apply quiet_raise].
Qed.

Lemma quiet_upload u p : quiet (upload_to_s3 u p).
Proof.
  apply quiet_bind; [apply quiet_path_exists|].
  intros [|]; [apply quiet_lift | apply quiet_raise].
Qed.

Lemma quiet_run_ffmpeg r call : quiet (run_ffmpeg r call).
Proof. intros w r' w' [= <- <-]. auto. Qed.

Lemma quiet_transcribe a reply : quiet (transcribe_video a reply).
Proof.
  unfold transcribe_video, extract_audio.
  apply quiet_bind.
  { apply quiet_bind; [destruct a; [apply quiet_write_file | apply quiet_ret]|].
    intros; apply quiet_ret. }
  intros p. apply quiet_bind; [apply quiet_path_exists|].
  intros b. apply quiet_bind.
  { destruct b; [apply quiet_ret | apply quiet_raise]. }
  intros _. apply quiet_try_finally; [|apply quiet_remove_if_exists].
  apply quiet_try_except; [|intros; apply quiet_ret].
  destruct reply; [apply quiet_raise | apply quiet_ret | apply quiet_lift].
Qed.

Lemma quiet_extract_loop cenv video id W H clips :
  forall i, quiet (extract_loop cenv video id W H i clips).
Proof.
  induction clips as [|c rest IH]; intros i; simpl.
  - apply quiet_ret.
  - apply quiet_bind; [apply quiet_or_raise|]. intros ce.
    apply quiet_bind; [apply quiet_run_ffmpeg|]. intros _.
    apply quiet_bind; [apply quiet_upload|]. intros url.
    apply quiet_bind; [apply quiet_os_remove|]. intros _.
    apply quiet_bind; [apply IH|]. intros r. apply quiet_ret.
Qed.

Lemma quiet_extract_clips cenv size video clips id :
  quiet (extract_clips cenv size video clips id).
Proof.
  apply quiet_bind; [apply quiet_or_raise|].
  intros cs. apply quiet_extract_loop.
Qed.

(** ** Writes to the registry *)

Lemma set_status_ok id st w :
  is_Some (jobs w !! id) ->
  exists w', set_status id st w = (Returns tt, w') /\
             is_Some (jobs w' !! id) /\
             history w' = history w ++ [(id, st)].
Proof.
  intros [j Hj]. unfold set_status. rewrite Hj. eexists. split; [reflexivity|].
  simpl. rewrite lookup_insert_eq. eauto.
Qed.

Lemma update_job_ok id f w :
  is_Some (jobs w !! id) ->
  exists w', update_job id f w = (Returns tt, w') /\
             is_Some (jobs w' !! id) /\
             history w' = history w.
Proof.
  intros [j Hj]. unfold update_job. rewrite Hj. eexists. split; [reflexivity|].
  simpl. rewrite lookup_insert_eq. eauto.
Qed.

(** Entering a stage: the status and the progress text are written, and
    the rest of the run goes on. *)
Lemma enter_stage {A} id st p (k : M A) w :
  is_Some (jobs w !! id) ->
  exists w2,
    bind (set_status id st) (fun _ => bind (set_progress id p) (fun _ => k)) w
    = k w2 /\
    is_Some (jobs w2 !! id) /\
    history w2 = history w ++ [(id, st)].
Proof.
  intros Hp.
  destruct (set_status_ok id st w Hp) as (w1 & H1 & Hp1 & Hh1).
  destruct (update_job_ok id (with_progress p) w1 Hp1) as (w2 & H2 & Hp2 & Hh2).
  exists w2. unfold bind at 1. rewrite H1. unfold bind at 1.
  unfold set_progress. rewrite H2. split; [reflexivity|].
  split; [exact Hp2 | congruence].
Qed.

Lemma has_file_add p fs : has_file p (add_file p fs) = true.
Proof.
  unfold add_file. destruct (has_file p fs) eqn:Hp; [exact Hp|].
  simpl. destruct p; simpl; rewrite ?Z.eqb_refl; reflexivity.
Qed.

(** With its audio file at hand [transcribe_video] returns: whatever the
    collaborator does is caught; a failed collaborator gives no segment. *)
Lemma transcribe_video_returns reply w :
  exists segments w',
    transcribe_video true reply w = (Returns segments, w') /\
    (deepgram_failed reply -> segments = []).
Proof.
  unfold transcribe_video, extract_audio, try_finally, try_except,
    remove_if_exists, bind, write_file, path_exists, os_remove, ret, raise, lift.
  cbn -[has_file add_file del_file]. rewrite has_file_add.
  destruct reply as [msg| |us]; cbn -[has_file add_file del_file].
  - repeat (rewrite has_file_add; cbn -[has_file add_file del_file]).
    eexists _, _. split; [reflexivity | auto].
  - repeat (rewrite has_file_add; cbn -[has_file add_file del_file]).
    eexists _, _. split; [reflexivity | auto].
  - destruct (segments_of us) as [segs|x]; cbn -[has_file add_file del_file];
      repeat (rewrite has_file_add; cbn -[has_file add_file del_file]);
      eexists _, _; (split; [reflexivity | intros []]).
Qed.

(** ** The status log of a run *)

Ltac enter_stage_in Hrun Hp w2 Hp2 Hh2 :=
  match type of Hrun with
  | bind (set_status ?i ?s) (fun _ => bind (set_progress _ ?p) (fun _ => ?k)) ?w
    = _ =>
      let Heq := fresh "Heq" in
      destruct (enter_stage i s p k w Hp) as (w2 & Heq & Hp2 & Hh2);
      rewrite Heq in Hrun; clear Heq
  end.

Ltac history_eq :=
  repeat match goal with
         | H : history _ = _ |- _ => rewrite H; clear H
         end;
  cbn [map]; rewrite <- ?app_assoc, ?app_nil_r; reflexivity.

Lemma process_stages_history e id key tv w r w' :
  is_Some (jobs w !! id) ->
  process_stages e id key tv w = (r, w') ->
  is_Some (jobs w' !! id) /\
  exists tr, history w' = history w ++ map (pair id) tr /\ stages_post e r tr.
Proof.
  intros Hp Hrun. unfold process_stages in Hrun.
  apply bind_run in Hrun as [(x & Hm & ->) | (u1 & w1 & Hm & Hrun)];
    destruct (quiet_download (download e) tv _ _ _ Hm) as [Hj1 Hh1].
  { split; [now rewrite Hj1|]. exists []. split; [history_eq|]. split.
    - right. exists x. split; [reflexivity | simpl; tauto].
    - intros Hd _. rewrite Hd in Hm. discriminate Hm. }
  assert (Hp1 : is_Some (jobs w1 !! id)) by now rewrite Hj1.
  enter_stage_in Hrun Hp1 w2 Hp2 Hh2.
  apply bind_run in Hrun as [(x & Hm2 & ->) | (segs & w3 & Hm2 & Hrun)];
    destruct (quiet_transcribe (audio_created e) (deepgram e) _ _ _ Hm2)
      as [Hj3 Hh3].
  { split; [now rewrite Hj3|]. exists [Transcribing]. split; [history_eq|]. split.
    - right. exists x. split; [reflexivity | simpl; tauto].
    - intros _ Ha. rewrite Ha in Hm2.
      destruct (transcribe_video_returns (deepgram e) w2) as (s0 & w0' & Ht & _).
      congruence. }
  assert (Hp3 : is_Some (jobs w3 !! id)) by now rewrite Hj3.
  enter_stage_in Hrun Hp3 w4 Hp4 Hh4.
  apply bind_run in Hrun as [(x & Hm5 & ->) | (clips & w5 & Hm5 & Hrun)];
    destruct (quiet_lift (selection e) _ _ _ Hm5) as [Hj5 Hh5].
  { split; [now rewrite Hj5|]. exists [Transcribing; Analyzing].
    split; [history_eq|]. split.
    - right. exists x. split; [reflexivity | simpl; tauto].
    - intros _ _. now exists []. }
  assert (Hp5 : is_Some (jobs w5 !! id)) by now rewrite Hj5.
  enter_stage_in Hrun Hp5 w6 Hp6 Hh6.
  apply bind_run in Hrun as [(x & Hm7 & ->) | (ex & w7 & Hm7 & Hrun)];
    destruct (quiet_extract_clips (clip_envs e) (frame_size e) tv clips id
                _ _ _ Hm7) as [Hj7 Hh7].
  { split; [now rewrite Hj7|]. exists [Transcribing; Analyzing; Extracting].
    split; [history_eq|]. split.
    - right. exists x. split; [reflexivity | simpl; tauto].
    - intros _ _. now exists [Extracting]. }
  assert (Hp7 : is_Some (jobs w7 !! id)) by now rewrite Hj7.
  enter_stage_in Hrun Hp7 w8 Hp8 Hh8.
  destruct (update_job_ok id (with_result (update_clip_urls (fst ex) (snd ex)))
              w8 Hp8) as (w9 & Hu9 & Hp9 & Hh9).
  unfold bind at 1 in Hrun. rewrite Hu9 in Hrun.
  destruct (update_job_ok id (with_transcript (flatten_transcript segs))
              w9 Hp9) as (w10 & Hu10 & Hp10 & Hh10).
  unfold bind at 1 in Hrun. rewrite Hu10 in Hrun.
  destruct (update_job_ok id (with_source_s3_key key) w10 Hp10)
    as (w11 & Hu11 & Hp11 & Hh11).
  rewrite Hu11 in Hrun. injection Hrun as <- <-.
  split; [exact Hp11|].
  exists [Transcribing; Analyzing; Extracting; Completed].
  split; [history_eq|]. split.
  - left. auto.
  - intros _ _. now exists [Extracting; Completed].
Qed.

Lemma process_video_history e id key w r w' :
  is_Some (jobs w !! id) ->
  process_video e id key w = (r, w') ->
  is_Some (jobs w' !! id) /\
  exists tr, history w' = history w ++ map (pair id) tr /\ run_trace e tr.
Proof.
  intros Hp Hrun. unfold process_video, process_try in Hrun.
  destruct (set_status_ok id Downloading w Hp) as (w1 & Hs1 & Hp1 & Hh1).
  destruct (update_job_ok id (with_progress "Downloading video from S3...")
              w1 Hp1) as (w2 & Hs2 & Hp2 & Hh2).
  unfold bind at 1 in Hrun. rewrite Hs1 in Hrun.
  unfold set_progress at 1 in Hrun. rewrite Hs2 in Hrun.
  destruct (process_stages e id key SourceVideo w2) as [r1 w3] eqn:Hst.
  destruct (process_stages_history e id key SourceVideo w2 r1 w3 Hp2 Hst)
    as (Hp3 & tr & Hh3 & [Hend Hmid]).
  destruct r1 as [u|x].
  - destruct (process_finally (Some SourceVideo) w3) as [rf w4] eqn:Hfin.
    destruct (quiet_remove_if_exists SourceVideo _ _ _ Hfin) as [Hj4 Hh4].
    assert (w' = w4) as -> by (destruct rf; now injection Hrun).
    split; [now rewrite Hj4|].
    destruct Hend as [[_ ->] | (x & Hx & _)]; [|discriminate].
    exists [Downloading; Transcribing; Analyzing; Extracting; Completed].
    split; [history_eq|]. split; [simpl; tauto|].
    intros _ _. now exists [Extracting; Completed].
  - unfold process_except in Hrun.
    destruct (enter_stage id Failed ("Error: " ++ exn_message (temp_name e) x)
                (update_job id (with_error (exn_message (temp_name e) x))) w3 Hp3)
      as (w4 & Heq & Hp4 & Hh4).
    rewrite Heq in Hrun. clear Heq.
    destruct (update_job_ok id (with_error (exn_message (temp_name e) x)) w4 Hp4)
      as (w5 & Hu5 & Hp5 & Hh5).
    rewrite Hu5 in Hrun.
    destruct (process_finally (Some SourceVideo) w5) as [rf w6] eqn:Hfin.
    destruct (quiet_remove_if_exists SourceVideo _ _ _ Hfin) as [Hj6 Hh6].
    assert (w' = w6) as -> by (destruct rf; now injection Hrun).
    split; [now rewrite Hj6|].
    destruct Hend as [[Hr _] | (x' & _ & Hin)]; [discriminate|].
    exists (Downloading :: tr ++ [Failed]). split.
    + rewrite Hh6, Hh5, Hh4, Hh3, Hh2, Hh1. cbn [map].
      rewrite map_app, <- !app_assoc. reflexivity.
    + split.
      * simpl in Hin. destruct Hin as [<-|[<-|[<-|[<-|[]]]]]; simpl; tauto.
      * intros Hd Ha. destruct (Hmid Hd Ha) as [rest ->].
        now exists (rest ++ [Failed]).
Qed.

Lemma status_trace_app id h tr :
  status_trace id (h ++ map (pair id) tr) = status_trace id h ++ tr.
Proof.
  unfold status_trace. rewrite List.filter_app, map_app. f_equal.
  induction tr as [|st tr IH]; [reflexivity|].
  cbn [map List.filter fst]. rewrite String.eqb_refl.
  cbn [map snd]. now rewrite IH.
Qed.

Lemma analyze_history e job_id s3_key w :
  exists tr,
    history (snd (analyze e job_id s3_key w)) = history w ++ map (pair job_id) tr /\
    (tr = [] \/ In tr pipeline_traces).
Proof.
  destruct s3_key as [[|c key]|].
  - exists []. split; [simpl; now rewrite app_nil_r | now left].
  - unfold analyze, bind, try_except.
    set (w0 := World _ _ _ _).
    assert (Hp0 : is_Some (jobs w0 !! job_id)).
    { unfold w0. cbn [jobs]. rewrite lookup_insert_eq. eauto. }
    destruct (process_video e job_id (String c key) w0) as [r w1] eqn:Hrun.
    destruct (process_video_history e job_id _ w0 r w1 Hp0 Hrun)
      as (_ & tr & Hh & Hin & _).
    exists (Queued :: tr). split; [|now right].
    destruct r; cbn [snd ret]; rewrite Hh; unfold w0; cbn [history map];
      rewrite <- app_assoc; reflexivity.
  - exists []. split; [simpl; now rewrite app_nil_r | now left].
Qed.

(** C5. Whatever the collaborators do, the values that one run started by
    [POST /analyze] writes to its job's status are all of that job, and
    form one of the sequences of [pipeline_traces] (or nothing, when the
    request is refused): each change leaves a non-terminal state for a
    later one of queued, downloading, transcribing, analyzing, extracting,
    completed, or for failed. *)
Theorem status_sequence_forward (e : env) (job_id : string)
    (s3_key : option string) (w : world) :
  exists tr,
    history (snd (analyze e job_id s3_key w)) = history w ++ map (pair job_id) tr /\
    status_trace job_id (history (snd (analyze e job_id s3_key w)))
    = status_trace job_id (history w) ++ tr /\
    forward tr = true /\
    (tr = [] \/ In tr pipeline_traces).
Proof.
  destruct (analyze_history e job_id s3_key w) as (tr & Hh & Hin).
  exists tr. split; [exact Hh|]. split.
  - rewrite Hh. apply status_trace_app.
  - split; [|exact Hin].
    destruct Hin as [->|Hin]; [reflexivity|]. simpl in Hin.
    destruct Hin as [<-|[<-|[<-|[<-|[<-|[]]]]]]; reflexivity.
Qed.


(** C7. When the run reaches the transcription and the audio track is at
    hand, every failure of the transcription collaborator (an exception
    or an error reply) makes [transcribe_video] return the empty segment
    list, and the job's status goes on from transcribing to analyzing. *)
Theorem transcription_failure_degrades (e : env) (job_id s3_key : string)
    (w : world) :
  download e = Downloaded ->
  audio_created e = true ->
  deepgram_failed (deepgram e) ->
  is_Some (jobs w !! job_id) ->
  (forall w0, exists w1,
      transcribe_video (audio_created e) (deepgram e) w0 = (Returns [], w1)) /\
  (exists rest,
      history (snd (process_video e job_id s3_key w))
      = history w
        ++ map (pair job_id) (Downloading :: Transcribing :: Analyzing :: rest)).
Proof.
  intros Hd Ha Hfail Hp. split.
  - intros w0. rewrite Ha.
    destruct (transcribe_video_returns (deepgram e) w0) as (segs & w1 & Ht & He).
    exists w1. now rewrite Ht, (He Hfail).
  - destruct (process_video e job_id s3_key w) as [r w'] eqn:Hrun.
    destruct (process_video_history e job_id s3_key w r w' Hp Hrun)
      as (_ & tr & Hh & _ & Hmid).
    destruct (Hmid Hd Ha) as [rest ->]. now exists rest.
Qed.

Lemma transcription_failure_degrades_witness :
  (exists w1,
      transcribe_video true (DgRaises "timeout") empty_world = (Returns [], w1)) /\
  (exists rest,
      history (snd (process_video (env_of (DgRaises "timeout") (Returns "url"%string))
                      "job1" "uploads/u/video.mp4" done_world))
      = map (pair "job1"%string)
            (Downloading :: Transcribing :: Analyzing :: rest)).
Proof.
  destruct (transcription_failure_degrades
              (env_of (DgRaises "timeout") (Returns "url"%string))
              "job1" "uploads/u/video.mp4" done_world)
    as [Hempty Hgoes].
  - reflexivity.
  - reflexivity.
  - exact I.
  - exists done_job. reflexivity.
  - split; [exact (Hempty empty_world) | exact Hgoes].
Defined.

(** ** Re-export *)

Lemma calm_ret {A} (a : A) : calm (ret a).
Proof. intros w r w' [= <- <-]. reflexivity. Qed.

Lemma calm_raise {A} x : calm (@raise A x).
Proof. intros w r w' [= <- <-]. reflexivity. Qed.

Lemma calm_lift {A} (o : outcome A) : calm (lift o).
Proof. intros w r w' [= <- <-]. reflexivity. Qed.

Lemma calm_bind {A B} (m : M A) (f : A -> M B) :
  calm m -> (forall a, calm (f a)) -> calm (bind m f).
Proof.
  intros Hm Hf w r w' Hrun.
  apply bind_run in Hrun as [(x & Hx & _) | (a & w1 & Ha & Hrun)].
  - exact (Hm _ _ _ Hx).
  - rewrite (Hf a _ _ _ Hrun). exact (Hm _ _ _ Ha).
Qed.

Lemma calm_write_file p : calm (write_file p).
Proof. intros w r w' [= <- <-]. reflexivity. Qed.

Lemma calm_os_remove p : calm (os_remove p).
Proof.
  intros w r w'. unfold os_remove.
  destruct (has_file p (files w)); intros [= <- <-]; reflexivity.
Qed.

Lemma calm_remove_if_exists p : calm (remove_if_exists p).
Proof.
  apply calm_bind; [intros w r w' [= <- <-]; reflexivity|].
  intros [|]; [apply calm_os_remove | apply calm_ret].
Qed.

Lemma calm_download d p : calm (download_from_s3 d p).
Proof.
  destruct d as [|msg [|]]; simpl.
  - apply calm_write_file.
  - apply calm_bind; [apply calm_write_file | intros; apply calm_raise].
  - apply calm_bind; [apply calm_ret | intros; apply calm_raise].
Qed.

Lemma calm_upload u p : calm (upload_to_s3 u p).
Proof.
  apply calm_bind; [intros w r w' [= <- <-]; reflexivity|].
  intros [|]; [apply calm_lift | apply calm_raise].
Qed.

Lemma calm_update_job id f : calm (update_job id f).
Proof.
  intros w r w'. unfold update_job.
  destruct (jobs w !! id); intros [= <- <-]; reflexivity.
Qed.

Lemma try_finally_run {A} (m : M A) (c : M unit) w r w' :
  try_finally m c w = (r, w') ->
  exists r1 w1 rc, m w = (r1, w1) /\ c w1 = (rc, w') /\
                   (r = r1 \/ exists x, rc = Raises x /\ r = Raises x).
Proof.
  unfold try_finally. destruct (m w) as [r1 w1].
  destruct (c w1) as [[u|x] w2] eqn:Hc; intros [= <- <-].
  - exists r1, w1, (Returns u). auto.
  - exists r1, w1, (Raises x). split; [reflexivity|]. split; [exact Hc|].
    right. now exists x.
Qed.

(** The [try] block of a re-export starts the transform at most once, with
    the expression synthesized from the keyframes; a non-zero exit code
    ends it with the 500 response and the registry as it was. *)
Lemma reexport_try_cases e id rk c kfs tv w r w' :
  reexport_try e id rk c kfs tv w = (r, w') ->
  (transforms w' = transforms w /\ jobs w' = jobs w /\
   crop_expr_of (fst (rx_frame_size e)) (snd (rx_frame_size e)) kfs = None) \/
  (exists ce,
      crop_expr_of (fst (rx_frame_size e)) (snd (rx_frame_size e)) kfs = Some ce /\
      transforms w' =
        transforms w
        ++ [Transform tv (start_time c) (fsub (end_time c) (start_time c))
                      (target_width (snd (rx_frame_size e)))
                      (snd (rx_frame_size e)) ce ReexportOutput] /\
      (returncode (rx_transform e) <> 0 ->
       r = Returns (Response 500 (ErrorBody "Export failed")) /\
       jobs w' = jobs w)).
Proof.
  unfold reexport_try.
  destruct (crop_expr_of _ _ kfs) as [ce|] eqn:Hce; cbn [or_raise].
  - intros Hrun. right. exists ce. split; [reflexivity|].
    unfold bind at 1 in Hrun. cbn [ret] in Hrun.
    unfold bind at 1, run_ffmpeg at 1 in Hrun.
    set (w1 := World _ _ _ _) in Hrun.
    destruct (returncode (rx_transform e) =? 0) eqn:Hrc; cbn [negb] in Hrun.
    + assert (Hcalm : transforms w' = transforms w1).
      { revert Hrun. apply calm_bind; [apply calm_upload|]. intros url.
        apply calm_bind; [apply calm_update_job|]. intros _.
        apply calm_bind; [apply calm_os_remove|]. intros _. apply calm_ret. }
      split; [exact Hcalm|]. intros Hne. apply Z.eqb_eq in Hrc. contradiction.
    + injection Hrun as <- <-. split; [reflexivity|]. intros _. auto.
  - intros [= <- <-]. left. auto.
Qed.

(** A re-export request: either nothing is transformed and the registry
    is as before, or the transform runs once. *)
Lemma reexport_clip_cases e req w r w' :
  reexport_clip e req w = (r, w') ->
  (transforms w' = transforms w /\ jobs w' = jobs w) \/
  (exists ce c,
      crop_expr_of (fst (rx_frame_size e)) (snd (rx_frame_size e))
                   (reexport_keyframes req) = Some ce /\
      transforms w' =
        transforms w
        ++ [Transform ReexportSource (start_time c) (fsub (end_time c) (start_time c))
                      (target_width (snd (rx_frame_size e)))
                      (snd (rx_frame_size e)) ce ReexportOutput] /\
      (returncode (rx_transform e) <> 0 ->
       r = Returns (Response 500 (ErrorBody "Export failed")) /\
       jobs w' = jobs w)).
Proof.
  unfold reexport_clip.
  destruct (req_job_id req) as [id|]; [|intros [= <- <-]; now left].
  destruct (jobs w !! id) as [j|]; [|intros [= <- <-]; now left].
  destruct (source_s3_key j) as [[|ch key]|]; try (intros [= <- <-]; now left).
  destruct (result j) as [clips|]; [|intros [= <- <-]; now left].
  destruct (req_clip_rank req) as [rk|]; [|intros [= <- <-]; now left].
  destruct (find_clip (Some rk) clips) as [c|]; [|intros [= <- <-]; now left].
  intros Hrun.
  apply bind_run in Hrun as [(x & Hm & ->) | (u & w1 & Hm & Hrun)].
  { left. split; [exact (calm_download _ _ _ _ _ Hm)|].
    exact (proj1 (quiet_download _ _ _ _ _ Hm)). }
  pose proof (calm_download _ _ _ _ _ Hm) as Ht1.
  pose proof (proj1 (quiet_download _ _ _ _ _ Hm)) as Hj1.
  apply try_finally_run in Hrun as (r1 & w2 & rc & Hbody & Hfin & Hres).
  pose proof (calm_remove_if_exists _ _ _ _ Hfin) as Ht3.
  pose proof (proj1 (quiet_remove_if_exists _ _ _ _ Hfin)) as Hj3.
  destruct (reexport_try_cases _ _ _ _ _ _ _ _ _ Hbody)
    as [(Ht2 & Hj2 & _) | (ce & Hce & Ht2 & Hfail)].
  - left. split; congruence.
  - right. exists ce, c. split; [exact Hce|]. split; [congruence|].
    intros Hne. destruct (Hfail Hne) as [-> Hj2]. split; [|congruence].
    destruct Hres as [->|(x & -> & _)]; [reflexivity|].
    exfalso. revert Hfin.
    unfold remove_if_exists, bind, path_exists, os_remove, ret.
    destruct (has_file ReexportSource (files w2)) eqn:Hhas; cbn [files];
      rewrite ?Hhas; discriminate.
Qed.

(** C9. A [POST /reexport] body without the keyframes field is served with
    the single default keyframe (time 0, cropX 0.5): the crop expression
    synthesized for it, and carried by every transform the request starts,
    is the constant offset of the centred window. *)
Theorem reexport_default_keyframes (e : reexport_env) (req : reexport_request)
    (w : world) :
  req_keyframes req = None ->
  let W := fst (rx_frame_size e) in
  let H := snd (rx_frame_size e) in
  let centre := inject_Z (cropx_to_pixels W H (1 # 2)) in
  reexport_keyframes req = [Keyframe (Some 0%Q) (Some (1 # 2)%Q)] /\
  crop_expr_of W H (reexport_keyframes req) = Some (ENum centre) /\
  (forall call,
      In call (transforms (snd (reexport_clip e req w))) ->
      In call (transforms w) \/
      (t_crop_x call = ENum centre /\ forall t, eval t (t_crop_x call) = centre)).
Proof.
  intros Hnone W H centre.
  assert (Hk : reexport_keyframes req = [Keyframe (Some 0%Q) (Some (1 # 2)%Q)]).
  { unfold reexport_keyframes. now rewrite Hnone. }
  assert (Hce : crop_expr_of W H (reexport_keyframes req) = Some (ENum centre)).
  { now rewrite Hk. }
  split; [exact Hk|]. split; [exact Hce|].
  intros call Hin.
  destruct (reexport_clip e req w) as [r w'] eqn:Hrun. cbn [snd] in Hin.
  destruct (reexport_clip_cases e req w r w' Hrun)
    as [[Ht _] | (ce & c & Hce' & Ht & _)].
  - left. now rewrite <- Ht.
  - rewrite Ht in Hin. apply in_app_or in Hin as [Hin|[<-|[]]]; [now left|].
    right. cbn [t_crop_x]. fold W H in Hce'. rewrite Hce in Hce'.
    injection Hce' as <-. split; reflexivity.
Qed.

Lemma reexport_default_keyframes_witness :
  transforms
    (snd (reexport_clip (reexport_env_of (TransformResult true 0)
                                         (Returns "https://clips/new"%string))
            (ReexportRequest (Some "job1"%string) (Some 1) None) done_world))
  = [Transform ReexportSource 10 30 607 1080 (ENum 657) ReexportOutput] /\
  eval 12 (ENum (inject_Z (cropx_to_pixels 1920 1080 (1 # 2)))) = 657%Q.
Proof.
  split; [reflexivity|].
  destruct (reexport_default_keyframes
              (reexport_env_of (TransformResult true 0)
                               (Returns "https://clips/new"%string))
              (ReexportRequest (Some "job1"%string) (Some 1) None) done_world
              eq_refl) as (_ & _ & Hcalls).
  destruct (Hcalls (Transform ReexportSource 10 30 607 1080 (ENum 657)
                              ReexportOutput)) as [[]|[_ Heval]].
  - left. reflexivity.
  - exact (Heval 12%Q).
Defined.

(** C10. When a re-export starts the transform engine and the engine exits
    non-zero, the endpoint answers 500 and the job registry is exactly as
    it was before the request: the clip's [video_url] and [keyframes] are
    unchanged. *)
Theorem reexport_transform_failure (e : reexport_env) (req : reexport_request)
    (w : world) :
  transforms (snd (reexport_clip e req w)) <> transforms w ->
  returncode (rx_transform e) <> 0 ->
  fst (reexport_clip e req w) = Returns (Response 500 (ErrorBody "Export failed")) /\
  jobs (snd (reexport_clip e req w)) = jobs w.
Proof.
  intros Hran Hrc.
  destruct (reexport_clip e req w) as [r w'] eqn:Hrun. cbn [fst snd] in *.
  destruct (reexport_clip_cases e req w r w' Hrun)
    as [[Ht _] | (ce & c & _ & _ & Hfail)].
  - contradiction.
  - exact (Hfail Hrc).
Qed.

Lemma reexport_transform_failure_witness :
  fst (reexport_clip (reexport_env_of (TransformResult true 1)
                                      (Returns "https://clips/new"%string))
         (ReexportRequest (Some "job1"%string) (Some 1)
                          (Some [Keyframe (Some 2%Q) (Some f64_0_8)]))
         done_world)
  = Returns (Response 500 (ErrorBody "Export failed")) /\
  jobs (snd (reexport_clip (reexport_env_of (TransformResult true 1)
                                            (Returns "https://clips/new"%string))
               (ReexportRequest (Some "job1"%string) (Some 1)
                                (Some [Keyframe (Some 2%Q) (Some f64_0_8)]))
               done_world)) !! "job1"%string
  = Some done_job.
Proof.
  destruct (reexport_transform_failure
              (reexport_env_of (TransformResult true 1)
                               (Returns "https://clips/new"%string))
              (ReexportRequest (Some "job1"%string) (Some 1)
                               (Some [Keyframe (Some 2%Q) (Some f64_0_8)]))
              done_world) as [Hresp Hjobs].
  - discriminate.
  - discriminate.
  - split; [exact Hresp|]. rewrite Hjobs. reflexivity.
Defined.

(** ** Keyframe validation *)

Lemma py_clamp_bounds lo hi x :
  (lo <= hi)%Q ->
  (lo <= py_max lo (py_min hi x) /\ py_max lo (py_min hi x) <= hi)%Q.
Proof.
  intros Hle. unfold py_max, py_min.
  destruct (Qltb x hi) eqn:Hx.
  - apply Qltb_true in Hx.
    destruct (Qltb lo x) eqn:Hl.
    + apply Qltb_true in Hl. split; apply Qlt_le_weak; assumption.
    + split; [apply Qle_refl | exact Hle].
  - destruct (Qltb lo hi) eqn:Hl.
    + split; [exact Hle | apply Qle_refl].
    + split; [apply Qle_refl | exact Hle].
Qed.

Lemma clamp_keyframe_in_range duration kf :
  (0 <= duration)%Q -> in_range duration (clamp_keyframe duration kf).
Proof.
  intros Hd. unfold in_range, clamp_keyframe, get_time, get_cropX.
  cbn [kf_time kf_cropX default].
  destruct (py_clamp_bounds 0 duration (default 0%Q (kf_time kf)) Hd) as [H1 H2].
  destruct (py_clamp_bounds f64_0_1 f64_0_9 (default (1 # 2)%Q (kf_cropX kf)))
    as [H3 H4]; [discriminate|].
  auto.
Qed.

Lemma insert_by_time_Forall (P : keyframe -> Prop) k l :
  P k -> Forall P l -> Forall P (insert_by_time k l).
Proof.
  intros Hk Hl. induction Hl as [|y l Hy Hl IH]; simpl.
  - now constructor.
  - destruct (Qle_bool (get_time k) (get_time y)); repeat constructor; auto.
Qed.

Lemma sorted_by_time_Forall (P : keyframe -> Prop) l :
  Forall P l -> Forall P (sorted_by_time l).
Proof.
  induction 1 as [|k l Hk Hl IH]; simpl; [constructor|].
  now apply insert_by_time_Forall.
Qed.

(** X9. What the estimation path hands on is within the ranges, for a
    clip of non-negative duration. *)
Lemma analyze_clip_keyframes_in_range duration est :
  (0 <= duration)%Q ->
  Forall (in_range duration) (analyze_clip_keyframes duration est).
Proof.
  intros Hd.
  assert (Hdef : Forall (in_range duration) default_keyframes).
  { repeat constructor; try exact Hd; discriminate. }
  destruct est as [| | |raw]; try exact Hdef.
  unfold analyze_clip_keyframes.
  assert (Hall : Forall (in_range duration) (map (clamp_keyframe duration) raw)).
  { apply Forall_map, Forall_forall. intros kf _.
    now apply clamp_keyframe_in_range. }
  destruct (map (clamp_keyframe duration) raw) as [|k l] eqn:Hm; [exact Hdef|].
  now apply sorted_by_time_Forall.
Qed.

(** C3 (evaluation at the failing input). A re-export request for the clip
    of [done_world] (30 seconds long) with the keyframe (time 100,
    cropX 1.5): it is served, the keyframe reaches the synthesizer and the
    stored clip as it came, and it is outside both ranges. *)
Theorem reexport_keeps_unvalidated_keyframes :
  let kf := Keyframe (Some 100%Q) (Some (3 # 2)%Q) in
  let req := ReexportRequest (Some "job1"%string) (Some 1) (Some [kf]) in
  let out := reexport_clip (reexport_env_of (TransformResult true 0)
                                            (Returns "https://clips/new"%string))
                           req done_world in
  fst out = Returns (Response 200 (VideoUrlBody "https://clips/new")) /\
  reexport_keyframes req = [kf] /\
  transforms (snd out)
  = [Transform ReexportSource 10 30 607 1080 (ENum 1313) ReexportOutput] /\
  jobs (snd out) !! "job1"%string
  = Some (with_result
            [Clip 1 10 40 (Some [kf]) (Some "https://clips/new"%string)
                  (Some ("job1"%string, 1))]
            done_job) /\
  ~ in_range 30 kf.
Proof.
  repeat split.
  unfold in_range. cbn. intros (_ & Ht & _). now apply Ht.
Qed.

(** C8 (evaluation at the failing inputs). Starting without any local
    file: a re-export whose transform writes its output and exits 1, a
    re-export whose upload raises, and a pipeline run whose clip upload
    raises each end with the output file still there. *)
Theorem output_file_left_behind :
  let req := ReexportRequest (Some "job1"%string) (Some 1) None in
  files (snd (reexport_clip
                (reexport_env_of (TransformResult true 1)
                                 (Returns "https://clips/new"%string))
                req done_world))
  = [ReexportOutput] /\
  files (snd (reexport_clip
                (reexport_env_of (TransformResult true 0)
                                 (Raises (OtherError "S3 down")))
                req done_world))
  = [ReexportOutput] /\
  files (snd (analyze (env_of (DgResult []) (Raises (OtherError "S3 down")))
                "job2" (Some "uploads/u/video.mp4"%string) empty_world))
  = [ClipOutput 1] /\
  status_trace "job2"
    (history (snd (analyze (env_of (DgResult []) (Raises (OtherError "S3 down")))
                     "job2" (Some "uploads/u/video.mp4"%string) empty_world)))
  = [Queued; Downloading; Transcribing; Analyzing; Extracting; Failed].
Proof. repeat split. Qed.

(** ** What the [finally] blocks do remove *)

Lemma path_eqb_refl p : path_eqb p p = true.
Proof. destruct p; simpl; rewrite ?Z.eqb_refl; reflexivity. Qed.

Lemma has_file_del p fs : has_file p (del_file p fs) = false.
Proof.
  unfold has_file, del_file. induction fs as [|q fs IH]; [reflexivity|].
  simpl. destruct (path_eqb p q) eqn:Hq; simpl; [exact IH|].
  now rewrite Hq.
Qed.

Lemma remove_if_exists_gone p w r w' :
  remove_if_exists p w = (r, w') -> has_file p (files w') = false.
Proof.
  unfold remove_if_exists, bind, path_exists, os_remove, ret.
  destruct (has_file p (files w)) eqn:Hp; cbn [files]; rewrite ?Hp;
    intros [= <- <-]; [apply has_file_del | exact Hp].
Qed.

(** X27. The source video of a run is gone when the run ends, however it
    ends. *)
Lemma process_video_removes_source e id key w :
  is_Some (jobs w !! id) ->
  has_file SourceVideo (files (snd (process_video e id key w))) = false.
Proof.
  intros Hp. unfold process_video, process_try.
  destruct (set_status_ok id Downloading w Hp) as (w1 & Hs1 & Hp1 & _).
  destruct (update_job_ok id (with_progress "Downloading video from S3...")
              w1 Hp1) as (w2 & Hs2 & _ & _).
  unfold bind at 1. rewrite Hs1. unfold set_progress at 1. rewrite Hs2.
  destruct (process_stages e id key SourceVideo w2) as [r1 w3].
  destruct (match r1 with
            | Returns u => (Returns u, w3)
            | Raises x => process_except (temp_name e) id x w3
            end) as [r2 w4].
  destruct (process_finally (Some SourceVideo) w4) as [rf w5] eqn:Hfin.
  apply remove_if_exists_gone in Hfin. now destruct rf.
Qed.

(** X28. The audio track is gone when [transcribe_video] is left, however
    it is left, provided its name was free. *)
Lemma transcribe_video_removes_audio a reply w :
  has_file AudioTrack (files w) = false ->
  has_file AudioTrack (files (snd (transcribe_video a reply w))) = false.
Proof.
  intros Hfree.
  unfold transcribe_video, extract_audio, bind at 1 2 3.
  destruct a; unfold write_file, ret, path_exists; cbn [files].
  - rewrite has_file_add. unfold bind, try_finally.
    destruct (try_except _ _ _) as [r1 w1].
    destruct (remove_if_exists AudioTrack w1) as [rf w2] eqn:Hfin.
    apply remove_if_exists_gone in Hfin. now destruct rf.
  - rewrite Hfree. exact Hfree.
Qed.

(* ================================================================== *)
(** * Further properties of the code *)
(* ================================================================== *)

(** ** The crop window *)

(** X1. The offset is never negative.  When the frame is at least as wide
    as the crop window, the window lies inside the frame:
    [offset + target_width <= orig_width]; when the frame is narrower
    than the crop window, the offset is 0. *)
Theorem crop_window_inside_frame (W H : Z) (x : Q) :
  0 <= cropx_to_pixels W H x /\
  (target_width H <= W -> cropx_to_pixels W H x + target_width H <= W) /\
  (W < target_width H -> cropx_to_pixels W H x = 0).
Proof.
  unfold cropx_to_pixels, max_x. cbv zeta. repeat split; lia.
Qed.

Lemma crop_window_inside_frame_witness :
  0 <= cropx_to_pixels 400 1080 f64_0_9 /\
  cropx_to_pixels 1920 1080 f64_0_9 + target_width 1080 <= 1920 /\
  cropx_to_pixels 400 1080 f64_0_9 = 0.
Proof.
  split; [|split].
  - apply (crop_window_inside_frame 400 1080 f64_0_9).
  - apply (crop_window_inside_frame 1920 1080 f64_0_9).
    vm_compute. discriminate.
  - apply (crop_window_inside_frame 400 1080 f64_0_9).
    vm_compute. reflexivity.
Defined.

Lemma float_of_int_nonneg W : 0 <= W -> (0 <= float_of_int W)%Q.
Proof.
  intros HW. unfold float_of_int.
  apply Qle_trans with (round64 0); [vm_compute; discriminate|].
  apply round64_monotone. change 0%Q with (inject_Z 0). now rewrite <- Zle_Qle.
Qed.

(** X2. A speaker further to the right never moves the window to the
    left: for a frame of non-negative width the offset is monotone in the
    normalised position.  The rounding of the product and the truncation
    both keep the order. *)
Theorem cropx_to_pixels_monotone (W H : Z) (x y : Q) :
  0 <= W -> (x <= y)%Q ->
  cropx_to_pixels W H x <= cropx_to_pixels W H y.
Proof.
  intros HW Hxy. unfold cropx_to_pixels.
  assert (int_of (fmul x (float_of_int W)) <= int_of (fmul y (float_of_int W))).
  { apply int_of_monotone. unfold fmul. apply round64_monotone.
    apply Qmult_le_compat_r; [exact Hxy|]. now apply float_of_int_nonneg. }
  lia.
Qed.

Lemma cropx_to_pixels_monotone_witness :
  cropx_to_pixels 1920 1080 f64_0_2 <= cropx_to_pixels 1920 1080 f64_0_8.
Proof.
  apply (cropx_to_pixels_monotone 1920 1080 f64_0_2 f64_0_8);
    vm_compute; discriminate.
Defined.

(** ** The sort by time *)

Lemma insert_by_time_perm k l : Permutation (k :: l) (insert_by_time k l).
Proof.
  induction l as [|y l IH]; simpl; [reflexivity|].
  destruct (Qle_bool (get_time k) (get_time y)); [reflexivity|].
  rewrite perm_swap. now constructor.
Qed.

Lemma insert_by_time_ordered k l : ordered l -> ordered (insert_by_time k l).
Proof.
  induction 1 as [|y l Hl IH Hy]; simpl.
  - repeat constructor.
  - destruct (Qle_bool (get_time k) (get_time y)) eqn:Hky.
    + apply Qle_bool_iff in Hky. constructor; [now constructor|].
      constructor; [exact Hky|].
      eapply Forall_impl; [|exact Hy]. intros z Hz. unfold time_le in *.
      eapply Qle_trans; eassumption.
    + assert (Hyk : time_le y k).
      { unfold time_le. apply Qlt_le_weak, Qltb_true. unfold Qltb.
        now rewrite Hky. }
      constructor; [exact IH|].
      rewrite <- (insert_by_time_perm k l). now constructor.
Qed.

Lemma insert_by_time_front k l :
  Forall (time_le k) l -> insert_by_time k l = k :: l.
Proof.
  destruct l as [|y l]; [reflexivity|].
  intros Hall. apply Forall_cons_1 in Hall as [Hky _]. simpl.
  now apply Qle_bool_iff in Hky as ->.
Qed.

Lemma sorted_by_time_perm l : Permutation l (sorted_by_time l).
Proof.
  induction l as [|k l IH]; [reflexivity|].
  simpl. fold (sorted_by_time l).
  rewrite <- insert_by_time_perm. now constructor.
Qed.

Lemma sorted_by_time_ordered l : ordered (sorted_by_time l).
Proof.
  induction l as [|k l IH]; [constructor|].
  simpl. now apply insert_by_time_ordered.
Qed.

(** X3. The sort used before synthesis and after validation returns the
    same keyframes in ascending order of time, and leaves a list that is
    already in ascending order (ties included) exactly as it is. *)
Theorem sorted_by_time_sorts (l : list keyframe) :
  Permutation l (sorted_by_time l) /\
  ordered (sorted_by_time l) /\
  (ordered l -> sorted_by_time l = l).
Proof.
  split; [apply sorted_by_time_perm|]. split; [apply sorted_by_time_ordered|].
  induction 1 as [|k l Hl IH Hk]; [reflexivity|].
  simpl. fold (sorted_by_time l). rewrite IH.
  now apply insert_by_time_front.
Qed.

Lemma sorted_by_time_sorts_witness :
  sorted_by_time
    [Keyframe (Some 5%Q) (Some f64_0_8); Keyframe (Some 5%Q) (Some f64_0_2)]
  = [Keyframe (Some 5%Q) (Some f64_0_8); Keyframe (Some 5%Q) (Some f64_0_2)].
Proof.
  apply (sorted_by_time_sorts
           [Keyframe (Some 5%Q) (Some f64_0_8);
            Keyframe (Some 5%Q) (Some f64_0_2)]).
  repeat constructor; discriminate.
Defined.

(** ** Synthesis for keyframes in any order *)

Section SynthesisAnyOrder.
Variables W H : Z.

Lemma ordered_head_le k (l : list keyframe) i ki :
  ordered (k :: l) -> (k :: l) !! i = Some ki ->
  (get_time k <= get_time ki)%Q.
Proof.
  intros Hs Hi. destruct i as [|i].
  - injection Hi as ->. apply Qle_refl.
  - apply StronglySorted_inv in Hs as [_ Hall].
    rewrite Forall_forall in Hall. apply Hall.
    apply list_elem_of_In. eapply list_elem_of_lookup_2. exact Hi.
Qed.

Lemma eval_nest_ordered (l : list keyframe) :
  ordered l ->
  forall i k t,
    l !! i = Some k ->
    (i <> 0%nat -> (get_time k <= t)%Q) ->
    (forall k', l !! S i = Some k' -> (t < get_time k')%Q) ->
    eval t (nest W H l) = inject_Z (pixel W H k).
Proof.
  induction l as [|a l IH]; intros Hs i k t Hi Hlo Hhi; [discriminate|].
  destruct l as [|b l].
  - destruct i; [|discriminate]. injection Hi as ->. reflexivity.
  - change (nest W H (a :: b :: l)) with
      (EIf (ELt ET (ENum (get_time b))) (ENum (inject_Z (pixel W H a)))
           (nest W H (b :: l))).
    rewrite eval_if_lt. destruct i as [|i].
    + injection Hi as ->.
      assert (Qltb t (get_time b) = true) as ->; [|reflexivity].
      apply Qltb_true, Hhi. reflexivity.
    + assert (Hs' : ordered (b :: l)) by (apply StronglySorted_inv in Hs; tauto).
      assert (Hkt : (get_time k <= t)%Q) by now apply Hlo.
      assert (Qltb t (get_time b) = false) as ->.
      { apply Qltb_false. eapply Qle_trans; [|exact Hkt].
        exact (ordered_head_le b l i k Hs' Hi). }
      apply (IH Hs' i k t Hi); [intros _; exact Hkt | exact Hhi].
Qed.

Lemma eval_nest_member (l : list keyframe) t :
  l <> [] -> exists k, In k l /\ eval t (nest W H l) = inject_Z (pixel W H k).
Proof.
  induction l as [|a l IH]; [congruence|]. intros _.
  destruct l as [|b l].
  - exists a. split; [now left | reflexivity].
  - change (nest W H (a :: b :: l)) with
      (EIf (ELt ET (ENum (get_time b))) (ENum (inject_Z (pixel W H a)))
           (nest W H (b :: l))).
    rewrite eval_if_lt. destruct (Qltb t (get_time b)).
    + exists a. split; [now left | reflexivity].
    + destruct (IH ltac:(discriminate)) as (k & Hin & Hk).
      exists k. split; [now right | exact Hk].
Qed.

Lemma sorted_by_time_nonempty (l : list keyframe) :
  l <> [] -> sorted_by_time l <> [].
Proof.
  intros Hne Hnil. pose proof (sorted_by_time_perm l) as Hperm.
  rewrite Hnil in Hperm. apply Permutation_sym, Permutation_nil in Hperm.
  contradiction.
Qed.

(** X4. For every non-empty keyframe list, in any order and with ties,
    the crop expression exists, and with [s] the list sorted by time it
    evaluates to [pixel (s_i)] at every [t] from the time of [s_i] up to,
    but not including, the time of [s_(i+1)] (for the last keyframe: at
    every [t] from its time on).  Of keyframes that share a time only the
    last one in sorted order has a segment. *)
Theorem crop_expr_any_order (kfs : list keyframe) :
  kfs <> [] ->
  exists e,
    crop_expr_of W H kfs = Some e /\
    forall i k t,
      sorted_by_time kfs !! i = Some k ->
      (get_time k <= t)%Q ->
      (forall k', sorted_by_time kfs !! S i = Some k' -> (t < get_time k')%Q) ->
      eval t e = inject_Z (pixel W H k).
Proof.
  intros Hne. exists (nest W H (sorted_by_time kfs)). split.
  - apply build_crop_expr_nest. now apply sorted_by_time_nonempty.
  - intros i k t Hi Hlo Hhi.
    apply (eval_nest_ordered (sorted_by_time kfs)
             (sorted_by_time_ordered kfs) i k t Hi); auto.
Qed.

(** X5. The position of the earliest keyframe holds from the start of
    the clip, also before that keyframe's own time: at every [t] before
    the time of the second keyframe in sorted order (at every [t] if
    there is none) the expression is the pixel offset of the first. *)
Theorem crop_expr_before_first (kfs : list keyframe) (k0 : keyframe) (t : Q) :
  sorted_by_time kfs !! 0%nat = Some k0 ->
  (forall k1, sorted_by_time kfs !! 1%nat = Some k1 -> (t < get_time k1)%Q) ->
  exists e,
    crop_expr_of W H kfs = Some e /\ eval t e = inject_Z (pixel W H k0).
Proof.
  intros H0 H1. exists (nest W H (sorted_by_time kfs)). split.
  - apply build_crop_expr_nest. intros Hnil. now rewrite Hnil in H0.
  - apply (eval_nest_ordered (sorted_by_time kfs)
             (sorted_by_time_ordered kfs) 0%nat k0 t H0);
      [congruence | exact H1].
Qed.

(** X6. Whatever the keyframes and the time, the value of the expression
    is the pixel offset of one of the given keyframes, hence an offset
    between 0 and the larger of 0 and [max_x]. *)
Theorem crop_expr_values (kfs : list keyframe) (t : Q) :
  kfs <> [] ->
  exists e k,
    crop_expr_of W H kfs = Some e /\
    In k kfs /\
    eval t e = inject_Z (pixel W H k) /\
    0 <= pixel W H k <= Z.max 0 (max_x W H).
Proof.
  intros Hne.
  destruct (eval_nest_member (sorted_by_time kfs) t
              (sorted_by_time_nonempty kfs Hne)) as (k & Hin & Hk).
  exists (nest W H (sorted_by_time kfs)), k. split; [|split; [|split]].
  - apply build_crop_expr_nest. now apply sorted_by_time_nonempty.
  - eapply Permutation_in; [|exact Hin].
    apply Permutation_sym. apply sorted_by_time_perm.
  - exact Hk.
  - unfold pixel, cropx_to_pixels. lia.
Qed.
End SynthesisAnyOrder.

Lemma crop_expr_any_order_witness :
  exists e,
    crop_expr_of 1920 1080
      [Keyframe (Some 5%Q) (Some f64_0_8); Keyframe (Some 0%Q) (Some f64_0_2);
       Keyframe (Some 5%Q) (Some (1 # 2)%Q)] = Some e /\
    eval 7 e = 657%Q.
Proof.
  destruct (crop_expr_any_order 1920 1080
              [Keyframe (Some 5%Q) (Some f64_0_8);
               Keyframe (Some 0%Q) (Some f64_0_2);
               Keyframe (Some 5%Q) (Some (1 # 2)%Q)]) as (e & He & Hseg).
  - discriminate.
  - exists e. split; [exact He|].
    apply (Hseg 2%nat (Keyframe (Some 5%Q) (Some (1 # 2)%Q)) 7%Q).
    + reflexivity.
    + discriminate.
    + intros k' [=].
Defined.

Lemma crop_expr_before_first_witness :
  exists e,
    crop_expr_of 1920 1080
      [Keyframe (Some 5%Q) (Some f64_0_8); Keyframe (Some 2%Q) (Some f64_0_2)]
    = Some e /\
    eval 1 e = 81%Q.
Proof.
  apply (crop_expr_before_first 1920 1080
           [Keyframe (Some 5%Q) (Some f64_0_8);
            Keyframe (Some 2%Q) (Some f64_0_2)]
           (Keyframe (Some 2%Q) (Some f64_0_2)) 1%Q).
  - reflexivity.
  - intros k1 [= <-]. reflexivity.
Defined.

Lemma crop_expr_values_witness :
  exists e k,
    crop_expr_of 1920 1080 scenario_kfs = Some e /\
    In k scenario_kfs /\
    eval 3 e = inject_Z (pixel 1920 1080 k) /\
    0 <= pixel 1920 1080 k <= Z.max 0 (max_x 1920 1080).
Proof.
  apply (crop_expr_values 1920 1080 scenario_kfs 3%Q). discriminate.
Defined.

(** ** Keyframe estimation and parameter tuning *)

Lemma Qltb_irrefl a : Qltb a a = false.
Proof. apply Qltb_false, Qle_refl. Qed.

(** Clamping twice is clamping once. *)
Lemma py_clamp_idempotent lo hi x :
  py_max lo (py_min hi (py_max lo (py_min hi x))) = py_max lo (py_min hi x).
Proof.
  unfold py_max, py_min.
  destruct (Qltb x hi) eqn:E1.
  - destruct (Qltb lo x) eqn:E2.
    + now rewrite E1, E2.
    + destruct (Qltb lo hi) eqn:E3.
      * now rewrite Qltb_irrefl.
      * now rewrite E3.
  - destruct (Qltb lo hi) eqn:E3.
    + now rewrite Qltb_irrefl, E3.
    + destruct (Qltb lo hi) eqn:E4; [discriminate|]. now rewrite E4.
Qed.

(** A value within the bounds is kept. *)
Lemma py_clamp_within lo hi x :
  (lo <= x)%Q -> (x <= hi)%Q -> (py_max lo (py_min hi x) == x)%Q.
Proof.
  intros Hlo Hhi. unfold py_max, py_min.
  destruct (Qltb x hi) eqn:E1.
  - destruct (Qltb lo x) eqn:E2; [reflexivity|].
    apply Qltb_false in E2. now apply Qle_antisym.
  - apply Qltb_false in E1.
    assert (Hx : (x == hi)%Q) by now apply Qle_antisym.
    destruct (Qltb lo hi) eqn:E2; [now symmetry|].
    apply Qltb_false in E2. apply Qle_antisym; [exact Hlo|].
    now rewrite Hx.
Qed.

(** X7. Validation is idempotent, and a keyframe that is already within
    the ranges keeps its time and its position. *)
Theorem clamp_keyframe_stable (duration : Q) (kf : keyframe) :
  clamp_keyframe duration (clamp_keyframe duration kf)
  = clamp_keyframe duration kf /\
  (in_range duration kf ->
   (get_time (clamp_keyframe duration kf) == get_time kf)%Q /\
   (get_cropX (clamp_keyframe duration kf) == get_cropX kf)%Q).
Proof.
  split.
  - unfold clamp_keyframe, get_time, get_cropX. cbn -[py_max py_min].
    now rewrite !py_clamp_idempotent.
  - intros (H1 & H2 & H3 & H4).
    unfold clamp_keyframe, get_time, get_cropX. cbn -[py_max py_min].
    split; now apply py_clamp_within.
Qed.

Lemma clamp_keyframe_stable_witness :
  (get_time (clamp_keyframe 30 (Keyframe (Some 12%Q) (Some (3 # 10)%Q))) == 12)%Q /\
  (get_cropX (clamp_keyframe 30 (Keyframe (Some 12%Q) (Some (3 # 10)%Q)))
   == 3 # 10)%Q.
Proof.
  apply (clamp_keyframe_stable 30 (Keyframe (Some 12%Q) (Some (3 # 10)%Q))).
  unfold in_range. cbn. repeat split; discriminate.
Defined.

Lemma clamp_keyframe_shape duration kf :
  (f64_0_1 <= get_cropX (clamp_keyframe duration kf) /\
   get_cropX (clamp_keyframe duration kf) <= f64_0_9 /\
   0 <= get_time (clamp_keyframe duration kf))%Q.
Proof.
  unfold clamp_keyframe, get_time, get_cropX. cbn -[py_max py_min].
  destruct (py_clamp_bounds f64_0_1 f64_0_9 (default (1 # 2)%Q (kf_cropX kf)))
    as [H3 H4]; [discriminate|].
  split; [exact H3|]. split; [exact H4|].
  unfold py_max. destruct (Qltb 0 _) eqn:E; [|apply Qle_refl].
  apply Qlt_le_weak. now apply Qltb_true.
Qed.

Lemma analyze_clip_keyframes_positions duration est :
  Forall (fun k => (f64_0_1 <= get_cropX k /\ get_cropX k <= f64_0_9 /\
                    0 <= get_time k)%Q)
    (analyze_clip_keyframes duration est).
Proof.
  assert (Hdef : Forall (fun k => (f64_0_1 <= get_cropX k /\ get_cropX k <= f64_0_9
                                   /\ 0 <= get_time k)%Q) default_keyframes).
  { repeat constructor; discriminate. }
  destruct est as [| | |raw]; try exact Hdef.
  unfold analyze_clip_keyframes.
  assert (Hall : Forall (fun k => (f64_0_1 <= get_cropX k /\ get_cropX k <= f64_0_9
                                   /\ 0 <= get_time k)%Q)
                   (map (clamp_keyframe duration) raw)).
  { apply Forall_map, Forall_forall. intros kf _. apply clamp_keyframe_shape. }
  destruct (map (clamp_keyframe duration) raw) as [|k l] eqn:Hm; [exact Hdef|].
  now apply sorted_by_time_Forall.
Qed.

(** X8. Whatever the estimation collaborator does and whatever the
    duration, [analyze_clip_keyframes] returns at least one keyframe, in
    ascending order of time, each with a position within [0.1, 0.9] (the
    two doubles that the literals of the source denote) and a time that
    is not negative. *)
Theorem analyze_clip_keyframes_shape (duration : Q) (est : estimation) :
  analyze_clip_keyframes duration est <> [] /\
  ordered (analyze_clip_keyframes duration est) /\
  Forall (fun k => (f64_0_1 <= get_cropX k /\ get_cropX k <= f64_0_9 /\
                    0 <= get_time k)%Q)
    (analyze_clip_keyframes duration est).
Proof.
  split; [|split; [|apply analyze_clip_keyframes_positions]].
  - destruct est as [| | |raw]; try discriminate.
    unfold analyze_clip_keyframes.
    destruct (map (clamp_keyframe duration) raw) as [|k l]; [discriminate|].
    apply sorted_by_time_nonempty. discriminate.
  - destruct est as [| | |raw]; try (repeat constructor; fail).
    unfold analyze_clip_keyframes.
    destruct (map (clamp_keyframe duration) raw) as [|k l];
      [repeat constructor | apply sorted_by_time_ordered].
Qed.

(** X10. For a clip whose duration is negative (an end before the start)
    every validated keyframe has time 0. *)
Theorem analyze_clip_keyframes_negative_duration (duration : Q) (est : estimation) :
  (duration < 0)%Q ->
  Forall (fun k => kf_time k = Some 0%Q) (analyze_clip_keyframes duration est).
Proof.
  intros Hneg.
  assert (Hdef : Forall (fun k => kf_time k = Some 0%Q) default_keyframes)
    by (repeat constructor).
  destruct est as [| | |raw]; try exact Hdef.
  unfold analyze_clip_keyframes.
  assert (Hall : Forall (fun k => kf_time k = Some 0%Q)
                   (map (clamp_keyframe duration) raw)).
  { apply Forall_map, Forall_forall. intros kf _.
    unfold clamp_keyframe. cbn [kf_time]. f_equal.
    unfold py_max. destruct (Qltb 0 _) eqn:E; [|reflexivity].
    exfalso. apply Qltb_true in E. apply (Qlt_irrefl 0).
    eapply Qlt_trans; [exact E|]. eapply Qle_lt_trans; [|exact Hneg].
    unfold py_min. destruct (Qltb (get_time kf) duration) eqn:E2;
      [apply Qlt_le_weak; now apply Qltb_true | apply Qle_refl]. }
  destruct (map (clamp_keyframe duration) raw) as [|k l] eqn:Hm; [exact Hdef|].
  now apply sorted_by_time_Forall.
Qed.

Lemma analyze_clip_keyframes_negative_duration_witness :
  Forall (fun k => kf_time k = Some 0%Q)
    (analyze_clip_keyframes (-5)
       (EstimateKeyframes [Keyframe (Some 3%Q) (Some f64_0_2);
                           Keyframe (Some (-7)%Q) None])).
Proof.
  apply (analyze_clip_keyframes_negative_duration (-5)). reflexivity.
Defined.

Lemma analyze_clip_keyframes_in_range_witness :
  Forall (in_range 30)
    (analyze_clip_keyframes 30
       (EstimateKeyframes [Keyframe (Some 45%Q) (Some (1 # 20)%Q);
                           Keyframe (Some (-1)%Q) (Some 2%Q)])).
Proof.
  apply (analyze_clip_keyframes_in_range 30). discriminate.
Defined.

(** X11. [analyze_clip_for_speaker] always answers with a position within
    [0.1, 0.9] (the two doubles that the literals of the source denote);
    it answers 0.5 when the estimation gives no keyframe. *)
Theorem analyze_clip_for_speaker_range (duration : Q) (est : estimation) :
  (f64_0_1 <= analyze_clip_for_speaker duration est /\
   analyze_clip_for_speaker duration est <= f64_0_9)%Q /\
  ((forall raw, est = EstimateKeyframes raw -> raw = []) ->
   analyze_clip_for_speaker duration est = (1 # 2)%Q).
Proof.
  split.
  - unfold analyze_clip_for_speaker.
    pose proof (analyze_clip_keyframes_positions duration est) as Hall.
    destruct (analyze_clip_keyframes duration est) as [|k l]; [split; discriminate|].
    apply Forall_cons_1 in Hall as [(H1 & H2 & _) _]. auto.
  - intros Hnone. destruct est as [| | |raw]; try reflexivity.
    now rewrite (Hnone raw eq_refl).
Qed.

Lemma analyze_clip_for_speaker_range_witness :
  analyze_clip_for_speaker 30 EstimateRaises = (1 # 2)%Q.
Proof.
  apply (analyze_clip_for_speaker_range 30 EstimateRaises). intros raw [=].
Defined.

(** X12. Whatever the tuning collaborator does, the parameters returned
    by [analyze_video_with_llm] are within the ranges of [validate_params]:
    scale factor in [1.01, 1.3], neighbours in [1, 6], size in [20, 80]. *)
Theorem analyze_video_with_llm_in_range (t : tuning) :
  params_in_range (analyze_video_with_llm t).
Proof.
  assert (Hdef : params_in_range get_default_params).
  { unfold params_in_range. cbn. repeat split; try discriminate; lia. }
  destruct t as [| | |params]; try exact Hdef.
  unfold analyze_video_with_llm, validate_params, params_in_range.
  cbn [scale_factor min_neighbors min_size].
  split; [|lia].
  apply py_clamp_bounds. discriminate.
Qed.

(** ** The lenient parser, further *)

Lemma part_of_refl s : part_of s s.
Proof. exists [], []. now rewrite app_nil_r. Qed.

Lemma part_of_trans x y z : part_of x y -> part_of y z -> part_of x z.
Proof.
  intros (a & b & ->) (c & d & ->). exists (c ++ a), (b ++ d).
  now rewrite <- !app_assoc.
Qed.

Lemma split_index_0_part sep s :
  exists x, index (split sep s) 0 = Returns x /\ part_of x s.
Proof.
  rewrite split_index_0. destruct (find_sub sep s) as [[b a]|] eqn:Hf.
  - exists b. split; [reflexivity|]. exists [], (sep ++ a).
    exact (find_sub_sound sep s b a Hf).
  - exists s. split; [reflexivity | apply part_of_refl].
Qed.

Lemma split_index_1_part sep s :
  sep <> [] -> contains sep s = true ->
  exists x, index (split sep s) 1 = Returns x /\ part_of x s.
Proof.
  intros Hsep Hc. unfold contains in Hc.
  destruct (find_sub sep s) as [[b a]|] eqn:Hf; [|discriminate].
  rewrite (split_index_1 sep s b a Hsep Hf).
  assert (Ha : part_of a s).
  { exists (b ++ sep), []. rewrite app_nil_r, <- app_assoc.
    exact (find_sub_sound sep s b a Hf). }
  destruct (find_sub sep a) as [[b' a']|] eqn:Hf'.
  - exists b'. split; [reflexivity|]. apply (part_of_trans _ a); [|exact Ha].
    exists [], (sep ++ a'). exact (find_sub_sound sep a b' a' Hf').
  - exists a. split; [reflexivity | exact Ha].
Qed.

Lemma strip_fence_part (content : str) :
  exists inner, strip_fence content = Returns inner /\ part_of inner content.
Proof.
  unfold strip_fence.
  destruct (contains fence_json content) eqn:Hj.
  - destruct (split_index_1_part fence_json content ltac:(discriminate) Hj)
      as (x & -> & Hx).
    destruct (split_index_0_part fence x) as (y & -> & Hy).
    exists y. split; [reflexivity | now apply (part_of_trans _ x)].
  - destruct (contains fence content) eqn:Hf.
    + destruct (split_index_1_part fence content ltac:(discriminate) Hf)
        as (x & -> & Hx).
      destruct (split_index_0_part fence x) as (y & -> & Hy).
      exists y. split; [reflexivity | now apply (part_of_trans _ x)].
    + exists content. split; [reflexivity | apply part_of_refl].
Qed.

(** X13. The fence removal never raises: the indexing [[1]] is guarded by
    the [in] test and [[0]] always exists.  What it returns is a
    contiguous part of the text it was given, so it is never longer. *)
Theorem strip_fence_returns_part (content : str) :
  exists inner,
    strip_fence content = Returns inner /\ part_of inner content /\
    (length inner <= length content)%nat.
Proof.
  destruct (strip_fence_part content) as (inner & Hs & a & b & Hpart).
  exists inner. split; [exact Hs|]. split; [now exists a, b|].
  rewrite Hpart, !length_app. lia.
Qed.

Section LenientParserFurther.
Variable J : Type.
Variable loads : str -> loaded J.

(** X14. [parse_json_safely] has three outcomes only: a value that
    [json.loads] returned for some text; the JSONDecodeError raised on
    its last line; or an exception that is not a JSONDecodeError and that
    [json.loads] raised for some text, passed on as it is. *)
Theorem parse_json_safely_outcomes (content : str) :
  (exists v text, parse_json_safely J loads content = Returns v /\
                  loads text = Loaded v) \/
  parse_json_safely J loads content
  = Raises (JSONDecodeError "Could not parse JSON") \/
  (exists e text, parse_json_safely J loads content = Raises e /\
                  loads text = Refused e).
Proof.
  unfold parse_json_safely.
  destruct (strip_fence_part content) as (inner & -> & _).
  unfold parse_stripped, try_loads.
  destruct (loads (strip inner)) as [v| |e] eqn:H1.
  { left. now exists v, (strip inner). }
  2: { right. right. now exists e, (strip inner). }
  destruct (search_braces (strip inner)) as [span|]; [|right; now left].
  destruct (loads span) as [v| |e] eqn:H2.
  { left. now exists v, span. }
  2: { right. right. now exists e, span. }
  destruct (loads (remove_trailing_commas span)) as [v| |e] eqn:H3.
  { left. now exists v, (remove_trailing_commas span). }
  - right. now left.
  - right. right. now exists e, (remove_trailing_commas span).
Qed.

(** X15. A fence that is opened and never closed is accepted: the text
    after the opening marker is what gets parsed. *)
Theorem parse_json_safely_unclosed_fence (pre body : str) :
  lacks backtick pre -> lacks backtick body ->
  parse_json_safely J loads (pre ++ fence_json ++ body)
  = parse_stripped J loads (strip body) /\
  (starts_with (py "json") body = false ->
   parse_json_safely J loads (pre ++ fence ++ body)
   = parse_stripped J loads (strip body)).
Proof.
  intros Hpre Hbody.
  assert (Hnone : forall sep, head sep = Some backtick ->
                              find_sub sep body = None).
  { intros sep Hh. exact (find_sub_lacks backtick sep body Hh Hbody). }
  split; [|intros Hword]; unfold parse_json_safely, strip_fence, contains.
  - pose proof (find_sub_found backtick fence_json pre body eq_refl Hpre) as Hf.
    rewrite Hf, (split_index_1 fence_json _ _ _ ltac:(discriminate) Hf).
    rewrite (Hnone fence_json eq_refl), split_index_0.
    now rewrite (Hnone fence eq_refl).
  - assert (Hb : forall r, starts_with (backtick :: r) body = false).
    { intros r. destruct body as [|c body']; [reflexivity|].
      apply lacks_cons in Hbody as [Hc _]. rewrite starts_with_cons.
      destruct (Ascii.eqb_spec backtick c) as [<-|]; [contradiction|reflexivity]. }
    assert (Hj : find_sub fence_json (pre ++ fence ++ body) = None).
    { rewrite (find_sub_skip backtick fence_json pre _ eq_refl Hpre).
      change (fence ++ body) with (backtick :: backtick :: backtick :: body).
      change fence_json with (backtick :: backtick :: backtick :: py "json").
      rewrite find_sub_unfold, !starts_with_cons, !Ascii.eqb_refl. cbn [andb].
      rewrite Hword.
      rewrite find_sub_unfold, !starts_with_cons, !Ascii.eqb_refl. cbn [andb].
      rewrite Hb.
      rewrite find_sub_unfold, !starts_with_cons, !Ascii.eqb_refl. cbn [andb].
      rewrite Hb.
      change (backtick :: backtick :: backtick :: py "json") with fence_json.
      now rewrite (Hnone fence_json eq_refl). }
    rewrite Hj.
    pose proof (find_sub_found backtick fence pre body eq_refl Hpre) as Hf.
    rewrite Hf, (split_index_1 fence _ _ _ ltac:(discriminate) Hf).
    rewrite (Hnone fence eq_refl), split_index_0.
    now rewrite (Hnone fence eq_refl).
Qed.
End LenientParserFurther.

Lemma parse_json_safely_unclosed_fence_witness :
  parse_json_safely json (json_loads default_depth)
    (py "Here: " ++ fence_json ++ py " {'a': 1}")
  = Returns (JObj [(py "a", JNum (py "1"))]).
Proof.
  destruct (parse_json_safely_unclosed_fence json (json_loads default_depth)
              (py "Here: ") (py " {'a': 1}")) as [Hjson _].
  - solve_lacks.
  - solve_lacks.
  - rewrite Hjson. vm_compute. reflexivity.
Defined.

Lemma upto_last_close_sound s r :
  upto_last_close s = Some r ->
  exists mid p2, r = mid ++ ["}"%char] /\ s = r ++ p2 /\ lacks "}" p2.
Proof.
  revert r. induction s as [|c s IH]; intros r; [discriminate|].
  simpl. destruct (upto_last_close s) as [r'|] eqn:Hr.
  - intros [= <-]. destruct (IH r' eq_refl) as (mid & p2 & -> & Hs & Hp).
    exists (c :: mid), p2. split; [reflexivity|]. split; [|exact Hp].
    simpl. f_equal. exact Hs.
  - destruct (Ascii.eqb_spec c "}") as [->|]; [|discriminate].
    intros [= <-]. exists [], s. split; [reflexivity|]. split; [reflexivity|].
    clear IH. induction s as [|d s IHs]; [intros []|].
    simpl in Hr. destruct (upto_last_close s) as [r'|]; [discriminate|].
    destruct (Ascii.eqb_spec d "}") as [->|Hd]; [discriminate|].
    apply lacks_cons. split; [exact Hd | now apply IHs].
Qed.

(** X16. The brace pattern finds a span exactly when the text is some
    prose without an opening brace, then a span that starts with an
    opening brace and ends with a closing brace, then prose without a
    closing brace; the span found is that one. *)
Theorem search_braces_iff (s span : str) :
  search_braces s = Some span <->
  exists p1 mid p2,
    s = p1 ++ span ++ p2 /\ span = "{"%char :: mid ++ ["}"%char] /\
    lacks "{" p1 /\ lacks "}" p2.
Proof.
  split.
  - revert span. induction s as [|c s IH]; intros span; [discriminate|].
    simpl. destruct (Ascii.eqb_spec c "{") as [->|Hc].
    + destruct (upto_last_close s) as [r|] eqn:Hr; [|discriminate].
      intros [= <-].
      destruct (upto_last_close_sound s r Hr) as (mid & p2 & -> & Hs & Hp).
      exists [], mid, p2. split; [simpl; f_equal; exact Hs|].
      split; [reflexivity|]. split; [intros [] | exact Hp].
    + intros Hsp. destruct (IH span Hsp) as (p1 & mid & p2 & -> & -> & H1 & H2).
      exists (c :: p1), mid, p2. split; [reflexivity|]. split; [reflexivity|].
      split; [|exact H2]. apply lacks_cons. split; [exact Hc | exact H1].
  - intros (p1 & mid & p2 & -> & -> & H1 & H2).
    now apply search_braces_span.
Qed.

Lemma remove_trailing_commas_unfold c s :
  remove_trailing_commas (c :: s) =
  if Ascii.eqb c "," && closes_after_spaces s
  then remove_trailing_commas s
  else c :: remove_trailing_commas s.
Proof. reflexivity. Qed.

(** X17. The comma repair only deletes commas: the other characters are
    kept, in their order.  It leaves a text unchanged exactly when no
    comma of the text is followed by optional white space and a closing
    brace or bracket. *)
Theorem remove_trailing_commas_only_commas (s : str) :
  List.filter (fun c => negb (Ascii.eqb c ",")) (remove_trailing_commas s)
  = List.filter (fun c => negb (Ascii.eqb c ",")) s /\
  (remove_trailing_commas s = s <->
   forall a b, s = a ++ ","%char :: b -> closes_after_spaces b = false).
Proof.
  split.
  - induction s as [|c s IH]; [reflexivity|].
    rewrite remove_trailing_commas_unfold.
    destruct (Ascii.eqb c ",") eqn:Hc; cbn [andb].
    + destruct (closes_after_spaces s); cbn [List.filter]; rewrite Hc;
        cbn [negb]; exact IH.
    + cbn [List.filter]. rewrite Hc. cbn [negb]. now rewrite IH.
  - induction s as [|c s IH].
    + split; [|reflexivity]. intros _ a b Hab. now destruct a.
    + rewrite remove_trailing_commas_unfold. split.
      * intros Hfix a b Hab.
        destruct (Ascii.eqb c "," && closes_after_spaces s) eqn:Hcs.
        { pose proof (remove_trailing_commas_length s) as Hlen.
          rewrite Hfix in Hlen. simpl in Hlen. lia. }
        injection Hfix as Hfix. destruct a as [|x a].
        -- injection Hab as -> ->. now rewrite Ascii.eqb_refl in Hcs.
        -- injection Hab as -> ->. now apply (proj1 IH Hfix a b).
      * intros Hno.
        assert (Ascii.eqb c "," && closes_after_spaces s = false) as ->.
        { destruct (Ascii.eqb_spec c ",") as [->|]; [|reflexivity].
          cbn [andb]. now apply (Hno [] s). }
        f_equal. apply IH. intros a b ->. now apply (Hno (c :: a) b).
Qed.

Lemma remove_trailing_commas_only_commas_witness :
  closes_after_spaces (py " 2], 'b': 3}") = false.
Proof.
  apply (proj1 (proj2 (remove_trailing_commas_only_commas
                         (py "{'a': [1, 2], 'b': 3}"))) eq_refl
           (py "{'a': [1") (py " 2], 'b': 3}")).
  reflexivity.
Defined.

Lemma search_braces_iff_witness :
  search_braces (py "so: {'a': {}} ok") = Some (py "{'a': {}}").
Proof.
  apply (proj2 (search_braces_iff (py "so: {'a': {}} ok") (py "{'a': {}}"))).
  exists (py "so: "), (py "'a': {}"), (py " ok").
  split; [reflexivity|]. split; [reflexivity|]. split; solve_lacks.
Defined.

(** ** Transcription, further *)

Lemma segments_of_returns us :
  Forall (fun u => is_Some (utt_start u) /\ is_Some (utt_end u) /\
                   is_Some (utt_transcript u)) us ->
  exists segs,
    segments_of us = Returns segs /\
    map (fun s => (Some (seg_start s), Some (seg_end s), Some (seg_text s),
                   seg_speaker s)) segs
    = map (fun u => (utt_start u, utt_end u, utt_transcript u,
                     default 0 (utt_speaker u))) us.
Proof.
  induction 1 as [|u us ([s Hs] & [e He] & [t Ht]) _ (segs & IH & Hmap)].
  - now exists [].
  - simpl. rewrite Hs, He, Ht, IH. eexists. split; [reflexivity|].
    simpl. now rewrite Hmap.
Qed.

Lemma segments_of_raises us :
  ~ Forall (fun u => is_Some (utt_start u) /\ is_Some (utt_end u) /\
                     is_Some (utt_transcript u)) us ->
  exists x, segments_of us = Raises x.
Proof.
  induction us as [|u us IH]; intros Hbad.
  - exfalso. apply Hbad. constructor.
  - simpl. destruct (utt_start u) as [s|] eqn:Hs; [|eauto].
    destruct (utt_end u) as [e|] eqn:He; [|eauto].
    destruct (utt_transcript u) as [t|] eqn:Ht; [|eauto].
    destruct IH as [x ->]; [|eauto].
    intros Hall. apply Hbad. constructor; [|exact Hall].
    rewrite Hs, He, Ht. eauto.
Qed.

Lemma transcribe_video_result us w :
  fst (transcribe_video true (DgResult us) w)
  = Returns (match segments_of us with Returns segs => segs | Raises _ => [] end).
Proof.
  unfold transcribe_video, extract_audio, try_finally, try_except,
    remove_if_exists, bind, write_file, path_exists, os_remove, ret, raise, lift.
  cbn -[has_file add_file del_file]. rewrite has_file_add.
  destruct (segments_of us) as [segs|x]; cbn -[has_file add_file del_file];
    repeat (rewrite has_file_add; cbn -[has_file add_file del_file]);
    reflexivity.
Qed.

(** X18. A transcript is kept whole or not at all: when every utterance
    of the reply has its start, end and transcript, [transcribe_video]
    returns one segment per utterance, in order, with speaker 0 where
    none is given; when one utterance lacks one of them, it returns the
    empty list. *)
Theorem transcribe_video_all_or_nothing (us : list utterance) (w : world) :
  let complete u :=
    is_Some (utt_start u) /\ is_Some (utt_end u) /\ is_Some (utt_transcript u) in
  (Forall complete us ->
   exists segs,
     fst (transcribe_video true (DgResult us) w) = Returns segs /\
     map (fun s => (Some (seg_start s), Some (seg_end s), Some (seg_text s),
                    seg_speaker s)) segs
     = map (fun u => (utt_start u, utt_end u, utt_transcript u,
                      default 0 (utt_speaker u))) us) /\
  (~ Forall complete us ->
   fst (transcribe_video true (DgResult us) w) = Returns []).
Proof.
  intros complete. split; intros Hus; rewrite transcribe_video_result.
  - destruct (segments_of_returns us Hus) as (segs & -> & Hmap).
    now exists segs.
  - now destruct (segments_of_raises us Hus) as [x ->].
Qed.

Lemma transcribe_video_all_or_nothing_witness :
  fst (transcribe_video true
         (DgResult [Utterance (Some 0%Q) (Some 2%Q) (Some (py "hello")) None;
                    Utterance (Some 2%Q) None (Some (py "again")) (Some 1)])
         empty_world)
  = Returns [].
Proof.
  apply (transcribe_video_all_or_nothing
           [Utterance (Some 0%Q) (Some 2%Q) (Some (py "hello")) None;
            Utterance (Some 2%Q) None (Some (py "again")) (Some 1)]
           empty_world).
  intros Hall. apply Forall_cons_1 in Hall as [_ Hall].
  apply Forall_cons_1 in Hall as [(_ & [e He] & _) _]. discriminate He.
Defined.

Lemma process_video_removes_source_witness :
  has_file SourceVideo
    (files (snd (process_video (env_of DgError (Raises (OtherError "S3 down")))
                   "job1" "uploads/u/video.mp4" done_world)))
  = false.
Proof.
  apply (process_video_removes_source
           (env_of DgError (Raises (OtherError "S3 down")))
           "job1" "uploads/u/video.mp4" done_world).
  exists done_job. reflexivity.
Defined.

Lemma transcribe_video_removes_audio_witness :
  has_file AudioTrack
    (files (snd (transcribe_video true (DgRaises "timeout") empty_world)))
  = false.
Proof.
  apply (transcribe_video_removes_audio true (DgRaises "timeout") empty_world).
  reflexivity.
Defined.

(** ** What a run does to the registry *)

Lemma step_status id st (m0 : gmap string job) j w :
  jobs w = <[id := j]> m0 ->
  exists w', set_status id st w = (Returns tt, w') /\
             jobs w' = <[id := with_status st j]> m0.
Proof.
  intros Hj. unfold set_status. rewrite Hj, lookup_insert_eq.
  eexists. split; [reflexivity|]. cbn [jobs]. apply insert_insert_eq.
Qed.

Lemma step_update id f (m0 : gmap string job) j w :
  jobs w = <[id := j]> m0 ->
  exists w', update_job id f w = (Returns tt, w') /\
             jobs w' = <[id := f j]> m0.
Proof.
  intros Hj. unfold update_job. rewrite Hj, lookup_insert_eq.
  eexists. split; [reflexivity|]. cbn [jobs]. apply insert_insert_eq.
Qed.

Lemma enter_stage_jobs {A} id st p (k : M A) (m0 : gmap string job) j w :
  jobs w = <[id := j]> m0 ->
  exists w2,
    bind (set_status id st) (fun _ => bind (set_progress id p) (fun _ => k)) w
    = k w2 /\
    jobs w2 = <[id := with_progress p (with_status st j)]> m0.
Proof.
  intros Hj.
  destruct (step_status id st m0 j w Hj) as (w1 & H1 & Hj1).
  destruct (step_update id (with_progress p) m0 _ w1 Hj1) as (w2 & H2 & Hj2).
  exists w2. unfold bind at 1. rewrite H1. unfold bind at 1.
  unfold set_progress. rewrite H2. split; [reflexivity | exact Hj2].
Qed.

Lemma same_data_refl j : same_data j j.
Proof. repeat split. Qed.

Lemma same_data_stage j j' st p :
  same_data j j' -> same_data j (with_progress p (with_status st j')).
Proof. intros (H1 & H2 & H3 & H4 & H5). repeat split; assumption. Qed.

(** ** What a successful extraction returns *)

Lemma extract_loop_returns cenv video id W H clips :
  forall i w cs exs w',
    extract_loop cenv video id W H i clips w = (Returns (cs, exs), w') ->
    map rank cs = map rank clips /\
    map ex_rank exs = map rank clips /\
    map start_time cs = map start_time clips /\
    map end_time cs = map end_time clips /\
    map clip_keyframes cs = map (fun x => Some (ex_keyframes x)) exs /\
    map ex_s3_key exs = map (fun c => (id, rank c)) clips /\
    length (transforms w') = (length (transforms w) + length clips)%nat.
Proof.
  induction clips as [|c rest IH]; intros i w cs exs w'.
  - intros [= <- <- <-]. simpl. repeat split; lia.
  - cbn [extract_loop]. intros Hrun.
    apply bind_run in Hrun as [(x & _ & [=]) | (ce & w1 & Hce & Hrun)].
    assert (w1 = w) as ->.
    { destruct (crop_expr_of W H _); injection Hce as _ <-; reflexivity
                                     || discriminate Hce. }
    apply bind_run in Hrun as [(x & _ & [=]) | (rc & w2 & Hff & Hrun)].
    assert (Ht2 : transforms w2 = transforms w ++ [Transform video (start_time c)
              (fsub (end_time c) (start_time c)) (target_width H) H ce
              (ClipOutput (rank c))]).
    { unfold run_ffmpeg in Hff. now injection Hff as _ <-. }
    apply bind_run in Hrun as [(x & _ & [=]) | (url & w3 & Hup & Hrun)].
    pose proof (calm_upload _ _ _ _ _ Hup) as Ht3.
    apply bind_run in Hrun as [(x & _ & [=]) | (u & w4 & Hrm & Hrun)].
    pose proof (calm_os_remove _ _ _ _ Hrm) as Ht4.
    apply bind_run in Hrun as [(x & _ & [=]) | ([cs' exs'] & w5 & Hrest & Hrun)].
    injection Hrun as <- <- <-.
    destruct (IH _ _ _ _ _ Hrest) as (H1 & H2 & H3 & H4 & H5 & H6 & H7).
    cbn [map fst snd rank start_time end_time clip_keyframes with_keyframes
         ex_rank ex_keyframes ex_s3_key length].
    rewrite H1, H2, H3, H4, H5, H6, H7, Ht4, Ht3, Ht2, length_app. cbn [length].
    repeat split; lia.
Qed.

(** ** Copying the artifacts back *)

Lemma copy_artifacts_cons ext exs c :
  copy_artifacts (ext :: exs) c =
  copy_artifacts exs
    (if (rank c =? ex_rank ext)%Z
     then with_artifact (ex_video_url ext) (ex_s3_key ext) c else c).
Proof. reflexivity. Qed.

Lemma fold_artifact exs :
  forall c,
    rank (copy_artifacts exs c) = rank c /\
    start_time (copy_artifacts exs c) = start_time c /\
    end_time (copy_artifacts exs c) = end_time c /\
    clip_keyframes (copy_artifacts exs c) = clip_keyframes c /\
    (is_Some (video_url c) /\ clip_s3_key c <> None ->
     is_Some (video_url (copy_artifacts exs c)) /\
     clip_s3_key (copy_artifacts exs c) <> None) /\
    (In (rank c) (map ex_rank exs) ->
     is_Some (video_url (copy_artifacts exs c)) /\
     clip_s3_key (copy_artifacts exs c) <> None) /\
    (~ In (rank c) (map ex_rank exs) -> copy_artifacts exs c = c).
Proof.
  induction exs as [|ext exs IH]; intros c.
  - cbn. repeat split; auto; tauto.
  - rewrite copy_artifacts_cons. cbn [map].
    destruct (Z.eqb_spec (rank c) (ex_rank ext)) as [Heq|Hne].
    + destruct (IH (with_artifact (ex_video_url ext) (ex_s3_key ext) c))
        as (H1 & H2 & H3 & H4 & H5 & _ & _).
      cbn [rank start_time end_time clip_keyframes with_artifact] in H1, H2, H3, H4.
      assert (Hset : is_Some (video_url (copy_artifacts exs
                (with_artifact (ex_video_url ext) (ex_s3_key ext) c))) /\
              clip_s3_key (copy_artifacts exs
                (with_artifact (ex_video_url ext) (ex_s3_key ext) c)) <> None).
      { apply H5. cbn [video_url clip_s3_key with_artifact].
        split; [eauto | discriminate]. }
      split; [exact H1|]. split; [exact H2|]. split; [exact H3|].
      split; [exact H4|]. split; [intros _; exact Hset|].
      split; [intros _; exact Hset|].
      intros Hnot. exfalso. apply Hnot. left. now symmetry.
    + destruct (IH c) as (H1 & H2 & H3 & H4 & H5 & H6 & H7).
      split; [exact H1|]. split; [exact H2|]. split; [exact H3|].
      split; [exact H4|]. split; [exact H5|]. split.
      * intros [Heq|Hin]; [now symmetry in Heq | now apply H6].
      * intros Hnot. apply H7. intros Hin. apply Hnot. now right.
Qed.

Lemma update_clip_urls_map clips exs :
  update_clip_urls clips exs = map (copy_artifacts exs) clips.
Proof. reflexivity. Qed.

(** X19. Copying the artifacts back by rank keeps the clips, their order,
    ranks, times and keyframes; a clip gets a URL and a storage key when
    some extracted entry has its rank, and is left exactly as it was when
    none has. *)
Theorem update_clip_urls_by_rank (clips : list clip) (exs : list extracted_clip) :
  map rank (update_clip_urls clips exs) = map rank clips /\
  map clip_keyframes (update_clip_urls clips exs) = map clip_keyframes clips /\
  map start_time (update_clip_urls clips exs) = map start_time clips /\
  map end_time (update_clip_urls clips exs) = map end_time clips /\
  (forall i c c',
      clips !! i = Some c -> update_clip_urls clips exs !! i = Some c' ->
      (In (rank c) (map ex_rank exs) ->
       is_Some (video_url c') /\ clip_s3_key c' <> None) /\
      (~ In (rank c) (map ex_rank exs) -> c' = c)).
Proof.
  rewrite update_clip_urls_map, !map_map.
  split; [|split; [|split; [|split]]];
    try (apply map_ext; intros c; apply (fold_artifact exs c)).
  intros i c c' Hc Hc'. rewrite list_lookup_fmap, Hc in Hc'.
  injection Hc' as <-. split; apply (fold_artifact exs c).
Qed.

Lemma update_clip_urls_by_rank_witness :
  update_clip_urls [Clip 7 0 30 None None None]
    [Extracted 1 ("job1"%string, 1) "https://clips/1" default_keyframes]
  !! 0%nat
  = Some (Clip 7 0 30 None None None).
Proof.
  destruct (update_clip_urls_by_rank [Clip 7 0 30 None None None]
              [Extracted 1 ("job1"%string, 1) "https://clips/1" default_keyframes])
    as (_ & _ & _ & _ & Hclip).
  destruct (Hclip 0%nat (Clip 7 0 30 None None None) (Clip 7 0 30 None None None))
    as [_ Hsame]; try reflexivity.
Defined.

Lemma update_clip_urls_extracted clips cs exs :
  map rank cs = map rank clips ->
  map ex_rank exs = map rank clips ->
  map clip_keyframes cs = map (fun x => Some (ex_keyframes x)) exs ->
  Forall (fun c => is_Some (clip_keyframes c) /\ is_Some (video_url c) /\
                   clip_s3_key c <> None) (update_clip_urls cs exs).
Proof.
  intros Hr Hx Hk. rewrite update_clip_urls_map.
  apply Forall_map, Forall_forall. intros c Hin.
  destruct (fold_artifact exs c) as (_ & _ & _ & H4 & _ & H6 & _).
  rewrite H4. split; [|apply H6].
  - assert (Hall : Forall (fun o : option (list keyframe) => is_Some o)
                     (map clip_keyframes cs)).
    { rewrite Hk. apply Forall_map, Forall_forall. intros x _. eauto. }
    rewrite Forall_map, Forall_forall in Hall. now apply Hall.
  - rewrite Hx, <- Hr. now apply in_map.
Qed.

(** ** The job a run leaves behind *)

Ltac enter_stage_jobs_in Hrun Hj w2 Hj2 :=
  match type of Hrun with
  | bind (set_status ?i ?s) (fun _ => bind (set_progress _ ?p) (fun _ => ?k)) ?w
    = _ =>
      let Heq := fresh "Heq" in
      destruct (enter_stage_jobs i s p k _ _ w Hj) as (w2 & Heq & Hj2);
      rewrite Heq in Hrun; clear Heq
  end.

Lemma process_stages_jobs e id key tv (m0 : gmap string job) j j1 w r w' :
  same_data j j1 ->
  jobs w = <[id := j1]> m0 ->
  process_stages e id key tv w = (r, w') ->
  exists j',
    jobs w' = <[id := j']> m0 /\
    match r with
    | Raises _ => same_data j j'
    | Returns _ => completed_job j key j'
    end.
Proof.
  intros Hsame Hj Hrun. unfold process_stages in Hrun.
  apply bind_run in Hrun as [(x & Hm & ->) | (u1 & w1 & Hm & Hrun)];
    destruct (quiet_download (download e) tv _ _ _ Hm) as [Hj1 _].
  { exists j1. split; [congruence | exact Hsame]. }
  rewrite <- Hj1 in Hj.
  enter_stage_jobs_in Hrun Hj w2 Hj2.
  apply bind_run in Hrun as [(x & Hm2 & ->) | (segs & w3 & Hm2 & Hrun)];
    destruct (quiet_transcribe (audio_created e) (deepgram e) _ _ _ Hm2)
      as [Hj3 _].
  { eexists. split; [rewrite Hj3; exact Hj2 | now apply same_data_stage]. }
  rewrite <- Hj3 in Hj2.
  enter_stage_jobs_in Hrun Hj2 w4 Hj4.
  apply bind_run in Hrun as [(x & Hm5 & ->) | (clips & w5 & Hm5 & Hrun)];
    destruct (quiet_lift (selection e) _ _ _ Hm5) as [Hj5 _].
  { eexists. split; [rewrite Hj5; exact Hj4|].
    now apply same_data_stage, same_data_stage. }
  rewrite <- Hj5 in Hj4.
  enter_stage_jobs_in Hrun Hj4 w6 Hj6.
  apply bind_run in Hrun as [(x & Hm7 & ->) | (ex & w7 & Hm7 & Hrun)];
    destruct (quiet_extract_clips (clip_envs e) (frame_size e) tv clips id
                _ _ _ Hm7) as [Hj7 _].
  { eexists. split; [rewrite Hj7; exact Hj6|].
    now apply same_data_stage, same_data_stage, same_data_stage. }
  rewrite <- Hj7 in Hj6.
  enter_stage_jobs_in Hrun Hj6 w8 Hj8.
  destruct (step_update id (with_result (update_clip_urls (fst ex) (snd ex)))
              m0 _ w8 Hj8) as (w9 & Hu9 & Hj9).
  unfold bind at 1 in Hrun. rewrite Hu9 in Hrun.
  destruct (step_update id (with_transcript (flatten_transcript segs))
              m0 _ w9 Hj9) as (w10 & Hu10 & Hj10).
  unfold bind at 1 in Hrun. rewrite Hu10 in Hrun.
  destruct (step_update id (with_source_s3_key key) m0 _ w10 Hj10)
    as (w11 & Hu11 & Hj11).
  rewrite Hu11 in Hrun. injection Hrun as <- <-.
  eexists. split; [exact Hj11|].
  destruct Hsame as (H1 & H2 & H3 & H4 & H5).
  unfold completed_job. cbn.
  split; [reflexivity|]. split; [reflexivity|]. split.
  - eexists. split; [reflexivity|].
    unfold extract_clips in Hm7.
    apply bind_run in Hm7 as [(x & _ & [=]) | (cl & w' & Hcl & Hloop)].
    destruct ex as [cs exs].
    destruct (extract_loop_returns _ _ _ _ _ _ _ _ _ _ _ Hloop)
      as (Hr & Hx & _ & _ & Hk & _ & _).
    now apply (update_clip_urls_extracted cl).
  - split; [exact H2|]. split; [discriminate|]. split; [reflexivity | exact H3].
Qed.

Lemma process_video_job (e : env) (job_id s3_key : string) (w : world)
    (j : job) :
  jobs w !! job_id = Some j ->
  fst (process_video e job_id s3_key w) = Returns tt /\
  exists jf,
    jobs (snd (process_video e job_id s3_key w)) = <[job_id := jf]> (jobs w) /\
    (completed_job j s3_key jf \/ failed_job j jf).
Proof.
  intros Hj0.
  assert (Hj : jobs w = <[job_id := j]> (jobs w)) by now rewrite insert_id.
  unfold process_video, process_try.
  destruct (step_status job_id Downloading _ _ w Hj) as (w1 & Hs1 & Hj1).
  destruct (step_update job_id (with_progress "Downloading video from S3...")
              _ _ w1 Hj1) as (w2 & Hs2 & Hj2).
  unfold bind at 1 2. rewrite Hs1. unfold set_progress at 1 2. rewrite Hs2.
  destruct (process_stages e job_id s3_key SourceVideo w2) as [r1 w3] eqn:Hst.
  destruct (process_stages_jobs e job_id s3_key SourceVideo (jobs w) j _ w2 r1 w3
              (same_data_stage j j Downloading _ (same_data_refl j)) Hj2 Hst)
    as (j3 & Hj3 & Hpost).
  destruct r1 as [u|x].
  - destruct (process_finally (Some SourceVideo) w3) as [rf w4] eqn:Hfin.
    destruct (quiet_remove_if_exists SourceVideo _ _ _ Hfin) as [Hj4 _].
    assert (Hrf : exists u', rf = Returns u').
    { revert Hfin. unfold process_finally, remove_if_exists, bind, path_exists,
        os_remove, ret.
      destruct (has_file SourceVideo (files w3)) eqn:Hhas; cbn [files];
        rewrite ?Hhas; intros [= <- _]; eauto. }
    destruct Hrf as [u' ->]. destruct u. cbn [fst snd]. split; [reflexivity|].
    exists j3. split; [congruence | now left].
  - unfold process_except.
    destruct (enter_stage_jobs job_id Failed ("Error: " ++ exn_message (temp_name e) x)
                (update_job job_id (with_error (exn_message (temp_name e) x))) _ _ w3 Hj3)
      as (w4 & Heq & Hj4).
    rewrite Heq. clear Heq.
    destruct (step_update job_id (with_error (exn_message (temp_name e) x)) _ _ w4 Hj4)
      as (w5 & Hu5 & Hj5).
    rewrite Hu5.
    destruct (process_finally (Some SourceVideo) w5) as [rf w6] eqn:Hfin.
    destruct (quiet_remove_if_exists SourceVideo _ _ _ Hfin) as [Hj6 _].
    assert (Hrf : exists u', rf = Returns u').
    { revert Hfin. unfold process_finally, remove_if_exists, bind, path_exists,
        os_remove, ret.
      destruct (has_file SourceVideo (files w5)) eqn:Hhas; cbn [files];
        rewrite ?Hhas; intros [= <- _]; eauto. }
    destruct Hrf as [u' ->]. cbn [fst snd]. split; [reflexivity|].
    eexists. split; [rewrite Hj6; exact Hj5|]. right.
    destruct Hpost as (H1 & H2 & H3 & H4 & H5).
    unfold failed_job. cbn.
    split; [reflexivity|]. split; [now exists (temp_name e), x|]. auto.
Qed.

(** X20. A run on an existing job returns (it never raises), changes no
    other job, and leaves its own job either completed -- with a result
    whose clips all carry keyframes, a URL and a storage key, with the
    transcript and with the source key that [/source-url] and
    [/reexport] need -- or failed, with the error text in [error] and
    [progress] and the result, transcript and source key as they were. *)
Theorem process_video_outcome (e : env) (job_id s3_key : string) (w : world)
    (j : job) :
  jobs w !! job_id = Some j ->
  fst (process_video e job_id s3_key w) = Returns tt /\
  (forall other, other <> job_id ->
                 jobs (snd (process_video e job_id s3_key w)) !! other
                 = jobs w !! other) /\
  exists jf,
    jobs (snd (process_video e job_id s3_key w)) !! job_id = Some jf /\
    (completed_job j s3_key jf \/ failed_job j jf).
Proof.
  intros Hj.
  destruct (process_video_job e job_id s3_key w j Hj) as (Hret & jf & Hjobs & Hcase).
  split; [exact Hret|]. split.
  - intros other Hne. rewrite Hjobs. now apply lookup_insert_ne.
  - exists jf. split; [|exact Hcase]. rewrite Hjobs. apply lookup_insert_eq.
Qed.

Lemma process_video_outcome_witness :
  fst (process_video (env_of DgError (Returns "https://clips/1"%string))
         "job1" "uploads/u/video.mp4" done_world)
  = Returns tt.
Proof.
  apply (process_video_outcome (env_of DgError (Returns "https://clips/1"%string))
           "job1" "uploads/u/video.mp4" done_world done_job).
  reflexivity.
Defined.

(** ** Re-export, further *)

Lemma has_file_del_other p q fs :
  has_file p (del_file q fs) = true -> has_file p fs = true.
Proof.
  unfold has_file, del_file. induction fs as [|x fs IH]; [discriminate|].
  simpl. destruct (path_eqb q x); simpl.
  - intros Hp. rewrite (IH Hp). apply orb_true_r.
  - destruct (path_eqb p x); [reflexivity | exact IH].
Qed.

Lemma upload_run u p w r w' :
  upload_to_s3 u p w = (r, w') ->
  w' = w /\ (forall url, r = Returns url ->
                         u = Returns url /\ has_file p (files w) = true).
Proof.
  unfold upload_to_s3, bind, path_exists, lift, raise.
  destruct (has_file p (files w)) eqn:Hp; intros [= <- <-];
    (split; [reflexivity|]); intros url Hu; [auto | discriminate].
Qed.

(** How the [try] block of a re-export ends. *)
Lemma reexport_try_run e id rk c kfs tv w j clips r w' :
  jobs w !! id = Some j -> result j = Some clips ->
  reexport_try e id rk c kfs tv w = (r, w') ->
  history w' = history w /\
  ((exists x, r = Raises x /\ jobs w' = jobs w) \/
   (r = Returns (Response 500 (ErrorBody "Export failed")) /\ jobs w' = jobs w) \/
   (exists url,
       r = Returns (Response 200 (VideoUrlBody url)) /\
       rx_upload e = Returns url /\
       returncode (rx_transform e) = 0 /\
       jobs w' = <[id := with_result (update_first rk (reexported url kfs) clips) j]>
                   (jobs w) /\
       has_file ReexportOutput (files w') = false)).
Proof.
  intros Hj Hres. unfold reexport_try.
  destruct (crop_expr_of _ _ kfs) as [ce|]; cbn [or_raise].
  2:{ intros [= <- <-]. split; [reflexivity|]. left. eauto. }
  intros Hrun. unfold bind at 1 in Hrun. cbn [ret] in Hrun.
  unfold bind at 1, run_ffmpeg at 1 in Hrun.
  set (w1 := World _ _ _ _) in Hrun.
  destruct (returncode (rx_transform e) =? 0) eqn:Hrc; cbn [negb] in Hrun.
  2:{ injection Hrun as <- <-. split; [reflexivity|]. right. left. auto. }
  apply Z.eqb_eq in Hrc.
  apply bind_run in Hrun as [(x & Hup & ->) | (url & w2 & Hup & Hrun)];
    destruct (upload_run _ _ _ _ _ Hup) as [-> Hurl].
  { split; [reflexivity|]. left. eauto. }
  destruct (Hurl url eq_refl) as [Hu Hfile].
  unfold bind at 1, update_job at 1 in Hrun.
  change (jobs w1) with (jobs w) in Hrun. rewrite Hj in Hrun.
  unfold bind at 1, os_remove at 1 in Hrun. cbn [files] in Hrun.
  change (files w1) with
    (if makes_file (rx_transform e) then add_file ReexportOutput (files w)
     else files w) in *.
  rewrite Hfile in Hrun. injection Hrun as <- <-.
  split; [reflexivity|]. right. right. exists url.
  split; [reflexivity|]. split; [exact Hu|]. split; [exact Hrc|].
  cbn [jobs files]. rewrite Hres. split; [reflexivity | apply has_file_del].
Qed.

(** How a re-export request ends. *)
Lemma reexport_clip_run e req w r w' :
  reexport_clip e req w = (r, w') ->
  (exists msg, r = Returns (Response 404 (ErrorBody msg)) /\ w' = w) \/
  (exists id j clips rk c,
      req_job_id req = Some id /\ jobs w !! id = Some j /\
      result j = Some clips /\ req_clip_rank req = Some rk /\
      find_clip (Some rk) clips = Some c /\
      history w' = history w /\
      ((exists x, r = Raises x /\ jobs w' = jobs w) \/
       (r = Returns (Response 500 (ErrorBody "Export failed")) /\
        jobs w' = jobs w) \/
       (exists url,
           r = Returns (Response 200 (VideoUrlBody url)) /\
           rx_upload e = Returns url /\
           returncode (rx_transform e) = 0 /\
           jobs w' = <[id := with_result
                               (update_first rk
                                  (reexported url (reexport_keyframes req)) clips)
                               j]> (jobs w) /\
           has_file ReexportOutput (files w') = false /\
           has_file ReexportSource (files w') = false))).
Proof.
  unfold reexport_clip.
  destruct (req_job_id req) as [id|]; [|intros [= <- <-]; left; eauto].
  destruct (jobs w !! id) as [j|] eqn:Hj; [|intros [= <- <-]; left; eauto].
  destruct (source_s3_key j) as [[|ch key]|];
    try (intros [= <- <-]; left; eauto; fail).
  destruct (result j) as [clips|] eqn:Hres; [|intros [= <- <-]; left; eauto].
  destruct (req_clip_rank req) as [rk|]; [|intros [= <- <-]; left; eauto].
  destruct (find_clip (Some rk) clips) as [c|] eqn:Hc;
    [|intros [= <- <-]; left; eauto].
  intros Hrun. right. exists id, j, clips, rk, c.
  do 5 (split; [first [reflexivity | assumption]|]).
  apply bind_run in Hrun as [(x & Hm & ->) | (u & w1 & Hm & Hrun)];
    destruct (quiet_download _ _ _ _ _ Hm) as [Hj1 Hh1].
  { split; [exact Hh1|]. left. eauto. }
  apply try_finally_run in Hrun as (r1 & w2 & rc & Hbody & Hfin & Hres').
  destruct (quiet_remove_if_exists _ _ _ _ Hfin) as [Hj3 Hh3].
  assert (Hrc : r = r1).
  { destruct Hres' as [->|(x & -> & _)]; [reflexivity|]. exfalso. revert Hfin.
    unfold remove_if_exists, bind, path_exists, os_remove, ret.
    destruct (has_file ReexportSource (files w2)) eqn:Hhas; cbn [files];
      rewrite ?Hhas; discriminate. }
  subst r1.
  assert (Hj1' : jobs w1 !! id = Some j) by now rewrite Hj1.
  destruct (reexport_try_run _ _ _ _ _ _ _ _ _ _ _ Hj1' Hres Hbody)
    as (Hh2 & Hcases).
  split; [congruence|].
  destruct Hcases as [(x & -> & Hj2) | [(-> & Hj2) | (url & -> & Hu & Hrc & Hj2 & Hout)]].
  - left. exists x. split; [reflexivity | congruence].
  - right. left. split; [reflexivity | congruence].
  - right. right. exists url. repeat (split; [assumption || reflexivity|]).
    split; [congruence|]. split.
    + pose proof (remove_if_exists_gone _ _ _ _ Hfin) as Hgone.
      destruct (has_file ReexportOutput (files w')) eqn:Hhas; [|reflexivity].
      exfalso. revert Hfin Hhas.
      unfold remove_if_exists, bind, path_exists, os_remove, ret.
      destruct (has_file ReexportSource (files w2)) eqn:Hsrc; cbn [files];
        rewrite ?Hsrc; intros [= _ <-]; cbn [files]; intros Hhas.
      * apply has_file_del_other in Hhas. congruence.
      * congruence.
    + exact (remove_if_exists_gone _ _ _ _ Hfin).
Qed.

(** X21. A re-export that answers 404 (unknown job, job without source
    key or result, unknown rank) changes nothing: registry, local files
    and logs are as they were. *)
Theorem reexport_not_found_changes_nothing (e : reexport_env)
    (req : reexport_request) (w : world) (resp : response) :
  fst (reexport_clip e req w) = Returns resp ->
  code resp = 404 ->
  snd (reexport_clip e req w) = w.
Proof.
  destruct (reexport_clip e req w) as [r w'] eqn:Hrun. cbn [fst snd].
  intros -> Hcode.
  destruct (reexport_clip_run e req w _ w' Hrun)
    as [(msg & _ & ->) | (id & j & clips & rk & c & _ & _ & _ & _ & _ & _ & Hend)];
    [reflexivity|].
  exfalso.
  destruct Hend as [(x & [=] & _) | [([= ->] & _) | (url & [= ->] & _)]];
    discriminate Hcode.
Qed.

Lemma reexport_not_found_changes_nothing_witness :
  snd (reexport_clip (reexport_env_of (TransformResult true 0)
                                      (Returns "https://clips/new"%string))
         (ReexportRequest (Some "job1"%string) (Some 9) None) done_world)
  = done_world.
Proof.
  apply (reexport_not_found_changes_nothing _ _ _
           (Response 404 (ErrorBody "Clip not found"))); reflexivity.
Defined.

Lemma find_update_first rk f clips c :
  (forall c, rank (f c) = rank c) ->
  find_clip (Some rk) clips = Some c ->
  find_clip (Some rk) (update_first rk f clips) = Some (f c) /\
  map rank (update_first rk f clips) = map rank clips.
Proof.
  intros Hf. unfold find_clip.
  induction clips as [|d clips IH]; [discriminate|].
  cbn [find update_first map]. destruct (rank d =? rk) eqn:Hd.
  - intros [= ->]. cbn [find map]. rewrite Hf, Hd. auto.
  - intros Hc. cbn [find map]. rewrite Hd.
    destruct (IH Hc) as [H1 H2]. now rewrite H2.
Qed.

Lemma update_first_ranks rk f clips :
  (forall c, rank (f c) = rank c) ->
  map rank (update_first rk f clips) = map rank clips.
Proof.
  intros Hf. induction clips as [|d clips IH]; [reflexivity|].
  cbn [update_first]. destruct (rank d =? rk); cbn [map];
    [now rewrite Hf | now rewrite IH].
Qed.

(** X22. A re-export that answers 200 with a URL has stored the clip
    under that URL: the job's result changes only in the first clip of
    the requested rank, which now carries the URL and the keyframes of
    the request -- looking the clip up by rank again returns it --; the
    ranks of the clips are as before, and neither the downloaded source
    nor the output file is left behind. *)
Theorem reexport_served (e : reexport_env) (req : reexport_request) (w : world)
    (url : string) :
  fst (reexport_clip e req w) = Returns (Response 200 (VideoUrlBody url)) ->
  exists id j clips rk c,
    req_job_id req = Some id /\ req_clip_rank req = Some rk /\
    jobs w !! id = Some j /\ result j = Some clips /\
    find_clip (Some rk) clips = Some c /\
    rx_upload e = Returns url /\
    jobs (snd (reexport_clip e req w))
    = <[id := with_result
                (update_first rk (reexported url (reexport_keyframes req)) clips)
                j]> (jobs w) /\
    find_clip (Some rk)
      (update_first rk (reexported url (reexport_keyframes req)) clips)
    = Some (Clip (rank c) (start_time c) (end_time c)
                 (Some (reexport_keyframes req)) (Some url) (clip_s3_key c)) /\
    map rank (update_first rk (reexported url (reexport_keyframes req)) clips)
    = map rank clips /\
    has_file ReexportOutput (files (snd (reexport_clip e req w))) = false /\
    has_file ReexportSource (files (snd (reexport_clip e req w))) = false.
Proof.
  destruct (reexport_clip e req w) as [r w'] eqn:Hrun. cbn [fst snd].
  intros ->.
  destruct (reexport_clip_run e req w _ w' Hrun)
    as [(msg & [=] & _) | (id & j & clips & rk & c & H1 & H2 & H3 & H4 & H5 & _ & Hend)].
  destruct Hend as [(x & [=] & _) | [([=] & _) | (u & [= <-] & Hu & _ & Hj & Ho & Hs)]].
  exists id, j, clips, rk, c.
  destruct (find_update_first rk (reexported url (reexport_keyframes req))
              clips c (fun _ => eq_refl) H5) as [Hfind Hranks].
  do 10 (split; [assumption|]). assumption.
Qed.

Lemma reexport_served_witness :
  jobs (snd (reexport_clip
               (reexport_env_of (TransformResult true 0)
                                (Returns "https://clips/new"%string))
               (ReexportRequest (Some "job1"%string) (Some 1)
                                (Some [Keyframe (Some 2%Q) (Some f64_0_8)]))
               done_world)) !! "job1"%string
  = Some (with_result
            [Clip 1 10 40 (Some [Keyframe (Some 2%Q) (Some f64_0_8)])
                  (Some "https://clips/new"%string) (Some ("job1"%string, 1))]
            done_job).
Proof.
  destruct (reexport_served
              (reexport_env_of (TransformResult true 0)
                               (Returns "https://clips/new"%string))
              (ReexportRequest (Some "job1"%string) (Some 1)
                               (Some [Keyframe (Some 2%Q) (Some f64_0_8)]))
              done_world "https://clips/new" eq_refl)
    as (id & j & clips & rk & c & Hid & Hrk & Hj & Hres & _ & _ & Hjobs & _).
  injection Hid as <-. injection Hrk as <-.
  injection Hj as <-. injection Hres as <-.
  rewrite Hjobs. reflexivity.
Defined.

(** X23. A re-export never writes a status: whatever the request and the
    collaborators, the status log is unchanged, and every job keeps its
    status, progress text, error, source key and transcript, and the
    ranks of the clips of its result. *)
Theorem reexport_keeps_job_state (e : reexport_env) (req : reexport_request)
    (w : world) (job_id : string) (j : job) :
  jobs w !! job_id = Some j ->
  history (snd (reexport_clip e req w)) = history w /\
  exists j',
    jobs (snd (reexport_clip e req w)) !! job_id = Some j' /\
    job_status j' = job_status j /\ progress j' = progress j /\
    error j' = error j /\ s3_key j' = s3_key j /\
    transcript j' = transcript j /\ source_s3_key j' = source_s3_key j /\
    option_map (map rank) (result j') = option_map (map rank) (result j).
Proof.
  intros Hj.
  destruct (reexport_clip e req w) as [r w'] eqn:Hrun. cbn [snd].
  destruct (reexport_clip_run e req w r w' Hrun)
    as [(msg & _ & ->) | (id & j0 & clips & rk & c & _ & Hj0 & Hres & _ & _ & Hh & Hend)].
  { split; [reflexivity|]. exists j. repeat split. exact Hj. }
  split; [exact Hh|].
  destruct Hend as [(x & _ & Hjobs) | [(_ & Hjobs) | (url & _ & _ & _ & Hjobs & _)]];
    try (exists j; rewrite Hjobs; repeat split; exact Hj).
  rewrite Hjobs. destruct (decide (id = job_id)) as [->|Hne].
  - rewrite lookup_insert_eq. eexists. split; [reflexivity|].
    assert (j0 = j) as -> by congruence.
    cbn. repeat (split; [reflexivity|]). rewrite Hres. cbn. f_equal.
    now apply update_first_ranks.
  - rewrite lookup_insert_ne by exact Hne. exists j. repeat split. exact Hj.
Qed.

Lemma reexport_keeps_job_state_witness :
  history (snd (reexport_clip
                  (reexport_env_of (TransformResult true 0)
                                   (Returns "https://clips/new"%string))
                  (ReexportRequest (Some "job1"%string) (Some 1) None)
                  done_world))
  = [].
Proof.
  apply (reexport_keeps_job_state
           (reexport_env_of (TransformResult true 0)
                            (Returns "https://clips/new"%string))
           (ReexportRequest (Some "job1"%string) (Some 1) None)
           done_world "job1" done_job).
  reflexivity.
Defined.

Lemma reexport_try_no_expr e id rk c kfs tv w :
  crop_expr_of (fst (rx_frame_size e)) (snd (rx_frame_size e)) kfs = None ->
  reexport_try e id rk c kfs tv w = (Raises IndexError, w).
Proof. intros Hnone. unfold reexport_try. now rewrite Hnone. Qed.

(** X24. A re-export request with an empty keyframe list is never
    served: the synthesis fails at the last element ([IndexError]), so no
    transform is started, the registry is unchanged, and the only
    responses the route can give are the 404 ones. *)
Theorem reexport_empty_keyframes (e : reexport_env) (req : reexport_request)
    (w : world) :
  req_keyframes req = Some [] ->
  transforms (snd (reexport_clip e req w)) = transforms w /\
  jobs (snd (reexport_clip e req w)) = jobs w /\
  (forall resp, fst (reexport_clip e req w) = Returns resp -> code resp = 404).
Proof.
  intros Hempty.
  assert (Hk : reexport_keyframes req = []).
  { unfold reexport_keyframes. now rewrite Hempty. }
  assert (Hnf : forall msg,
             transforms (snd (Returns (Response 404 (ErrorBody msg)), w))
             = transforms w /\
             jobs (snd (Returns (Response 404 (ErrorBody msg)), w)) = jobs w /\
             (forall resp,
                 fst (Returns (Response 404 (ErrorBody msg)), w) = Returns resp ->
                 code resp = 404)).
  { intros msg. cbn [fst snd]. split; [reflexivity|]. split; [reflexivity|].
    now intros resp [= <-]. }
  unfold reexport_clip.
  destruct (req_job_id req) as [id|]; [|apply Hnf].
  destruct (jobs w !! id) as [j|]; [|apply Hnf].
  destruct (source_s3_key j) as [[|ch key]|]; try apply Hnf.
  destruct (result j) as [clips|]; [|apply Hnf].
  destruct (req_clip_rank req) as [rk|]; [|apply Hnf].
  destruct (find_clip (Some rk) clips) as [c|]; [|apply Hnf].
  rewrite Hk.
  destruct (bind _ _ w) as [r w'] eqn:Hrun. cbn [fst snd].
  apply bind_run in Hrun as [(x & Hm & ->) | (u & w1 & Hm & Hrun)].
  { split; [exact (calm_download _ _ _ _ _ Hm)|].
    split; [exact (proj1 (quiet_download _ _ _ _ _ Hm)) | discriminate]. }
  apply try_finally_run in Hrun as (r1 & w2 & rc & Hbody & Hfin & Hres).
  rewrite reexport_try_no_expr in Hbody by reflexivity.
  injection Hbody as <- <-.
  split; [|split].
  - rewrite (calm_remove_if_exists _ _ _ _ Hfin).
    exact (calm_download _ _ _ _ _ Hm).
  - rewrite (proj1 (quiet_remove_if_exists _ _ _ _ Hfin)).
    exact (proj1 (quiet_download _ _ _ _ _ Hm)).
  - intros resp ->. destruct Hres as [[=] | (x & _ & [=])].
Qed.

Lemma reexport_empty_keyframes_witness :
  fst (reexport_clip (reexport_env_of (TransformResult true 0)
                                      (Returns "https://clips/new"%string))
         (ReexportRequest (Some "job1"%string) (Some 1) (Some []))
         done_world)
  = Raises IndexError /\
  jobs (snd (reexport_clip (reexport_env_of (TransformResult true 0)
                                            (Returns "https://clips/new"%string))
               (ReexportRequest (Some "job1"%string) (Some 1) (Some []))
               done_world))
  = jobs done_world.
Proof.
  split; [reflexivity|].
  apply (reexport_empty_keyframes
           (reexport_env_of (TransformResult true 0)
                            (Returns "https://clips/new"%string))
           (ReexportRequest (Some "job1"%string) (Some 1) (Some []))
           done_world eq_refl).
Defined.

(** ** From [/analyze] to the read-only routes *)



(** ** What a successful extraction leaves *)

Lemma path_eqb_eq a b : path_eqb a b = true <-> a = b.
Proof.
  split; [|intros ->; apply path_eqb_refl].
  destruct a, b; simpl; try discriminate; try reflexivity.
  intros Hr. apply Z.eqb_eq in Hr. now subst.
Qed.

Lemma has_file_del_true p q fs :
  has_file p (del_file q fs) = true -> p <> q /\ has_file p fs = true.
Proof.
  intros Hp. split; [|now apply (has_file_del_other p q)].
  intros ->. now rewrite has_file_del in Hp.
Qed.

Lemma has_file_add_other p q fs :
  p <> q -> has_file p (add_file q fs) = true -> has_file p fs = true.
Proof.
  intros Hne. unfold add_file. destruct (has_file q fs); [auto|].
  unfold has_file. simpl. destruct (path_eqb p q) eqn:Hpq; [|auto].
  apply path_eqb_eq in Hpq. contradiction.
Qed.

Lemma extract_loop_files cenv video id W H clips :
  forall i w cs exs w',
    extract_loop cenv video id W H i clips w = (Returns (cs, exs), w') ->
    (forall p, has_file p (files w') = true -> has_file p (files w) = true) /\
    (forall c, In c clips -> has_file (ClipOutput (rank c)) (files w') = false).
Proof.
  induction clips as [|c rest IH]; intros i w cs exs w'.
  - intros [= <- <- <-]. split; [auto | intros c []].
  - cbn [extract_loop]. intros Hrun.
    apply bind_run in Hrun as [(x & _ & [=]) | (ce & w1 & Hce & Hrun)].
    assert (w1 = w) as ->.
    { destruct (crop_expr_of W H _); injection Hce as _ <-; reflexivity
                                     || discriminate Hce. }
    apply bind_run in Hrun as [(x & _ & [=]) | (rc & w2 & Hff & Hrun)].
    assert (Hf2 : forall p, p <> ClipOutput (rank c) ->
                            has_file p (files w2) = true ->
                            has_file p (files w) = true).
    { unfold run_ffmpeg in Hff. injection Hff as _ <-. cbn [files t_output].
      intros p Hne. destruct (makes_file _); [|auto].
      now apply has_file_add_other. }
    apply bind_run in Hrun as [(x & _ & [=]) | (url & w3 & Hup & Hrun)].
    destruct (upload_run _ _ _ _ _ Hup) as [-> _].
    apply bind_run in Hrun as [(x & _ & [=]) | (u & w4 & Hrm & Hrun)].
    assert (Hf4 : files w4 = del_file (ClipOutput (rank c)) (files w2)).
    { revert Hrm. unfold os_remove.
      destruct (has_file _ (files w2)); [|discriminate]. now intros [= _ <-]. }
    apply bind_run in Hrun as [(x & _ & [=]) | ([cs' exs'] & w5 & Hrest & Hrun)].
    injection Hrun as <- <- ->.
    destruct (IH _ _ _ _ _ Hrest) as [Hnew Hgone].
    assert (Hall : forall p, has_file p (files w') = true ->
                             p <> ClipOutput (rank c) /\
                             has_file p (files w) = true).
    { intros p Hp. apply Hnew in Hp. rewrite Hf4 in Hp.
      apply has_file_del_true in Hp as [Hne Hp]. split; [exact Hne|].
      now apply Hf2. }
    split.
    + intros p Hp. now apply Hall.
    + intros d [<-|Hin]; [|now apply Hgone].
      destruct (has_file (ClipOutput (rank c)) (files w')) eqn:Hhas; [|reflexivity].
      now destruct (Hall _ Hhas) as [Hne _].
Qed.

(** X26. An extraction that returns has produced one entry per selected
    clip, in order and under the clip's rank and key, has started the
    transform once per clip, has put the keyframes used on every clip,
    and has left no output file and no new local file behind. *)
Theorem extract_clips_returns (cenv : nat -> clip_env) (size : Z * Z)
    (video : path) (clips : list clip) (job_id : string) (w w' : world)
    (cs : list clip) (exs : list extracted_clip) :
  extract_clips cenv size video (Some clips) job_id w = (Returns (cs, exs), w') ->
  map rank cs = map rank clips /\
  map ex_rank exs = map rank clips /\
  map ex_s3_key exs = map (fun c => (job_id, rank c)) clips /\
  map clip_keyframes cs = map (fun x => Some (ex_keyframes x)) exs /\
  length (transforms w') = (length (transforms w) + length clips)%nat /\
  (forall c, In c clips -> has_file (ClipOutput (rank c)) (files w') = false) /\
  (forall p, has_file p (files w') = true -> has_file p (files w) = true).
Proof.
  unfold extract_clips. cbn [or_raise]. unfold bind at 1. cbn [ret].
  intros Hrun.
  destruct (extract_loop_returns _ _ _ _ _ _ _ _ _ _ _ Hrun)
    as (H1 & H2 & _ & _ & H5 & H6 & H7).
  destruct (extract_loop_files _ _ _ _ _ _ _ _ _ _ _ Hrun) as [Hnew Hgone].
  auto 10.
Qed.

Lemma extract_clips_returns_witness :
  length (transforms
            (snd (extract_clips (clip_envs (env_of DgError (Returns "u"%string)))
                    (1920, 1080) SourceVideo
                    (Some [Clip 1 10 40 None None None; Clip 2 50 80 None None None])
                    "job1" done_world)))
  = 2%nat.
Proof.
  destruct (extract_clips (clip_envs (env_of DgError (Returns "u"%string)))
              (1920, 1080) SourceVideo
              (Some [Clip 1 10 40 None None None; Clip 2 50 80 None None None])
              "job1" done_world) as [[[cs exs]|x] w'] eqn:Hrun.
  - destruct (extract_clips_returns _ _ _ _ _ _ _ _ _ Hrun)
      as (_ & _ & _ & _ & Hlen & _).
    exact Hlen.
  - exfalso. revert Hrun. vm_compute. discriminate.
Defined.
